(** * open_tab_tracker: the Chrome SNSS session decoder

    A shallow embedding of [open_tab_tracker/ChromeSession.py] and of
    [open_tab_tracker/browsers/Chrome.py].

    Conventions of the embedding:
    - a Python [int] is a [Z]; a [bytes] value is a [list byte];
    - a Python [str] is the list of its code points ([str]);
    - a binary stream ([io.BufferedReader], [io.BytesIO]) is the list of
      the bytes that lie after its cursor, and a read returns the bytes
      read together with the stream that is left;
    - a raised exception is the [Raise] case of [result];
    - a [dict] is an association list in insertion order ([Dict]); an
      object held by a dict and mutated through a reference is updated
      in place under its key. *)

From Stdlib Require Import Strings.Byte.
From Stdlib Require Import ZArith List Bool Lia String Ascii.
From Stdlib Require Import Sorted Permutation HexString.
Import ListNotations.
Open Scope Z_scope.

(** ** Exceptions *)

Inductive exn : Type :=
| ValueError          (* raise ValueError(...) in parse *)
| StructError         (* struct.error, from struct.unpack *)
| UnicodeDecodeError  (* bytes.decode('utf-8') *)
| ReadStringFailure   (* raise Exception("Failed to read string") *)
| RuntimeError        (* get_chrome_session_file *)
| OSError.            (* open *)

Inductive result (A : Type) : Type :=
| Ok (a : A)
| Raise (e : exn).
Arguments Ok {A} a.
Arguments Raise {A} e.

(** ** Streams and the primitive readers *)

(** A reader runs on the bytes after the cursor and gives back a value
    and the bytes that remain. *)
Definition reader (A : Type) : Type := list byte -> result (A * list byte).

Definition ret {A} (a : A) : reader A := fun s => Ok (a, s).

Definition bind {A B} (m : reader A) (k : A -> reader B) : reader B :=
  fun s => match m s with
           | Ok (a, s') => k a s'
           | Raise e => Raise e
           end.

Definition throw {A} (e : exn) : reader A := fun _ => Raise e.

Notation "x <- m ;; k" := (bind m (fun x => k))
  (at level 61, m at next level, right associativity).

Definition byte_val (b : byte) : Z := Z.of_N (Byte.to_N b).

(** [stream.read(n)]: at most [n] bytes; everything when [n] is negative. *)
Definition read (n : Z) : reader (list byte) :=
  fun s => if n <? 0 then Ok (s, [])
           else Ok (firstn (Z.to_nat n) s, skipn (Z.to_nat n) s).

(** Little-endian value of a byte string. *)
Fixpoint le_value (bs : list byte) : Z :=
  match bs with
  | [] => 0
  | b :: r => byte_val b + 256 * le_value r
  end.

(** [struct.unpack('<B' | '<H' | '<I' | '<Q', data)[0]]: the buffer must
    have exactly the width of the format. *)
Definition unpack (width : nat) (data : list byte) : result Z :=
  if Nat.eqb (List.length data) width then Ok (le_value data)
  else Raise StructError.

Definition read_uint (width : nat) : reader Z :=
  data <- read (Z.of_nat width) ;;
  fun s => match unpack width data with
           | Ok v => Ok (v, s)
           | Raise e => Raise e
           end.

Definition read_uint8 : reader Z := read_uint 1.
Definition read_uint16 : reader Z := read_uint 2.
Definition read_uint32 : reader Z := read_uint 4.
Definition read_uint64 : reader Z := read_uint 8.

(** A Python string: its code points. *)
Definition str : Type := list Z.

Definition is_cont (b : byte) : bool :=
  Z.land (byte_val b) 192 =? 128.

Definition cont_bits (b : byte) : Z := Z.land (byte_val b) 63.

(** [data.decode('utf-8')] with the strict error handler: overlong forms,
    surrogates, code points above 0x10FFFF and cut sequences are refused. *)
Fixpoint decode_utf8 (data : list byte) : option str :=
  match data with
  | [] => Some []
  | b0 :: r0 =>
    let c0 := byte_val b0 in
    if c0 <? 128 then option_map (cons c0) (decode_utf8 r0)
    else if c0 <? 194 then None
    else if c0 <? 224 then
      match r0 with
      | b1 :: r1 =>
        if is_cont b1
        then option_map (cons (Z.lor (Z.shiftl (Z.land c0 31) 6) (cont_bits b1)))
                        (decode_utf8 r1)
        else None
      | _ => None
      end
    else if c0 <? 240 then
      match r0 with
      | b1 :: b2 :: r2 =>
        let cp := Z.lor (Z.shiftl (Z.land c0 15) 12)
                        (Z.lor (Z.shiftl (cont_bits b1) 6) (cont_bits b2)) in
        if is_cont b1 && is_cont b2 && (2048 <=? cp)
           && negb ((55296 <=? cp) && (cp <=? 57343))
        then option_map (cons cp) (decode_utf8 r2)
        else None
      | _ => None
      end
    else if c0 <? 245 then
      match r0 with
      | b1 :: b2 :: b3 :: r3 =>
        let cp := Z.lor (Z.shiftl (Z.land c0 7) 18)
                        (Z.lor (Z.shiftl (cont_bits b1) 12)
                               (Z.lor (Z.shiftl (cont_bits b2) 6) (cont_bits b3))) in
        if is_cont b1 && is_cont b2 && is_cont b3
           && (65536 <=? cp) && (cp <=? 1114111)
        then option_map (cons cp) (decode_utf8 r3)
        else None
      | _ => None
      end
    else None
  end.

(** The 4-byte alignment of pickled data. *)
Definition align4 (read_size : Z) : Z :=
  if negb (read_size mod 4 =? 0) then read_size + (4 - read_size mod 4)
  else read_size.

Definition read_string : reader str :=
  size <- read_uint32 ;;
  let read_size := align4 size in
  data <- read read_size ;;
  match decode_utf8 (firstn (Z.to_nat size) data) with
  | Some s => ret s
  | None => throw UnicodeDecodeError
  end.

(** The loop [for i in range(0, size * 2, 2)] of [read_string16]:
    [(data[i+1] << 8) | data[i]] for each of the [size] code units. *)
Fixpoint code_units (size : nat) (data : list byte) : list Z :=
  match size with
  | O => []
  | S k =>
    match data with
    | lo :: hi :: r =>
      Z.lor (Z.shiftl (byte_val hi) 8) (byte_val lo) :: code_units k r
    | _ => []
    end
  end.

Definition read_string16 : reader str :=
  size <- read_uint32 ;;
  let read_size := align4 (size * 2) in
  data <- read read_size ;;
  if negb (Z.of_nat (List.length data) =? read_size)
  then throw ReadStringFailure
  else ret (code_units (Z.to_nat size) data).

(** ** Command constants *)

Definition COMMAND_UPDATE_TAB_NAVIGATION : Z := 6.
Definition COMMAND_SET_SELECTED_TAB_IN_INDEX : Z := 8.
Definition COMMAND_SET_TAB_WINDOW : Z := 0.
Definition COMMAND_SET_TAB_GROUP : Z := 25.
Definition COMMAND_SET_TAB_GROUP_METADATA2 : Z := 27.
Definition COMMAND_SET_SELECTED_NAVIGATION_INDEX : Z := 7.
Definition COMMAND_TAB_CLOSED : Z := 16.
Definition COMMAND_WINDOW_CLOSED : Z := 17.
Definition COMMAND_SET_TAB_INDEX_IN_WINDOW : Z := 2.
Definition COMMAND_SET_ACTIVE_WINDOW : Z := 20.
Definition COMMAND_LAST_ACTIVE_TIME : Z := 21.

(** ** The data classes *)

Record Group : Type := mkGroup {
  group_high : Z;
  group_low : Z;
  group_name : str
}.

Record HistoryItem : Type := mkHistoryItem {
  hist_idx : Z;
  hist_url : str;
  hist_title : str
}.

(** [tab_group] is the reference held by [Tab.group]: the key under which
    the shared [Group] object lives in the [groups] table, so that a later
    change of the group's name is seen through the tab. *)
Record Tab : Type := mkTab {
  tab_id : Z;
  tab_history : list HistoryItem;
  tab_idx : Z;
  tab_win : Z;
  tab_deleted : bool;
  tab_current_history_idx : Z;
  tab_group : option string
}.

Record Window : Type := mkWindow {
  win_id : Z;
  win_active_tab_idx : Z;
  win_deleted : bool;
  win_tabs : list Tab
}.

Record ResultHistoryItem : Type := mkResultHistoryItem {
  rh_url : str;
  rh_title : str
}.

Record ResultTab : Type := mkResultTab {
  rt_active : bool;
  rt_history : list ResultHistoryItem;
  rt_url : str;
  rt_title : str;
  rt_deleted : bool;
  rt_group : str
}.

Record ResultWindow : Type := mkResultWindow {
  rw_tabs : list ResultTab;
  rw_active : bool;
  rw_deleted : bool
}.

Record Result : Type := mkResult {
  res_windows : list ResultWindow
}.

(** The defaults of the data classes. *)
Definition new_Group (high low : Z) : Group := mkGroup high low [].
Definition new_HistoryItem (idx : Z) : HistoryItem := mkHistoryItem idx [] [].
Definition new_Tab (id : Z) : Tab := mkTab id [] 0 0 false 0 None.
Definition new_Window (id : Z) : Window := mkWindow id 0 false [].

(** ** Dictionaries in insertion order *)

Module Dict.
Section Dict.
Context {K V : Type}.
Variable eqb : K -> K -> bool.

Definition t : Type := list (K * V).

Fixpoint get (k : K) (d : t) : option V :=
  match d with
  | [] => None
  | (k', v) :: r => if eqb k' k then Some v else get k r
  end.

(** [k in d] *)
Definition mem (k : K) (d : t) : bool :=
  match get k d with Some _ => true | None => false end.

(** [if k not in d: d[k] = v] *)
Definition setdefault (k : K) (v : V) (d : t) : t :=
  if mem k d then d else d ++ [(k, v)].

(** A mutation [f] of the object stored under [k]. *)
Fixpoint update (k : K) (f : V -> V) (d : t) : t :=
  match d with
  | [] => []
  | (k', v) :: r =>
    if eqb k' k then (k', f v) :: r else (k', v) :: update k f r
  end.

Definition keys (d : t) : list K := map fst d.
Definition values (d : t) : list V := map snd d.
End Dict.
End Dict.

(** ** The state of a replay: the local variables of [parse] *)

Record store : Type := mkStore {
  tabs : Dict.t (K := Z) (V := Tab);
  windows : Dict.t (K := Z) (V := Window);
  groups : Dict.t (K := string) (V := Group);
  active_window : option Z   (* the id of the window referred to *)
}.

Definition empty_store : store := mkStore [] [] [] None.

Definition set_tabs (d : Dict.t) (st : store) : store :=
  mkStore d (windows st) (groups st) (active_window st).
Definition set_windows (d : Dict.t) (st : store) : store :=
  mkStore (tabs st) d (groups st) (active_window st).
Definition set_groups (d : Dict.t) (st : store) : store :=
  mkStore (tabs st) (windows st) d (active_window st).
Definition set_active_window (a : option Z) (st : store) : store :=
  mkStore (tabs st) (windows st) (groups st) a.

(** [format(n, 'x')] *)
Definition hex (n : Z) : string :=
  match n with
  | Z0 => "0"
  | Zpos p => HexString.Raw.of_pos p ""
  | Zneg p => String "-" (HexString.Raw.of_pos p "")
  end.

Definition group_key (high low : Z) : string := (hex high ++ hex low)%string.

(** The three accessors create the entity on its first use.  The entity
    they return is the one stored under the key afterwards. *)
Definition get_window (id : Z) (st : store) : store :=
  set_windows (Dict.setdefault Z.eqb id (new_Window id) (windows st)) st.

Definition get_group (high low : Z) (st : store) : store :=
  set_groups (Dict.setdefault String.eqb (group_key high low)
                              (new_Group high low) (groups st)) st.

Definition get_tab (id : Z) (st : store) : store :=
  set_tabs (Dict.setdefault Z.eqb id (new_Tab id) (tabs st)) st.

(** Mutations through the reference an accessor returned. *)
Definition modify_window (id : Z) (f : Window -> Window) (st : store) : store :=
  set_windows (Dict.update Z.eqb id f (windows st)) st.
Definition modify_group (key : string) (f : Group -> Group) (st : store) : store :=
  set_groups (Dict.update String.eqb key f (groups st)) st.
Definition modify_tab (id : Z) (f : Tab -> Tab) (st : store) : store :=
  set_tabs (Dict.update Z.eqb id f (tabs st)) st.

Definition with_history (h : list HistoryItem) (t : Tab) : Tab :=
  mkTab (tab_id t) h (tab_idx t) (tab_win t) (tab_deleted t)
        (tab_current_history_idx t) (tab_group t).
Definition with_idx (i : Z) (t : Tab) : Tab :=
  mkTab (tab_id t) (tab_history t) i (tab_win t) (tab_deleted t)
        (tab_current_history_idx t) (tab_group t).
Definition with_win (w : Z) (t : Tab) : Tab :=
  mkTab (tab_id t) (tab_history t) (tab_idx t) w (tab_deleted t)
        (tab_current_history_idx t) (tab_group t).
Definition with_deleted (t : Tab) : Tab :=
  mkTab (tab_id t) (tab_history t) (tab_idx t) (tab_win t) true
        (tab_current_history_idx t) (tab_group t).
Definition with_current_history_idx (i : Z) (t : Tab) : Tab :=
  mkTab (tab_id t) (tab_history t) (tab_idx t) (tab_win t) (tab_deleted t)
        i (tab_group t).
Definition with_group (key : string) (t : Tab) : Tab :=
  mkTab (tab_id t) (tab_history t) (tab_idx t) (tab_win t) (tab_deleted t)
        (tab_current_history_idx t) (Some key).

Definition with_active_tab_idx (i : Z) (w : Window) : Window :=
  mkWindow (win_id w) i (win_deleted w) (win_tabs w).
Definition with_win_deleted (w : Window) : Window :=
  mkWindow (win_id w) (win_active_tab_idx w) true (win_tabs w).
Definition with_tabs (ts : list Tab) (w : Window) : Window :=
  mkWindow (win_id w) (win_active_tab_idx w) (win_deleted w) ts.

Definition with_name (name : str) (g : Group) : Group :=
  mkGroup (group_high g) (group_low g) name.

(** The body of the UpdateTabNavigation handler on a tab's history: the
    first item whose idx is [hist_idx] gets the url and title; when there
    is none, a new item is appended and gets them. *)
Fixpoint upsert_history (idx : Z) (url title : str) (h : list HistoryItem)
  : list HistoryItem :=
  match h with
  | [] => [mkHistoryItem idx url title]
  | x :: r =>
    if hist_idx x =? idx then mkHistoryItem (hist_idx x) url title :: r
    else x :: upsert_history idx url title r
  end.

(** ** The frame splitter: the [try] block of the command loop *)

Inductive frame : Type :=
| EndOfLog                                               (* [break] *)
| Command (cmd_type : Z) (data : list byte) (fh : list byte).

(** The declared payload length: the u16 size field minus the type byte. *)
Definition payload_size (cmd_data : list byte) : Z := le_value cmd_data - 1.

Definition next_frame (fh : list byte) : result frame :=
  match read 2 fh with
  | Raise e => Raise e
  | Ok (cmd_data, fh) =>
    if Nat.ltb (List.length cmd_data) 2 then Ok EndOfLog
    else
      let size := payload_size cmd_data in
      match (cmd_type <- read_uint8 ;; data <- read size ;; ret (cmd_type, data)) fh with
      | Raise e => Raise e   (* struct.error is not an EOFError: it propagates *)
      | Ok ((cmd_type, data), fh) => Ok (Command cmd_type data fh)
      end
  end.

(** ** The command dispatcher *)

(** A handler decodes its fields from the record's own buffer and then
    changes the store. *)
Definition handle {A} (fields : reader A) (effect : A -> store -> store)
  (data : list byte) (st : store) : result store :=
  match fields data with
  | Ok (a, _) => Ok (effect a st)
  | Raise e => Raise e
  end.

Definition update_tab_navigation : list byte -> store -> result store :=
  handle (_ <- read_uint32 ;;
          id <- read_uint32 ;;
          hist_idx <- read_uint32 ;;
          url <- read_string ;;
          title <- read_string16 ;;
          ret (id, hist_idx, url, title))
         (fun '(id, hist_idx, url, title) st =>
            modify_tab id
              (fun t => with_history
                          (upsert_history hist_idx url title (tab_history t)) t)
              (get_tab id st)).

Definition set_selected_tab_in_index : list byte -> store -> result store :=
  handle (id <- read_uint32 ;; idx <- read_uint32 ;; ret (id, idx))
         (fun '(id, idx) st =>
            modify_window id (with_active_tab_idx idx) (get_window id st)).

Definition set_tab_group_metadata2 : list byte -> store -> result store :=
  handle (_ <- read_uint32 ;;
          high <- read_uint64 ;;
          low <- read_uint64 ;;
          name <- read_string16 ;;
          ret (high, low, name))
         (fun '(high, low, name) st =>
            modify_group (group_key high low) (with_name name)
                         (get_group high low st)).

Definition set_tab_group : list byte -> store -> result store :=
  handle (id <- read_uint32 ;;
          _ <- read_uint32 ;;
          high <- read_uint64 ;;
          low <- read_uint64 ;;
          ret (id, high, low))
         (fun '(id, high, low) st =>
            modify_tab id (with_group (group_key high low))
                       (get_tab id (get_group high low st))).

Definition set_tab_window : list byte -> store -> result store :=
  handle (win <- read_uint32 ;; id <- read_uint32 ;; ret (win, id))
         (fun '(win, id) st => modify_tab id (with_win win) (get_tab id st)).

Definition window_closed : list byte -> store -> result store :=
  handle read_uint32
         (fun id st => modify_window id with_win_deleted (get_window id st)).

Definition tab_closed : list byte -> store -> result store :=
  handle read_uint32
         (fun id st => modify_tab id with_deleted (get_tab id st)).

Definition set_tab_index_in_window : list byte -> store -> result store :=
  handle (id <- read_uint32 ;; index <- read_uint32 ;; ret (id, index))
         (fun '(id, index) st => modify_tab id (with_idx index) (get_tab id st)).

Definition set_active_window_cmd : list byte -> store -> result store :=
  handle read_uint32
         (fun id st => set_active_window (Some id) (get_window id st)).

Definition set_selected_navigation_index : list byte -> store -> result store :=
  handle (id <- read_uint32 ;; idx <- read_uint32 ;; ret (id, idx))
         (fun '(id, idx) st =>
            modify_tab id (with_current_history_idx idx) (get_tab id st)).

(** The opcodes that have a branch in the [if]/[elif] chain. *)
Definition handled_opcodes : list Z :=
  [ COMMAND_UPDATE_TAB_NAVIGATION; COMMAND_SET_SELECTED_TAB_IN_INDEX;
    COMMAND_SET_TAB_GROUP_METADATA2; COMMAND_SET_TAB_GROUP;
    COMMAND_SET_TAB_WINDOW; COMMAND_WINDOW_CLOSED; COMMAND_TAB_CLOSED;
    COMMAND_SET_TAB_INDEX_IN_WINDOW; COMMAND_SET_ACTIVE_WINDOW;
    COMMAND_SET_SELECTED_NAVIGATION_INDEX ].

Definition handled (cmd_type : Z) : bool :=
  existsb (Z.eqb cmd_type) handled_opcodes.

Definition dispatch (cmd_type : Z) (data : list byte) (st : store)
  : result store :=
  if cmd_type =? COMMAND_UPDATE_TAB_NAVIGATION then
    update_tab_navigation data st
  else if cmd_type =? COMMAND_SET_SELECTED_TAB_IN_INDEX then
    set_selected_tab_in_index data st
  else if cmd_type =? COMMAND_SET_TAB_GROUP_METADATA2 then
    set_tab_group_metadata2 data st
  else if cmd_type =? COMMAND_SET_TAB_GROUP then
    set_tab_group data st
  else if cmd_type =? COMMAND_SET_TAB_WINDOW then
    set_tab_window data st
  else if cmd_type =? COMMAND_WINDOW_CLOSED then
    window_closed data st
  else if cmd_type =? COMMAND_TAB_CLOSED then
    tab_closed data st
  else if cmd_type =? COMMAND_SET_TAB_INDEX_IN_WINDOW then
    set_tab_index_in_window data st
  else if cmd_type =? COMMAND_SET_ACTIVE_WINDOW then
    set_active_window_cmd data st
  else if cmd_type =? COMMAND_SET_SELECTED_NAVIGATION_INDEX then
    set_selected_navigation_index data st
  else Ok st.

(** ** The command loop: [while True] *)

(** One unit of fuel is one turn of the loop.  A turn that goes on takes
    at least three bytes off the stream, so [run_commands] gives the loop
    more turns than it can take ([run_commands_unfold] below); the
    exhausted case is never reached. *)
Fixpoint command_loop (fuel : nat) (fh : list byte) (st : store)
  : result store :=
  match fuel with
  | O => Ok st
  | S fuel =>
    match next_frame fh with
    | Raise e => Raise e
    | Ok EndOfLog => Ok st
    | Ok (Command cmd_type data fh) =>
      match dispatch cmd_type data st with
      | Raise e => Raise e
      | Ok st => command_loop fuel fh st
      end
    end
  end.

Definition run_commands (fh : list byte) (st : store) : result store :=
  command_loop (S (List.length fh)) fh st.

(** ** The materializer *)

(** [list.sort(key=...)] is a stable sort.  The stable sort of a list by a
    key is unique, and insertion from the right in front of the first
    element whose key is not smaller computes it. *)
Section Sort.
Context {A : Type}.
Variable key : A -> Z.

Fixpoint insert_by (x : A) (l : list A) : list A :=
  match l with
  | [] => [x]
  | y :: r => if key x <=? key y then x :: y :: r else y :: insert_by x r
  end.

Definition sort_by (l : list A) : list A := fold_right insert_by [] l.
End Sort.

(** The body of [for tab in tabs.values()], on the table entry of the tab. *)
Definition place_tab (st : store) (entry : Z * Tab) : store :=
  let tab := with_history (sort_by hist_idx (tab_history (snd entry))) (snd entry) in
  let st := modify_tab (fst entry) (fun _ => tab) st in
  let st := get_window (tab_win tab) st in
  modify_window (tab_win tab) (fun w => with_tabs (win_tabs w ++ [tab]) w) st.

(** The body of the first [for window in windows.values()]. *)
Definition sort_window (entry : Z * Window) : Z * Window :=
  (fst entry, with_tabs (sort_by tab_idx (win_tabs (snd entry))) (snd entry)).

(** "Sort and organize the final data structures". *)
Definition organize (st : store) : store :=
  let st := fold_left place_tab (tabs st) st in
  set_windows (map sort_window (windows st)) st.

Definition append_history (item : ResultHistoryItem) (rt : ResultTab) : ResultTab :=
  mkResultTab (rt_active rt) (rt_history rt ++ [item]) (rt_url rt) (rt_title rt)
              (rt_deleted rt) (rt_group rt).

Definition set_url_title (url title : str) (rt : ResultTab) : ResultTab :=
  mkResultTab (rt_active rt) (rt_history rt) url title (rt_deleted rt) (rt_group rt).

(** [for hist in tab.history], with its [break]. *)
Fixpoint history_loop (current_history_idx : Z) (history : list HistoryItem)
  (result_tab : ResultTab) : ResultTab :=
  match history with
  | [] => result_tab
  | hist :: r =>
    let result_tab :=
      append_history (mkResultHistoryItem (hist_url hist) (hist_title hist))
                     result_tab in
    if hist_idx hist =? current_history_idx
    then set_url_title (hist_url hist) (hist_title hist) result_tab
    else history_loop current_history_idx r result_tab
  end.

(** [tab.group.name if tab.group else ""].  The key a tab holds is a key of
    the table ([group_name_of_bound] below), so the inner [None] is not
    reached. *)
Definition group_name_of (st : store) (tab : Tab) : str :=
  match tab_group tab with
  | Some key =>
    match Dict.get String.eqb key (groups st) with
    | Some g => group_name g
    | None => []
    end
  | None => []
  end.

Definition build_tab (st : store) (window : Window) (idx : Z) (tab : Tab)
  : ResultTab :=
  history_loop (tab_current_history_idx tab) (tab_history tab)
    (mkResultTab (idx =? win_active_tab_idx window) [] [] []
                 (tab_deleted tab) (group_name_of st tab)).

(** [for tab in window.tabs], with the counter [idx]. *)
Fixpoint tabs_loop (st : store) (window : Window) (idx : Z) (ts : list Tab)
  (result_tabs : list ResultTab) : list ResultTab :=
  match ts with
  | [] => result_tabs
  | tab :: r =>
    let result_tab := build_tab st window idx tab in
    tabs_loop st window (if negb (tab_deleted tab) then idx + 1 else idx) r
              (result_tabs ++ [result_tab])
  end.

(** [window == active_window]: two windows of the table are equal exactly
    when they are the same window; [None] equals no window. *)
Definition is_active_window (st : store) (window : Window) : bool :=
  match active_window st with
  | Some id => win_id window =? id
  | None => false
  end.

Definition build_window (st : store) (window : Window) : ResultWindow :=
  mkResultWindow (tabs_loop st window 0 (win_tabs window) [])
                 (is_active_window st window)
                 (win_deleted window).

Definition build_result (st : store) : Result :=
  mkResult (map (build_window st) (Dict.values (windows st))).

(** ** [parse] *)

Definition SNSS : list byte := [x53; x4e; x53; x53].

(** The header check and the command loop: the store at the end of the log. *)
Definition replay (file : list byte) : result store :=
  match read 4 file with
  | Raise e => Raise e
  | Ok (magic, fh) =>
    if list_eq_dec Byte.byte_eq_dec magic SNSS then
      match read_uint32 fh with
      | Raise e => Raise e
      | Ok (version, fh) =>
        if (version =? 1) || (version =? 3) then run_commands fh empty_store
        else Raise ValueError
      end
    else Raise ValueError
  end.

Definition parse (file : list byte) : result Result :=
  match replay file with
  | Raise e => Raise e
  | Ok st => Ok (build_result (organize st))
  end.

(** ** [browsers/Chrome.py]: the tab count *)

(** What the code asks of the operating system. *)
Record filesystem : Type := mkFilesystem {
  expandvars : string -> string;          (* os.path.expandvars *)
  path_exists : string -> bool;           (* os.path.exists *)
  path_isdir : string -> bool;            (* os.path.isdir *)
  find_session : string -> string;        (* the newest Session_ file, or "" *)
  open_rb : string -> result (list byte)  (* open(path, 'rb'), read whole *)
}.

Definition get_chrome_session_file (fs : filesystem) : result string :=
  let target := expandvars fs "$HOME/.config/chromium" in
  let target := if negb (path_exists fs target)
                then expandvars fs "$HOME/.config/google-chrome" else target in
  let target := if negb (path_exists fs target)
                then expandvars fs "$HOME/.config/chrome" else target in
  let target := if path_isdir fs target then find_session fs target else target in
  if String.eqb target "" then Raise RuntimeError else Ok target.

(** [parse(path)]: the file is opened, then decoded. *)
Definition parse_path (fs : filesystem) (path : string) : result Result :=
  match open_rb fs path with
  | Raise e => Raise e
  | Ok file => parse file
  end.

Fixpoint count_tabs (ts : list ResultTab) (total_tabs : Z) : Z :=
  match ts with
  | [] => total_tabs
  | tab :: r =>
    count_tabs r (if negb (rt_deleted tab) then total_tabs + 1 else total_tabs)
  end.

Fixpoint count_windows (ws : list ResultWindow) (total_tabs : Z) : Z :=
  match ws with
  | [] => total_tabs
  | window :: r =>
    count_windows r (if negb (rw_deleted window)
                     then count_tabs (rw_tabs window) total_tabs
                     else total_tabs)
  end.

(** The body of the [try] block of [Chrome.get_tab_count]. *)
Definition read_session (fs : filesystem) : result Result :=
  match get_chrome_session_file fs with
  | Raise e => Raise e
  | Ok session_file => parse_path fs session_file
  end.

(** Every exception of the model is an [Exception]: [except Exception]
    catches them all. *)
Definition get_tab_count (fs : filesystem) : Z :=
  match read_session fs with
  | Ok data => count_windows (res_windows data) 0
  | Raise _ => 0
  end.

(** ** Vocabulary of the statements *)

Definition byte_of (z : Z) : byte :=
  match Byte.of_N (Z.to_N (z mod 256)) with
  | Some b => b
  | None => x00
  end.

(** [width] bytes, little-endian. *)
Fixpoint le_bytes (width : nat) (z : Z) : list byte :=
  match width with
  | O => []
  | S k => byte_of z :: le_bytes k (z / 256)
  end.

(** A record as the producer writes it: the u16 size counts the type byte
    and the payload. *)
Definition encode_record (cmd_type : byte) (payload : list byte) : list byte :=
  le_bytes 2 (1 + Z.of_nat (List.length payload)) ++ cmd_type :: payload.

Definition encode_records (rs : list (byte * list byte)) : list byte :=
  List.concat (map (fun r => encode_record (fst r) (snd r)) rs).

(** A record whose size field can hold its length. *)
Definition record_fits (r : byte * list byte) : Prop :=
  Z.of_nat (List.length (snd r)) <= 65534.

(** The commands of a list of records, applied in order. *)
Fixpoint apply_records (rs : list (byte * list byte)) (st : store)
  : result store :=
  match rs with
  | [] => Ok st
  | r :: rs =>
    match dispatch (byte_val (fst r)) (snd r) st with
    | Raise e => Raise e
    | Ok st => apply_records rs st
    end
  end.

(** The number of tabs of a list that are not deleted. *)
Definition visible_counter (ts : list Tab) : Z :=
  Z.of_nat (List.length (filter (fun t => negb (tab_deleted t)) ts)).

Definition result_item (h : HistoryItem) : ResultHistoryItem :=
  mkResultHistoryItem (hist_url h) (hist_title h).

(** String literals of the examples. *)
Definition ascii_bytes (s : string) : list byte :=
  map byte_of_ascii (list_ascii_of_string s).
Definition text (s : string) : str := map byte_val (ascii_bytes s).

Definition header (version : Z) : list byte := SNSS ++ le_bytes 4 version.
Definition u32 : Z -> list byte := le_bytes 4.
Definition u64 : Z -> list byte := le_bytes 8.

(** The tab of the table as the first materialization loop leaves it. *)
Definition sorted_history_tab (t : Tab) : Tab :=
  with_history (sort_by hist_idx (tab_history t)) t.

(** The downstream count, as a sum. *)
Definition live_tabs (w : ResultWindow) : Z :=
  Z.of_nat (List.length (filter (fun t => negb (rt_deleted t)) (rw_tabs w))).

Definition live_total (data : Result) : Z :=
  fold_right Z.add 0
    (map live_tabs (filter (fun w => negb (rw_deleted w)) (res_windows data))).

(** Operating systems of the examples: a profile path that is a session
    file with the given bytes, and a profile directory without a session. *)
Definition fs_session (file : list byte) : filesystem :=
  mkFilesystem (fun p => p) (fun _ => true) (fun _ => false)
               (fun _ => EmptyString) (fun _ => Ok file).

Definition fs_no_session : filesystem :=
  mkFilesystem (fun p => p) (fun _ => true) (fun _ => true)
               (fun _ => EmptyString) (fun _ => Raise OSError).

(** Scenario S3 of the specification: window 1 with the tabs 10, 11, 12 at
    the positions 0, 1, 2; tab 11 closed; the selected position is 1. *)
Definition S3_log : list byte :=
  header 1 ++ encode_records
    [ (x00, u32 1 ++ u32 10); (x00, u32 1 ++ u32 11); (x00, u32 1 ++ u32 12);
      (x02, u32 10 ++ u32 0); (x02, u32 11 ++ u32 1); (x02, u32 12 ++ u32 2);
      (x10, u32 11); (x08, u32 1 ++ u32 1) ].

(** SetTabGroup(tab 5, high 0x1, low 0x23), then
    SetTabGroupMetadata2(high 0x12, low 0x3, name "X"). *)
Definition colliding_groups_log : list byte :=
  header 3 ++ encode_records
    [ (x19, u32 5 ++ u32 0 ++ u64 1 ++ u64 35);
      (x1b, u32 0 ++ u64 18 ++ u64 3 ++ u32 1 ++ [x58; x00; x00; x00]) ].

(** Scenario S2: SetTabWindow(win 1, tab 42), then
    UpdateTabNavigation(tab 42, idx 0, "https://a", "A"), then
    SetSelectedNavigationIndex(tab 42, idx 0). *)
Definition S2_log : list byte :=
  header 1 ++ encode_records
    [ (x00, u32 1 ++ u32 42);
      (x06, u32 0 ++ u32 42 ++ u32 0
            ++ u32 9 ++ ascii_bytes "https://a" ++ [x00; x00; x00]
            ++ u32 1 ++ [x41; x00; x00; x00]);
      (x07, u32 42 ++ u32 0) ].

(** TabClosed(tab 1), then SetTabIndexInWindow(tab 2, index 1): two tabs
    of window 0, the first one closed, the selected position 0. *)
Definition closed_first_log : list byte :=
  header 1 ++ encode_records [ (x10, u32 1); (x02, u32 2 ++ u32 1) ].


Definition store_of (file : list byte) : store :=
  match replay file with
  | Ok st => st
  | Raise _ => empty_store
  end.


(** The tabs of a ResultWindow that are shown as active and not deleted. *)
Definition live_active (rw : ResultWindow) : list ResultTab :=
  filter (fun rt => rt_active rt && negb (rt_deleted rt)) (rw_tabs rw).

(** ** Invariants of the replay *)

(** A tab of the table carries its key, and no two of its history items
    have the same idx. *)
Definition tab_entry_ok (e : Z * Tab) : Prop :=
  tab_id (snd e) = fst e /\ NoDup (map hist_idx (tab_history (snd e))).

(** A window of the table carries its key; its tab list is filled at the
    end only. *)
Definition window_entry_ok (e : Z * Window) : Prop :=
  win_id (snd e) = fst e /\ win_tabs (snd e) = [].

Record store_ok (st : store) : Prop := mk_store_ok {
  ok_tab_keys : NoDup (Dict.keys (tabs st));
  ok_tabs : Forall tab_entry_ok (tabs st);
  ok_window_keys : NoDup (Dict.keys (windows st));
  ok_windows : Forall window_entry_ok (windows st)
}.

(** The group reference of a tab is a key of the group table: the lookup
    of [group_name_of] finds the group. *)
Definition group_ref_ok (gs : Dict.t (K := string) (V := Group))
  (e : Z * Tab) : Prop :=
  forall key, tab_group (snd e) = Some key ->
              Dict.mem String.eqb key gs = true.

Definition groups_ok (st : store) : Prop :=
  Forall (group_ref_ok (groups st)) (tabs st).

(** What [place_tab] does to the window table. *)
Definition place_in_windows (ws : Dict.t) (tab : Tab) : Dict.t :=
  Dict.update Z.eqb (tab_win tab)
              (fun w => with_tabs (win_tabs w ++ [tab]) w)
              (Dict.setdefault Z.eqb (tab_win tab) (new_Window (tab_win tab)) ws).

(** The window table while the tabs [done] have been placed. *)
Definition grouped (done : list Tab) (ws : Dict.t (K := Z) (V := Window)) : Prop :=
  NoDup (Dict.keys ws)
  /\ Forall (fun e => win_id (snd e) = fst e
                      /\ win_tabs (snd e)
                         = filter (fun t => tab_win t =? fst e) done) ws
  /\ Forall (fun t => In (tab_win t) (Dict.keys ws)) done.

(** The history part of a ResultTab [rt] made from the tab [tab]. *)
Definition history_emitted (tab : Tab) (rt : ResultTab) : Prop :=
  StronglySorted Z.lt (map hist_idx (tab_history tab))
  /\ (forall pre e post,
         tab_history tab = pre ++ e :: post ->
         hist_idx e = tab_current_history_idx tab ->
         rt_history rt = map result_item (pre ++ [e])
         /\ rt_url rt = hist_url e /\ rt_title rt = hist_title e)
  /\ ((forall e, In e (tab_history tab) ->
                 hist_idx e <> tab_current_history_idx tab) ->
      rt_history rt = map result_item (tab_history tab)
      /\ rt_url rt = [] /\ rt_title rt = []).

(** ** Vocabulary of the further properties *)

(** A Unicode scalar value: a code point that is not a surrogate. *)
Definition scalar_value (cp : Z) : Prop :=
  0 <= cp <= 1114111 /\ ~ (55296 <= cp <= 57343).

(** The bytes of a list of 16-bit code units, low byte first. *)
Definition utf16le (units : list Z) : list byte :=
  flat_map (fun u => [byte_of u; byte_of (u / 256)]) units.

Definition code_unit (u : Z) : Prop := 0 <= u < 65536.

(** What a later store keeps of an earlier one: every tab, window and
    group is still there, and a deleted flag that was set is still set. *)
Definition persists (st st' : store) : Prop :=
  (forall id t,
      Dict.get Z.eqb id (tabs st) = Some t ->
      exists t', Dict.get Z.eqb id (tabs st') = Some t'
                 /\ (tab_deleted t = true -> tab_deleted t' = true))
  /\ (forall id w,
         Dict.get Z.eqb id (windows st) = Some w ->
         exists w', Dict.get Z.eqb id (windows st') = Some w'
                    /\ (win_deleted w = true -> win_deleted w' = true))
  /\ (forall key g,
         Dict.get String.eqb key (groups st) = Some g ->
         exists g', Dict.get String.eqb key (groups st') = Some g').

(** The tables of a later store list the keys of the earlier one first,
    in the same order. *)
Definition extends (st st' : store) : Prop :=
  (exists l, Dict.keys (tabs st') = Dict.keys (tabs st) ++ l)
  /\ (exists l, Dict.keys (windows st') = Dict.keys (windows st) ++ l)
  /\ (exists l, Dict.keys (groups st') = Dict.keys (groups st) ++ l).

(** The least payload length with which the handler of an opcode can
    succeed: the fixed fields, and the empty strings of the two handlers
    that read strings. *)
Definition min_payload (cmd_type : Z) : Z :=
  if cmd_type =? COMMAND_UPDATE_TAB_NAVIGATION then 20
  else if cmd_type =? COMMAND_SET_TAB_GROUP_METADATA2 then 24
  else if cmd_type =? COMMAND_SET_TAB_GROUP then 24
  else if (cmd_type =? COMMAND_WINDOW_CLOSED)
          || (cmd_type =? COMMAND_TAB_CLOSED)
          || (cmd_type =? COMMAND_SET_ACTIVE_WINDOW) then 4
  else 8.

(** A reader whose outcome does not change when bytes are added at the
    end of the buffer. *)
Definition stable {A : Type} (m : reader A) : Prop :=
  forall buf a rest extra,
    m buf = Ok (a, rest) -> m (buf ++ extra) = Ok (a, rest ++ extra).

(** The deleted flag of the window of a key; a key without a window
    stands for a window that is yet to be made, which is not deleted. *)
Definition window_deleted_in (ws : Dict.t (K := Z) (V := Window)) (k : Z)
  : bool :=
  match Dict.get Z.eqb k ws with
  | Some w => win_deleted w
  | None => false
  end.

(** The tabs that a user still has open: not closed, in a window that is
    not closed. *)
Definition open_tabs (st : store) : list Tab :=
  filter (fun t => negb (tab_deleted t)
                   && negb (window_deleted_in (windows st) (tab_win t)))
         (Dict.values (tabs st)).

(** The active window, when there is one, is a window of the table. *)
Definition active_ok (st : store) : Prop :=
  forall id, active_window st = Some id -> In id (Dict.keys (windows st)).

(** ** [find_session]: the newest session file under a directory *)

Module Discovery.
Section FindSession.
(** What the search asks of the operating system.  A time stamp is used
    in comparisons with [>] only, so its type is left open, with the
    stamp 0 that the search starts from; [os.stat] can raise OSError, which
    is [None] here. *)
Variable mtime : Type.
Variable zero : mtime.
Variable gt : mtime -> mtime -> bool.
Variable stat_mtime : string -> option mtime.

Fixpoint ends_with_slash (s : string) : bool :=
  match s with
  | EmptyString => false
  | String c EmptyString => Ascii.eqb c "/"
  | String _ r => ends_with_slash r
  end.

(** [os.path.join(root, file)] *)
Definition join (root file : string) : string :=
  if String.prefix "/" file then file
  else if String.eqb root "" || ends_with_slash root then (root ++ file)%string
  else (root ++ "/" ++ file)%string.

(** [candidate_file] and [latest_mtime]. *)
Definition search : Type := (string * mtime)%type.

(** [for file in files], for one directory of the walk. *)
Fixpoint files_loop (root : string) (files : list string) (s : search)
  : option search :=
  match files with
  | [] => Some s
  | file :: files =>
    if String.prefix "Session_" file then
      let full_path := join root file in
      match stat_mtime full_path with
      | None => None
      | Some m =>
        files_loop root files (if gt m (snd s) then (full_path, m) else s)
      end
    else files_loop root files s
  end.

(** [for root, _, files in os.walk(path)], on the directories that the
    walk yields, each with its file names. *)
Fixpoint walk_loop (walk : list (string * list string)) (s : search)
  : option search :=
  match walk with
  | [] => Some s
  | (root, files) :: walk =>
    match files_loop root files s with
    | None => None
    | Some s => walk_loop walk s
    end
  end.

Definition find_session (walk : list (string * list string)) : string :=
  match walk_loop walk (EmptyString, zero) with
  | Some (candidate_file, _) => candidate_file
  | None => EmptyString   (* except OSError: return "" *)
  end.

(** The full paths of the files of a directory, and of a walk, whose name
    starts with "Session_", in the order of the search. *)
Definition session_files (root : string) (files : list string) : list string :=
  map (join root) (filter (String.prefix "Session_") files).

Definition candidates (walk : list (string * list string)) : list string :=
  flat_map (fun rf => session_files (fst rf) (snd rf)) walk.

(** The state of the search after the files [seen]. *)
Definition newest_of (seen : list string) (s : search) : Prop :=
  (forall p m, In p seen -> stat_mtime p = Some m -> gt m (snd s) = false)
  /\ ((fst s = EmptyString /\ snd s = zero)
      \/ (In (fst s) seen /\ stat_mtime (fst s) = Some (snd s)
          /\ gt (snd s) zero = true)).
End FindSession.
End Discovery.

(** A directory tree of the examples: time stamps are integers. *)
Definition example_walk : list (string * list string) :=
  [ ("/p"%string, ["Session_1"; "Tabs_1"; "Session_2"]%string);
    ("/p/Default"%string, ["Session_3"]%string) ].

Definition example_stat (path : string) : option Z :=
  if String.eqb path "/p/Session_1" then Some 10
  else if String.eqb path "/p/Session_2" then Some 30
  else if String.eqb path "/p/Default/Session_3" then Some 20
  else None.

(** ** Vocabulary of the history of a materialized tab *)

(** The tabs of the tab table that name the window [k], in the order of
    the tab list of that window in the Result: the stable sort by position
    of the tabs in table order. *)
Definition tabs_of_window (st : store) (k : Z) : list Tab :=
  sort_by tab_idx (filter (fun t => tab_win t =? k) (Dict.values (tabs st))).

(** The history part of a ResultTab [rt], in terms of the tab [t] of the
    replayed tab table that it is made from.  The history of [t] stands in
    the table in the order in which the log made its items; the emitted
    history follows its rearrangement in strictly ascending order of idx,
    up to and including the item whose idx is the current one, of which
    [rt] has url and title; without such an item all of it is emitted, and
    url and title are empty. *)
Definition emitted_from (t : Tab) (rt : ResultTab) : Prop :=
  Permutation (sort_by hist_idx (tab_history t)) (tab_history t)
  /\ StronglySorted Z.lt (map hist_idx (sort_by hist_idx (tab_history t)))
  /\ (forall pre e post,
         sort_by hist_idx (tab_history t) = pre ++ e :: post ->
         hist_idx e = tab_current_history_idx t ->
         rt_history rt = map result_item (pre ++ [e])
         /\ rt_url rt = hist_url e /\ rt_title rt = hist_title e)
  /\ ((forall e, In e (tab_history t) ->
                 hist_idx e <> tab_current_history_idx t) ->
      rt_history rt = map result_item (sort_by hist_idx (tab_history t))
      /\ rt_url rt = [] /\ rt_title rt = []).

(** An UpdateTabNavigation record with a url and a title of one letter. *)
Definition navigation (tab idx : Z) (url title : byte) : byte * list byte :=
  (x06, u32 0 ++ u32 tab ++ u32 idx
        ++ u32 1 ++ [url; x00; x00; x00]
        ++ u32 1 ++ [title; x00; x00; x00]).

(** Tab 42 of window 1 visits "c" at idx 2, then "a" at idx 0, then "b" at
    idx 1, and its current idx is set to 1; tab 43 of window 1, at
    position 1, visits "d" at idx 5 and keeps the current idx 0. *)
Definition history_log : list byte :=
  header 1 ++ encode_records
    [ (x00, u32 1 ++ u32 42);
      navigation 42 2 x63 x43; navigation 42 0 x61 x41;
      navigation 42 1 x62 x42;
      (x07, u32 42 ++ u32 1);
      (x00, u32 1 ++ u32 43); (x02, u32 43 ++ u32 1);
      navigation 43 5 x64 x44 ].

Definition history_result : Result :=
  mkResult
    [ mkResultWindow
        [ mkResultTab true
            [ mkResultHistoryItem (text "a") (text "A");
              mkResultHistoryItem (text "b") (text "B") ]
            (text "b") (text "B") false [];
          mkResultTab false
            [ mkResultHistoryItem (text "d") (text "D") ]
            [] [] false [] ]
        false false ].

(** * Properties *)

(** ** Bytes and little-endian integers *)

Lemma byte_val_range (b : byte) : 0 <= byte_val b < 256.
Proof.
  unfold byte_val. pose proof (Byte.to_N_bounded b). lia.
Qed.

Lemma byte_val_byte_of (z : Z) : byte_val (byte_of z) = z mod 256.
Proof.
  unfold byte_val, byte_of.
  pose proof (Z.mod_pos_bound z 256 ltac:(lia)) as Hm.
  destruct (Byte.of_N (Z.to_N (z mod 256))) as [b|] eqn:E.
  - apply Byte.to_of_N in E. rewrite E. lia.
  - apply Byte.of_N_None_iff in E. lia.
Qed.

Lemma le_bytes_length (w : nat) (z : Z) : List.length (le_bytes w z) = w.
Proof.
  revert z. induction w as [|w IH]; intros z; simpl; [reflexivity|].
  now rewrite IH.
Qed.

Lemma le_value_le_bytes (w : nat) (z : Z) :
  0 <= z < 256 ^ Z.of_nat w -> le_value (le_bytes w z) = z.
Proof.
  revert z. induction w as [|w IH]; intros z Hz.
  - simpl in *. lia.
  - cbn [le_bytes le_value]. rewrite byte_val_byte_of.
    rewrite Nat2Z.inj_succ, Z.pow_succ_r in Hz by lia.
    rewrite IH.
    + pose proof (Z.div_mod z 256 ltac:(lia)). lia.
    + split.
      * apply Z.div_pos; lia.
      * apply Z.div_lt_upper_bound; lia.
Qed.

(** ** The frame splitter *)

Lemma read_app (n : nat) (a b : list byte) :
  List.length a = n -> read (Z.of_nat n) (a ++ b) = Ok (a, b).
Proof.
  intros H. unfold read.
  destruct (Z.of_nat n <? 0) eqn:E; [apply Z.ltb_lt in E; lia|].
  rewrite Nat2Z.id, <- H.
  rewrite firstn_app, skipn_app, firstn_all, skipn_all, Nat.sub_diag.
  simpl. now rewrite app_nil_r.
Qed.

Lemma read_uint_app (w : nat) (a b : list byte) :
  List.length a = w -> read_uint w (a ++ b) = Ok (le_value a, b).
Proof.
  intros H. unfold read_uint, bind. rewrite (read_app w a b H).
  unfold unpack. now rewrite H, Nat.eqb_refl.
Qed.

(** A record written in full is split off with its payload, and the
    stream is left at the record that follows. *)
Lemma next_frame_record (c : byte) (payload tail : list byte) :
  record_fits (c, payload) ->
  next_frame (encode_record c payload ++ tail)
  = Ok (Command (byte_val c) payload tail).
Proof.
  unfold record_fits, encode_record, next_frame. simpl snd. intros Hfit.
  set (n := 1 + Z.of_nat (List.length payload)).
  rewrite <- app_assoc.
  change 2 with (Z.of_nat 2).
  rewrite (read_app 2 (le_bytes 2 n)) by apply le_bytes_length.
  rewrite le_bytes_length. change (Nat.ltb 2 2) with false. cbv iota.
  unfold payload_size. rewrite le_value_le_bytes by (simpl; lia).
  unfold bind, read_uint8.
  change ((c :: payload) ++ tail) with ([c] ++ payload ++ tail).
  rewrite (read_uint_app 1 [c]) by reflexivity.
  replace (n - 1) with (Z.of_nat (List.length payload)) by lia.
  rewrite read_app by reflexivity.
  unfold ret. simpl. f_equal. f_equal. pose proof (byte_val_range c). lia.
Qed.

(** A frame that is split off takes at least its size field and its type
    byte from the stream. *)
Lemma next_frame_shrinks (fh fh' data : list byte) (c : Z) :
  next_frame fh = Ok (Command c data fh') ->
  (List.length fh' + 3 <= List.length fh)%nat.
Proof.
  unfold next_frame, read. simpl.
  destruct fh as [|b0 [|b1 r]]; simpl; try discriminate.
  unfold bind, read_uint8, read_uint, read, unpack. simpl.
  destruct r as [|c0 r]; simpl; [discriminate|].
  destruct (payload_size [b0; b1] <? 0); unfold ret; intros H; inversion H; subst.
  - simpl. lia.
  - rewrite length_skipn. simpl. lia.
Qed.

Lemma command_loop_fuel (n m : nat) :
  forall fh st,
    (List.length fh < n)%nat -> (List.length fh < m)%nat ->
    command_loop n fh st = command_loop m fh st.
Proof.
  revert m. induction n as [|n IH]; intros m fh st Hn Hm; [lia|].
  destruct m as [|m]; [lia|]. simpl.
  destruct (next_frame fh) as [[|c data fh']|e] eqn:E; try reflexivity.
  destruct (dispatch c data st) as [st'|e]; [|reflexivity].
  apply next_frame_shrinks in E. apply IH; lia.
Qed.

(** The loop as the source reads: a turn, then the loop again on what is
    left.  The fuel of [run_commands] is never used up. *)
Lemma run_commands_unfold (fh : list byte) (st : store) :
  run_commands fh st =
  match next_frame fh with
  | Raise e => Raise e
  | Ok EndOfLog => Ok st
  | Ok (Command cmd_type data fh') =>
    match dispatch cmd_type data st with
    | Raise e => Raise e
    | Ok st' => run_commands fh' st'
    end
  end.
Proof.
  unfold run_commands at 1. simpl.
  destruct (next_frame fh) as [[|c data fh']|e] eqn:E; try reflexivity.
  destruct (dispatch c data st) as [st'|e]; [|reflexivity].
  apply next_frame_shrinks in E. apply command_loop_fuel; lia.
Qed.

Lemma encode_records_cons (c : byte) (p : list byte) rs :
  encode_records ((c, p) :: rs) = encode_record c p ++ encode_records rs.
Proof. reflexivity. Qed.

Lemma run_commands_records (rs : list (byte * list byte)) :
  forall tail st,
    Forall record_fits rs ->
    run_commands (encode_records rs ++ tail) st =
    match apply_records rs st with
    | Raise e => Raise e
    | Ok st' => run_commands tail st'
    end.
Proof.
  induction rs as [|[c p] rs IH]; intros tail st Hfit; [reflexivity|].
  inversion Hfit as [|? ? Hr Hrs]; subst.
  rewrite encode_records_cons, <- app_assoc.
  rewrite run_commands_unfold, next_frame_record by exact Hr.
  cbn [apply_records fst snd].
  destruct (dispatch (byte_val c) p st) as [st'|e]; [|reflexivity].
  now apply IH.
Qed.

Lemma replay_header (version : Z) (body : list byte) :
  version = 1 \/ version = 3 ->
  replay (header version ++ body) = run_commands body empty_store.
Proof.
  intros Hv. unfold replay, header. rewrite <- app_assoc.
  change 4 with (Z.of_nat 4) at 1.
  rewrite (read_app 4 SNSS) by reflexivity.
  destruct (list_eq_dec Byte.byte_eq_dec SNSS SNSS) as [_|N]; [|now elim N].
  unfold read_uint32. rewrite read_uint_app by apply le_bytes_length.
  rewrite le_value_le_bytes by (destruct Hv; subst; simpl; lia).
  destruct Hv; subst; reflexivity.
Qed.

Lemma replay_records (version : Z) (rs : list (byte * list byte))
  (tail : list byte) :
  version = 1 \/ version = 3 ->
  Forall record_fits rs ->
  replay (header version ++ encode_records rs ++ tail) =
  match apply_records rs empty_store with
  | Raise e => Raise e
  | Ok st => run_commands tail st
  end.
Proof.
  intros Hv Hfit. rewrite replay_header by exact Hv.
  now apply run_commands_records.
Qed.

Lemma dispatch_unhandled (c : Z) (data : list byte) (st : store) :
  handled c = false -> dispatch c data st = Ok st.
Proof.
  unfold handled, handled_opcodes, dispatch. simpl.
  intros H. repeat (apply orb_false_elim in H; destruct H as [-> H]).
  reflexivity.
Qed.

Ltac fits :=
  repeat (apply Forall_cons; [unfold record_fits; simpl; lia|]);
  try apply Forall_nil; try (unfold record_fits; simpl; lia).

(** The try block on a stream that still holds a size field and a type
    byte: the payload is whatever [read] gives for the declared length. *)
Lemma next_frame_eq (size_field : list byte) (c : byte) (rest : list byte) :
  List.length size_field = 2%nat ->
  next_frame (size_field ++ c :: rest) =
  match read (payload_size size_field) rest with
  | Ok (data, fh) => Ok (Command (byte_val c) data fh)
  | Raise e => Raise e
  end.
Proof.
  intros H2. unfold next_frame.
  change 2 with (Z.of_nat 2). rewrite (read_app 2 size_field) by exact H2.
  rewrite H2. change (Nat.ltb 2 2) with false. cbv iota.
  unfold bind, read_uint8.
  change (c :: rest) with ([c] ++ rest).
  rewrite (read_uint_app 1 [c]) by reflexivity.
  replace (le_value [c]) with (byte_val c) by (simpl; lia).
  destruct (read (payload_size size_field) rest) as [[data fh]|e]; reflexivity.
Qed.

Lemma read_short (n : Z) (s : list byte) :
  Z.of_nat (List.length s) <= n \/ n < 0 -> read n s = Ok (s, []).
Proof.
  intros H. unfold read. destruct (n <? 0) eqn:E; [reflexivity|].
  apply Z.ltb_ge in E.
  rewrite firstn_all2, skipn_all2 by lia. reflexivity.
Qed.

Lemma next_frame_cut (cut : list byte) :
  (List.length cut < 2)%nat -> next_frame cut = Ok EndOfLog.
Proof.
  intros H. destruct cut as [|b0 [|b1 r]]; try reflexivity. simpl in H. lia.
Qed.

Lemma run_commands_cut (cut : list byte) (st : store) :
  (List.length cut < 2)%nat -> run_commands cut st = Ok st.
Proof.
  intros H. rewrite run_commands_unfold, next_frame_cut by exact H.
  reflexivity.
Qed.

(** A record whose payload takes all that is left of the stream is the
    last turn of the loop. *)
Lemma run_commands_last (size_field : list byte) (c : byte)
  (rest : list byte) (st : store) :
  List.length size_field = 2%nat ->
  Z.of_nat (List.length rest) <= payload_size size_field
  \/ payload_size size_field < 0 ->
  run_commands (size_field ++ c :: rest) st = dispatch (byte_val c) rest st.
Proof.
  intros H2 Hlen.
  rewrite run_commands_unfold, next_frame_eq, read_short by assumption.
  destruct (dispatch (byte_val c) rest st) as [st'|e]; [|reflexivity].
  apply run_commands_cut. simpl. lia.
Qed.

(** ** C9: records of unknown type *)

(** C9.  In a log with a valid header, a record written in full whose
    opcode has no handler (200, for one), with any payload, put at any
    record boundary after the header, leaves the outcome of [parse] as it
    is: a log that parses still parses, to the same Result. *)
Theorem unknown_opcode_tolerance
  (version : Z) (before : list (byte * list byte))
  (c : byte) (payload tail : list byte) (r : Result) :
  version = 1 \/ version = 3 ->
  Forall record_fits before ->
  record_fits (c, payload) ->
  handled (byte_val c) = false ->
  parse (header version ++ encode_records before ++ tail) = Ok r ->
  parse (header version ++ encode_records before
                        ++ encode_record c payload ++ tail) = Ok r.
Proof.
  intros Hv Hb Hc Hu Hp. rewrite <- Hp. unfold parse.
  rewrite !replay_records by assumption.
  destruct (apply_records before empty_store) as [st|e]; [|reflexivity].
  rewrite run_commands_unfold, next_frame_record by exact Hc.
  now rewrite dispatch_unhandled.
Qed.

Lemma unknown_opcode_tolerance_witness :
  (1 = 1 \/ 1 = 3)
  /\ handled (byte_val xc8) = false
  /\ parse (header 1 ++ encode_records [(x10, u32 42)]
                     ++ encode_record xc8 [x01; x02; x03]
                     ++ encode_records [(x08, u32 0 ++ u32 0)])
     = Ok (mkResult [mkResultWindow [mkResultTab true [] [] [] true []]
                                    false false]).
Proof.
  split; [now left|]. split; [reflexivity|].
  apply (unknown_opcode_tolerance 1 [(x10, u32 42)] xc8 [x01; x02; x03]
           (encode_records [(x08, u32 0 ++ u32 0)])).
  - now left.
  - fits.
  - fits.
  - reflexivity.
  - vm_compute. reflexivity.
Defined.

(** ** C10: a size field of zero *)

(** C10, as the claim states it, fails in its last part: after a size
    field of 0 the parse need not end as at a clean end of file.  The
    record of type 25 below takes the record that follows as its payload,
    seven bytes where its handler reads twenty-four, and [parse] raises
    struct.error. *)
Lemma zero_size_clean_eof_counterexample :
  ~ (forall (version : Z) (before : list (byte * list byte)) (c : byte)
            (rest : list byte) (st : store),
        version = 1 \/ version = 3 ->
        Forall record_fits before ->
        apply_records before empty_store = Ok st ->
        exists r,
          parse (header version ++ encode_records before
                                ++ x00 :: x00 :: c :: rest) = Ok r).
Proof.
  intros H.
  destruct (H 1 [(x10, u32 1)] x19 (encode_records [(x10, u32 9)])
              (store_of (header 1 ++ encode_records [(x10, u32 1)])))
    as [r Hr].
  - now left.
  - fits.
  - vm_compute. reflexivity.
  - vm_compute in Hr. discriminate Hr.
Qed.

(** C10, amended.  A size field of 0 gives the payload length -1.  When
    the type byte is there, the read takes the whole remainder of the file
    as the payload of that one record: the records that follow are part of
    that payload, none of them is dispatched, and the stream is left
    empty, where the next turn of the loop breaks.  The record itself is
    dispatched with the swallowed bytes, so [parse] ends as at a clean end
    of file, with the Result of the store that this dispatch leaves, when
    the handler of the record decodes its fields from them, which is
    always so for a type without a handler (the Result is then the one of
    the log up to the record); when the handler fails, [parse] fails with
    the exception of the handler.  When the file ends with the size field,
    reading the type byte raises struct.error. *)
Theorem zero_size_swallows_rest
  (version : Z) (before : list (byte * list byte))
  (c : byte) (rest : list byte) :
  version = 1 \/ version = 3 ->
  Forall record_fits before ->
  payload_size [x00; x00] = -1
  /\ next_frame (x00 :: x00 :: c :: rest) = Ok (Command (byte_val c) rest [])
  /\ next_frame [] = Ok EndOfLog
  /\ replay (header version ++ encode_records before
                            ++ x00 :: x00 :: c :: rest)
     = match apply_records before empty_store with
       | Raise e => Raise e
       | Ok st => dispatch (byte_val c) rest st
       end
  /\ parse (header version ++ encode_records before
                           ++ x00 :: x00 :: c :: rest)
     = match apply_records before empty_store with
       | Raise e => Raise e
       | Ok st =>
         match dispatch (byte_val c) rest st with
         | Raise e => Raise e
         | Ok st' => Ok (build_result (organize st'))
         end
       end
  /\ (handled (byte_val c) = false ->
      parse (header version ++ encode_records before
                            ++ x00 :: x00 :: c :: rest)
      = parse (header version ++ encode_records before))
  /\ parse (header version ++ encode_records before ++ [x00; x00])
     = match apply_records before empty_store with
       | Raise e => Raise e
       | Ok _ => Raise StructError
       end.
Proof.
  intros Hv Hb.
  assert (Hend : replay (header version ++ encode_records before)
                 = apply_records before empty_store).
  { rewrite <- (app_nil_r (encode_records before)).
    rewrite replay_records by assumption.
    destruct (apply_records before empty_store) as [st|e]; [|reflexivity].
    apply run_commands_cut. simpl. lia. }
  assert (Hrec : replay (header version ++ encode_records before
                                        ++ x00 :: x00 :: c :: rest)
                 = match apply_records before empty_store with
                   | Raise e => Raise e
                   | Ok st => dispatch (byte_val c) rest st
                   end).
  { rewrite replay_records by assumption.
    destruct (apply_records before empty_store) as [st|e]; [|reflexivity].
    change (x00 :: x00 :: c :: rest) with ([x00; x00] ++ c :: rest).
    apply run_commands_last; [reflexivity|right; reflexivity]. }
  split; [reflexivity|]. split.
  { change (x00 :: x00 :: c :: rest) with ([x00; x00] ++ c :: rest).
    rewrite next_frame_eq by reflexivity.
    now rewrite read_short by (right; reflexivity). }
  split; [reflexivity|]. split; [exact Hrec|]. split; [|split].
  - unfold parse. rewrite Hrec.
    destruct (apply_records before empty_store) as [st|e]; reflexivity.
  - intros Hu. unfold parse. rewrite Hrec, Hend.
    destruct (apply_records before empty_store) as [st|e]; [|reflexivity].
    now rewrite dispatch_unhandled.
  - unfold parse. rewrite replay_records by assumption.
    destruct (apply_records before empty_store) as [st|e]; reflexivity.
Qed.

Lemma zero_size_swallows_rest_witness :
  (3 = 1 \/ 3 = 3)
  /\ parse (header 3 ++ encode_records [(x10, u32 1)]
                     ++ x00 :: x00 :: x10
                        :: u32 7 ++ encode_records [(x10, u32 9)])
     = Ok (mkResult [mkResultWindow [mkResultTab true [] [] [] true [];
                                     mkResultTab true [] [] [] true []]
                                    false false])
  /\ parse (header 3 ++ encode_records [(x10, u32 1)]
                     ++ x00 :: x00 :: x19 :: encode_records [(x10, u32 9)])
     = Raise StructError.
Proof.
  split; [now right|]. split.
  - destruct (zero_size_swallows_rest 3 [(x10, u32 1)] x10
                (u32 7 ++ encode_records [(x10, u32 9)]))
      as [_ [_ [_ [_ [H _]]]]]; [now right|fits|].
    rewrite H. vm_compute. reflexivity.
  - destruct (zero_size_swallows_rest 3 [(x10, u32 1)] x19
                (encode_records [(x10, u32 9)]))
      as [_ [_ [_ [_ [H _]]]]]; [now right|fits|].
    rewrite H. vm_compute. reflexivity.
Defined.

(** ** C3: payloads cut short *)

(** C3, as the claim states it, fails: a record that declares nine bytes
    of payload where three are left does not make [parse] fail. *)
Lemma truncated_payload_counterexample :
  ~ (forall (version : Z) (before : list (byte * list byte))
            (size_field : list byte) (c : byte) (rest : list byte),
        version = 1 \/ version = 3 ->
        Forall record_fits before ->
        List.length size_field = 2%nat ->
        Z.of_nat (List.length rest) < payload_size size_field ->
        exists e,
          parse (header version ++ encode_records before
                                ++ size_field ++ c :: rest) = Raise e).
Proof.
  intros H.
  destruct (H 1 [] [x0a; x00] xc8 [x01; x02; x03]) as [e He].
  - now left.
  - constructor.
  - reflexivity.
  - vm_compute. reflexivity.
  - vm_compute in He. discriminate He.
Qed.

(** C3, amended.  With a valid header, take a record whose size field is
    there in full and declares more than the bytes [after] that are left
    of the file behind it (the type byte and the payload).  When even the
    type byte is missing, reading it raises struct.error and [parse]
    fails.  When the type byte is there, no framing error is raised: the
    record is dispatched with the bytes that are left as its payload and
    the loop then ends, so [parse] fails only when the handler of that
    record fails, with the exception of the handler, and gives the Result
    of the store the dispatch leaves otherwise; with a type that has no
    handler this is the Result of the log up to that record.  A size field
    cut short at the end of the file (fewer than two bytes) ends the parse
    with the Result built so far. *)
Theorem truncated_payload_is_dispatched
  (version : Z) (before : list (byte * list byte))
  (size_field after : list byte) :
  version = 1 \/ version = 3 ->
  Forall record_fits before ->
  List.length size_field = 2%nat ->
  Z.of_nat (List.length after) - 1 < payload_size size_field ->
  replay (header version ++ encode_records before ++ size_field ++ after)
  = match apply_records before empty_store with
    | Raise e => Raise e
    | Ok st =>
      match after with
      | [] => Raise StructError
      | c :: rest => dispatch (byte_val c) rest st
      end
    end
  /\ parse (header version ++ encode_records before ++ size_field ++ after)
     = match apply_records before empty_store with
       | Raise e => Raise e
       | Ok st =>
         match after with
         | [] => Raise StructError
         | c :: rest =>
           match dispatch (byte_val c) rest st with
           | Raise e => Raise e
           | Ok st' => Ok (build_result (organize st'))
           end
         end
       end
  /\ (forall (c : byte) (rest : list byte),
        after = c :: rest ->
        handled (byte_val c) = false ->
        parse (header version ++ encode_records before ++ size_field ++ after)
        = parse (header version ++ encode_records before))
  /\ (forall cut : list byte,
        (List.length cut < 2)%nat ->
        parse (header version ++ encode_records before ++ cut)
        = parse (header version ++ encode_records before)).
Proof.
  intros Hv Hb H2 Hlen.
  assert (Hend : replay (header version ++ encode_records before)
                 = apply_records before empty_store).
  { rewrite <- (app_nil_r (encode_records before)).
    rewrite replay_records by assumption.
    destruct (apply_records before empty_store) as [st|e]; [|reflexivity].
    apply run_commands_cut. simpl. lia. }
  assert (Hrec : replay (header version ++ encode_records before
                                        ++ size_field ++ after)
                 = match apply_records before empty_store with
                   | Raise e => Raise e
                   | Ok st =>
                     match after with
                     | [] => Raise StructError
                     | c :: rest => dispatch (byte_val c) rest st
                     end
                   end).
  { rewrite replay_records by assumption.
    destruct (apply_records before empty_store) as [st|e]; [|reflexivity].
    destruct after as [|c rest].
    - rewrite app_nil_r, run_commands_unfold.
      destruct size_field as [|b0 [|b1 [|b2 s]]]; try discriminate H2.
      reflexivity.
    - apply run_commands_last; [exact H2|left].
      cbn [List.length] in Hlen. rewrite Nat2Z.inj_succ in Hlen. lia. }
  split; [exact Hrec|]. split; [|split].
  - unfold parse. rewrite Hrec.
    destruct (apply_records before empty_store) as [st|e]; [|reflexivity].
    destruct after as [|c rest]; reflexivity.
  - intros c rest -> Hu. unfold parse. rewrite Hrec, Hend.
    destruct (apply_records before empty_store) as [st|e]; [|reflexivity].
    now rewrite dispatch_unhandled.
  - intros cut Hcut. unfold parse. rewrite Hend.
    rewrite replay_records by assumption.
    destruct (apply_records before empty_store) as [st|e]; [|reflexivity].
    now rewrite run_commands_cut.
Qed.

Lemma truncated_payload_is_dispatched_witness :
  (1 = 1 \/ 1 = 3)
  /\ 3 - 1 < payload_size [x0a; x00]
  /\ parse (header 1 ++ encode_records [(x10, u32 5)]
                     ++ [x0a; x00] ++ [xc8; x01; x02])
     = Ok (mkResult [mkResultWindow [mkResultTab true [] [] [] true []]
                                    false false])
  /\ parse (header 1 ++ encode_records [(x10, u32 5)]
                     ++ [x0a; x00] ++ [x10; x01; x02])
     = Raise StructError
  /\ parse (header 1 ++ encode_records [(x10, u32 5)] ++ [x0a; x00] ++ [])
     = Raise StructError.
Proof.
  split; [now left|]. split; [vm_compute; reflexivity|]. split; [|split].
  - destruct (truncated_payload_is_dispatched 1 [(x10, u32 5)] [x0a; x00]
                [xc8; x01; x02]) as [_ [H _]];
      [now left|fits|reflexivity|vm_compute; reflexivity|].
    rewrite H. vm_compute. reflexivity.
  - destruct (truncated_payload_is_dispatched 1 [(x10, u32 5)] [x0a; x00]
                [x10; x01; x02]) as [_ [H _]];
      [now left|fits|reflexivity|vm_compute; reflexivity|].
    rewrite H. vm_compute. reflexivity.
  - destruct (truncated_payload_is_dispatched 1 [(x10, u32 5)] [x0a; x00] [])
      as [_ [H _]];
      [now left|fits|reflexivity|vm_compute; reflexivity|].
    rewrite H. vm_compute. reflexivity.
Defined.

(** ** C6: [read_string] on a short buffer *)

(** [read_string] never compares the length of what it read with the
    length it asked for: on a buffer that holds the size but fewer bytes
    than the aligned size, it returns the text of the bytes that are
    there. *)
Lemma read_string_no_length_check (size : Z) (data : list byte) (s : str) :
  0 <= size < 2 ^ 32 ->
  Z.of_nat (List.length data) < align4 size ->
  decode_utf8 (firstn (Z.to_nat size) data) = Some s ->
  read_string (u32 size ++ data) = Ok (s, []).
Proof.
  intros Hs Hshort Hdec. unfold read_string, bind, read_uint32, u32.
  rewrite read_uint_app by apply le_bytes_length.
  rewrite le_value_le_bytes by (simpl; lia).
  rewrite read_short by (left; lia).
  now rewrite Hdec.
Qed.

(** C6.  The buffer holds the size 8 and then two bytes where eight are
    required: [read_string] returns "ab" and does not fail, while
    [read_string16] on the same buffer raises. *)
Theorem read_string_short_buffer :
  read_string (u32 8 ++ ascii_bytes "ab") = Ok (text "ab", [])
  /\ read_string16 (u32 8 ++ ascii_bytes "ab") = Raise ReadStringFailure.
Proof.
  split; vm_compute; reflexivity.
Qed.

(** ** C8: the tab count *)

Lemma count_tabs_spec (ts : list ResultTab) (total : Z) :
  count_tabs ts total
  = total + Z.of_nat (List.length (filter (fun t => negb (rt_deleted t)) ts)).
Proof.
  revert total. induction ts as [|t ts IH]; intros total; simpl; [lia|].
  rewrite IH. destruct (rt_deleted t); simpl; lia.
Qed.

Lemma count_windows_spec (ws : list ResultWindow) (total : Z) :
  count_windows ws total
  = total + fold_right Z.add 0
              (map live_tabs (filter (fun w => negb (rw_deleted w)) ws)).
Proof.
  revert total. induction ws as [|w ws IH]; intros total; simpl; [lia|].
  rewrite IH. destruct (rw_deleted w); simpl; [lia|].
  rewrite count_tabs_spec. unfold live_tabs. lia.
Qed.

(** C8.  The count that [Chrome.get_tab_count] returns is the sum, over
    the windows of the Result that are not deleted, of the number of their
    tabs that are not deleted; and it is 0 whenever the discovery of the
    session file or the parse raises. *)
Theorem tab_count_contract (fs : filesystem) :
  (forall data, read_session fs = Ok data -> get_tab_count fs = live_total data)
  /\ (forall e, get_chrome_session_file fs = Raise e -> get_tab_count fs = 0)
  /\ (forall path e,
         get_chrome_session_file fs = Ok path ->
         parse_path fs path = Raise e ->
         get_tab_count fs = 0).
Proof.
  unfold get_tab_count. repeat split.
  - intros data H. rewrite H, count_windows_spec. unfold live_total. lia.
  - intros e H. unfold read_session. now rewrite H.
  - intros path e H1 H2. unfold read_session. now rewrite H1, H2.
Qed.

Lemma tab_count_contract_witness :
  get_tab_count (fs_session S3_log) = 2
  /\ get_tab_count fs_no_session = 0
  /\ get_tab_count (fs_session [x58; x58; x58; x58]) = 0.
Proof.
  split; [|split].
  - destruct (tab_count_contract (fs_session S3_log)) as [H _].
    destruct (read_session (fs_session S3_log)) as [data|e] eqn:E.
    + rewrite (H data eq_refl). vm_compute in E.
      injection E as <-. reflexivity.
    + vm_compute in E. discriminate E.
  - destruct (tab_count_contract fs_no_session) as [_ [H _]].
    apply (H RuntimeError). reflexivity.
  - destruct (tab_count_contract (fs_session [x58; x58; x58; x58]))
      as [_ [_ H]].
    apply (H "$HOME/.config/chromium"%string ValueError); reflexivity.
Defined.

(** ** Dictionaries *)

Section DictFacts.
Context {K V : Type}.
Variable eqb : K -> K -> bool.
Hypothesis eqb_spec : forall a b, eqb a b = true <-> a = b.

Lemma dict_get_None (k : K) (d : Dict.t (V := V)) :
  Dict.get eqb k d = None <-> ~ In k (Dict.keys d).
Proof.
  induction d as [|[k' v] d IH]; simpl.
  - tauto.
  - destruct (eqb k' k) eqn:E.
    + apply eqb_spec in E. split; [discriminate|]. intros H. elim H. now left.
    + assert (k' <> k) by (intros Heq; apply eqb_spec in Heq; congruence).
      rewrite IH. tauto.
Qed.

Lemma dict_mem_false (k : K) (d : Dict.t (V := V)) :
  Dict.mem eqb k d = false <-> ~ In k (Dict.keys d).
Proof.
  rewrite <- dict_get_None. unfold Dict.mem.
  destruct (Dict.get eqb k d); split; congruence.
Qed.

Lemma dict_keys_update (k : K) (f : V -> V) (d : Dict.t) :
  Dict.keys (Dict.update eqb k f d) = Dict.keys d.
Proof.
  induction d as [|[k' v] d IH]; simpl; [reflexivity|].
  destruct (eqb k' k); simpl; [reflexivity|]. now rewrite IH.
Qed.

Lemma dict_keys_setdefault (k : K) (v : V) (d : Dict.t) :
  Dict.keys (Dict.setdefault eqb k v d)
  = if Dict.mem eqb k d then Dict.keys d else Dict.keys d ++ [k].
Proof.
  unfold Dict.setdefault, Dict.keys. destruct (Dict.mem eqb k d); [reflexivity|].
  now rewrite map_app.
Qed.

Lemma dict_setdefault_NoDup (k : K) (v : V) (d : Dict.t) :
  NoDup (Dict.keys d) -> NoDup (Dict.keys (Dict.setdefault eqb k v d)).
Proof.
  intros H. rewrite dict_keys_setdefault.
  destruct (Dict.mem eqb k d) eqn:E; [exact H|].
  apply dict_mem_false in E.
  apply NoDup_app; [exact H | repeat constructor; now simpl |].
  intros x Hx [<-|[]]. contradiction.
Qed.

Lemma dict_mem_true (k : K) (d : Dict.t (V := V)) :
  Dict.mem eqb k d = true <-> In k (Dict.keys d).
Proof.
  unfold Dict.mem. induction d as [|[k' v] d IH]; simpl.
  - split; [discriminate|tauto].
  - destruct (eqb k' k) eqn:E.
    + apply eqb_spec in E. tauto.
    + assert (k' <> k) by (intros Heq; apply eqb_spec in Heq; congruence).
      rewrite IH. tauto.
Qed.

Lemma dict_setdefault_key (k : K) (v : V) (d : Dict.t) :
  In k (Dict.keys (Dict.setdefault eqb k v d)).
Proof.
  rewrite dict_keys_setdefault. destruct (Dict.mem eqb k d) eqn:E.
  - now apply dict_mem_true.
  - apply in_or_app. right. now left.
Qed.

Lemma dict_setdefault_keeps (k k' : K) (v : V) (d : Dict.t) :
  In k' (Dict.keys d) -> In k' (Dict.keys (Dict.setdefault eqb k v d)).
Proof.
  intros H. rewrite dict_keys_setdefault.
  destruct (Dict.mem eqb k d); [exact H|]. apply in_or_app. now left.
Qed.

Lemma dict_setdefault_Forall (P : K * V -> Prop) (k : K) (v : V) (d : Dict.t) :
  Forall P d -> P (k, v) -> Forall P (Dict.setdefault eqb k v d).
Proof.
  intros Hd Hv. unfold Dict.setdefault.
  destruct (Dict.mem eqb k d); [exact Hd|].
  apply Forall_app. split; [exact Hd|]. now constructor.
Qed.

(** A mutation under [k] reaches the one entry of key [k]: when the keys
    are distinct, every other entry has another key. *)
Lemma dict_update_Forall (P Q : K * V -> Prop) (k : K) (f : V -> V)
  (d : Dict.t) :
  NoDup (Dict.keys d) ->
  Forall P d ->
  (forall v, P (k, v) -> Q (k, f v)) ->
  (forall e, fst e <> k -> P e -> Q e) ->
  Forall Q (Dict.update eqb k f d).
Proof.
  intros Hnd Hd Hk Hother.
  induction d as [|[k' v] d IH]; simpl; [constructor|].
  inversion Hnd as [|? ? Hnotin Hnd']; subst.
  inversion Hd as [|? ? Hp Hd']; subst.
  destruct (eqb k' k) eqn:E.
  - apply eqb_spec in E. subst k'. constructor; [now apply Hk|].
    rewrite Forall_forall in *. intros e He. apply Hother; [|now apply Hd'].
    intros Heq. apply Hnotin. rewrite <- Heq. now apply in_map.
  - constructor; [|now apply IH].
    apply Hother; [|exact Hp]. simpl. intros Heq. apply eqb_spec in Heq.
    congruence.
Qed.

Lemma dict_get_setdefault (k : K) (v : V) (d : Dict.t) :
  exists v', Dict.get eqb k (Dict.setdefault eqb k v d) = Some v'.
Proof.
  destruct (Dict.get eqb k (Dict.setdefault eqb k v d)) as [v'|] eqn:E.
  - now exists v'.
  - apply dict_get_None in E. elim E. apply dict_setdefault_key.
Qed.

Lemma dict_setdefault_again (k : K) (v v' : V) (d : Dict.t) :
  Dict.setdefault eqb k v' (Dict.setdefault eqb k v d)
  = Dict.setdefault eqb k v d.
Proof.
  unfold Dict.setdefault at 1.
  destruct (Dict.mem eqb k (Dict.setdefault eqb k v d)) eqn:E; [reflexivity|].
  apply dict_mem_false in E. elim E. apply dict_setdefault_key.
Qed.
End DictFacts.

Lemma Z_eqb_spec (a b : Z) : Z.eqb a b = true <-> a = b.
Proof. apply Z.eqb_eq. Qed.

Lemma string_eqb_spec (a b : string) : String.eqb a b = true <-> a = b.
Proof. apply String.eqb_eq. Qed.

(** ** C4: the key of a group *)

(** Two references with the same (high, low) reach the same entity: the
    second one finds the entity of the first and creates nothing. *)
Lemma get_group_same_entity (high low : Z) (st : store) :
  get_group high low (get_group high low st) = get_group high low st
  /\ exists g,
       Dict.get String.eqb (group_key high low)
                (groups (get_group high low st)) = Some g.
Proof.
  split.
  - unfold get_group, set_groups. simpl.
    now rewrite (dict_setdefault_again String.eqb string_eqb_spec).
  - apply (dict_get_setdefault String.eqb string_eqb_spec).
Qed.

(** C4.  The pairs (0x1, 0x23) and (0x12, 0x3) differ and have the same
    key "123": the reference to the second pair reaches the Group made for
    the first, and a name given to group (0x12, 0x3) shows on a tab bound
    to group (0x1, 0x23). *)
Theorem group_key_collision :
  (1, 35) <> (18, 3)
  /\ group_key 1 35 = group_key 18 3
  /\ groups (get_group 18 3 (get_group 1 35 empty_store))
     = [("123"%string, new_Group 1 35)]
  /\ parse colliding_groups_log
     = Ok (mkResult [mkResultWindow
                       [mkResultTab true [] [] [] false (text "X")]
                       false false]).
Proof.
  split; [discriminate|]. repeat split; vm_compute; reflexivity.
Qed.

(** ** The stable sort *)

Section SortFacts.
Context {A : Type}.
Variable key : A -> Z.


Lemma insert_by_perm (x : A) (l : list A) :
  Permutation (insert_by key x l) (x :: l).
Proof.
  induction l as [|y l IH]; simpl; [reflexivity|].
  destruct (key x <=? key y); [reflexivity|].
  rewrite IH. apply perm_swap.
Qed.

Lemma sort_by_perm (l : list A) : Permutation (sort_by key l) l.
Proof.
  induction l as [|x l IH]; simpl; [reflexivity|].
  rewrite insert_by_perm. now constructor.
Qed.

Lemma insert_by_sorted (x : A) (l : list A) :
  StronglySorted (fun a b => key a <= key b) l -> StronglySorted (fun a b => key a <= key b) (insert_by key x l).
Proof.
  induction 1 as [|y l Hs IH Hy]; simpl.
  - repeat constructor.
  - destruct (key x <=? key y) eqn:E.
    + apply Z.leb_le in E. constructor; [now constructor|].
      constructor; [exact E|].
      rewrite Forall_forall in *. intros z Hz.
      specialize (Hy z Hz). simpl in Hy. lia.
    + apply Z.leb_gt in E. constructor; [exact IH|].
      refine (Permutation_Forall _ _).
      * symmetry. apply insert_by_perm.
      * constructor; [lia | exact Hy].
Qed.

Lemma sort_by_sorted (l : list A) : StronglySorted (fun a b => key a <= key b) (sort_by key l).
Proof.
  induction l as [|x l IH]; simpl; [constructor|].
  now apply insert_by_sorted.
Qed.



Lemma sorted_strict (l : list A) :
  StronglySorted (fun a b => key a <= key b) l -> NoDup (map key l) -> StronglySorted (fun a b => key a < key b) l.
Proof.
  induction 1 as [|x l Hs IH Hx]; intros Hnd; [constructor|].
  simpl in Hnd. inversion Hnd as [|? ? Hnotin Hnd']; subst.
  constructor; [now apply IH|].
  rewrite Forall_forall in *. intros y Hy. specialize (Hx y Hy).
  assert (key x <> key y).
  { intros Heq. apply Hnotin. rewrite Heq. now apply in_map. }
  simpl in Hx. lia.
Qed.

Lemma sort_by_strict (l : list A) :
  NoDup (map key l) -> StronglySorted (fun a b => key a < key b) (sort_by key l).
Proof.
  intros Hnd. apply sorted_strict; [apply sort_by_sorted|].
  apply (Permutation_NoDup (l := map key l)); [|exact Hnd].
  apply Permutation_map. symmetry. apply sort_by_perm.
Qed.
End SortFacts.

Lemma strongly_sorted_map {A : Type} (key : A -> Z) (l : list A) :
  StronglySorted (fun a b => key a < key b) l ->
  StronglySorted Z.lt (map key l).
Proof.
  induction 1 as [|x l Hs IH Hx]; simpl; constructor; [exact IH|].
  rewrite Forall_forall in *. intros k Hk.
  apply in_map_iff in Hk. destruct Hk as [y [<- Hy]]. now apply Hx.
Qed.



(** ** The invariants of the store *)

Lemma empty_store_ok : store_ok empty_store.
Proof. constructor; simpl; constructor. Qed.

Lemma upsert_history_idx (idx : Z) (url title : str) (h : list HistoryItem) :
  map hist_idx (upsert_history idx url title h)
  = if existsb (fun x => hist_idx x =? idx) h then map hist_idx h
    else map hist_idx h ++ [idx].
Proof.
  induction h as [|x h IH]; simpl; [reflexivity|].
  destruct (hist_idx x =? idx); simpl; [reflexivity|].
  rewrite IH. now destruct (existsb _ h).
Qed.

(** The upsert by idx keeps the indices of a history distinct. *)
Lemma upsert_history_NoDup (idx : Z) (url title : str) (h : list HistoryItem) :
  NoDup (map hist_idx h) ->
  NoDup (map hist_idx (upsert_history idx url title h)).
Proof.
  intros H. rewrite upsert_history_idx.
  destruct (existsb (fun x => hist_idx x =? idx) h) eqn:E; [exact H|].
  apply NoDup_app; [exact H | repeat constructor; now simpl |].
  intros x Hx [<-|[]].
  apply in_map_iff in Hx. destruct Hx as [y [Hy Hin]].
  assert (existsb (fun x => hist_idx x =? idx) h = true).
  { apply existsb_exists. exists y. split; [exact Hin|]. now apply Z.eqb_eq. }
  congruence.
Qed.

Lemma get_tab_ok (id : Z) (st : store) : store_ok st -> store_ok (get_tab id st).
Proof.
  intros [H1 H2 H3 H4]. constructor; simpl; try assumption.
  - now apply (dict_setdefault_NoDup Z.eqb Z_eqb_spec).
  - apply dict_setdefault_Forall; [exact H2|].
    split; simpl; [reflexivity|constructor].
Qed.

Lemma get_window_ok (id : Z) (st : store) :
  store_ok st -> store_ok (get_window id st).
Proof.
  intros [H1 H2 H3 H4]. constructor; simpl; try assumption.
  - now apply (dict_setdefault_NoDup Z.eqb Z_eqb_spec).
  - apply dict_setdefault_Forall; [exact H4|]. now split.
Qed.

Lemma get_group_ok (high low : Z) (st : store) :
  store_ok st -> store_ok (get_group high low st).
Proof. intros [H1 H2 H3 H4]. now constructor. Qed.

Lemma modify_group_ok (key : string) (f : Group -> Group) (st : store) :
  store_ok st -> store_ok (modify_group key f st).
Proof. intros [H1 H2 H3 H4]. now constructor. Qed.

Lemma set_active_window_ok (a : option Z) (st : store) :
  store_ok st -> store_ok (set_active_window a st).
Proof. intros [H1 H2 H3 H4]. now constructor. Qed.

Lemma modify_tab_ok (id : Z) (f : Tab -> Tab) (st : store) :
  (forall t, tab_id (f t) = tab_id t) ->
  (forall t, NoDup (map hist_idx (tab_history t)) ->
             NoDup (map hist_idx (tab_history (f t)))) ->
  store_ok st -> store_ok (modify_tab id f st).
Proof.
  intros Hid Hh [H1 H2 H3 H4]. constructor; simpl; try assumption.
  - now rewrite (dict_keys_update Z.eqb).
  - apply (dict_update_Forall Z.eqb Z_eqb_spec tab_entry_ok); try assumption.
    + intros t [Ht1 Ht2]. split; simpl in *; [now rewrite Hid | now apply Hh].
    + auto.
Qed.

Lemma modify_window_ok (id : Z) (f : Window -> Window) (st : store) :
  (forall w, win_id (f w) = win_id w) ->
  (forall w, win_tabs (f w) = win_tabs w) ->
  store_ok st -> store_ok (modify_window id f st).
Proof.
  intros Hid Ht [H1 H2 H3 H4]. constructor; simpl; try assumption.
  - now rewrite (dict_keys_update Z.eqb).
  - apply (dict_update_Forall Z.eqb Z_eqb_spec window_entry_ok); try assumption.
    + intros w [Hw1 Hw2]. split; simpl in *; [now rewrite Hid | now rewrite Ht].
    + auto.
Qed.

Lemma handle_ok {A : Type} (fields : reader A) (effect : A -> store -> store)
  (data : list byte) (st st' : store) :
  (forall a, store_ok (effect a st)) ->
  handle fields effect data st = Ok st' -> store_ok st'.
Proof.
  intros He. unfold handle. destruct (fields data) as [[a s]|e]; [|discriminate].
  intros H. injection H as <-. apply He.
Qed.

Lemma upsert_tab_history_ok (id idx : Z) (url title : str) (st : store) :
  store_ok st ->
  store_ok (modify_tab id
              (fun t => with_history
                          (upsert_history idx url title (tab_history t)) t)
              st).
Proof.
  apply modify_tab_ok; [reflexivity|].
  intros t. simpl. apply upsert_history_NoDup.
Qed.

Create HintDb store_ok.
#[local] Hint Resolve get_tab_ok get_window_ok get_group_ok modify_group_ok
  set_active_window_ok modify_tab_ok modify_window_ok upsert_tab_history_ok
  : store_ok.

(** Every handler keeps the invariants. *)
Lemma dispatch_ok (c : Z) (data : list byte) (st st' : store) :
  store_ok st -> dispatch c data st = Ok st' -> store_ok st'.
Proof.
  intros Hok. unfold dispatch.
  repeat match goal with
         | |- (if ?b then _ else _) = _ -> _ => destruct b
         end;
    try (intros H; injection H as <-; exact Hok);
    apply handle_ok; intros a;
    repeat match goal with
           | x : (_ * _)%type |- _ => destruct x
           end;
    auto 6 with store_ok.
Qed.

Lemma command_loop_ok (fuel : nat) :
  forall fh st st',
    store_ok st -> command_loop fuel fh st = Ok st' -> store_ok st'.
Proof.
  induction fuel as [|fuel IH]; intros fh st st' Hok; simpl.
  - intros H. now injection H as <-.
  - destruct (next_frame fh) as [[|c data fh']|e]; try discriminate.
    + intros H. now injection H as <-.
    + destruct (dispatch c data st) as [st1|e] eqn:E; [|discriminate].
      apply IH. now apply (dispatch_ok c data st).
Qed.

(** The store at the end of a replay satisfies the invariants. *)
Lemma replay_ok (file : list byte) (st : store) :
  replay file = Ok st -> store_ok st.
Proof.
  unfold replay.
  destruct (read 4 file) as [[magic fh]|e]; [|discriminate].
  destruct (list_eq_dec Byte.byte_eq_dec magic SNSS) as [_|_]; [|discriminate].
  destruct (read_uint32 fh) as [[version fh']|e]; [|discriminate].
  destruct ((version =? 1) || (version =? 3)); [|discriminate].
  apply command_loop_ok. apply empty_store_ok.
Qed.

(** ** The first materialization loop: tabs into windows *)

Lemma windows_place_tab (st : store) (e : Z * Tab) :
  windows (place_tab st e)
  = place_in_windows (windows st) (sorted_history_tab (snd e)).
Proof. reflexivity. Qed.

Lemma windows_fold_place_tab (es : list (Z * Tab)) :
  forall st,
    windows (fold_left place_tab es st)
    = fold_left place_in_windows (map sorted_history_tab (Dict.values es))
                (windows st).
Proof.
  induction es as [|e es IH]; intros st; [reflexivity|].
  simpl. now rewrite IH, windows_place_tab.
Qed.

Lemma groups_fold_place_tab (es : list (Z * Tab)) :
  forall st,
    groups (fold_left place_tab es st) = groups st
    /\ active_window (fold_left place_tab es st) = active_window st.
Proof.
  induction es as [|e es IH]; intros st; [now split|].
  simpl. destruct (IH (place_tab st e)) as [-> ->]. now split.
Qed.

Lemma grouped_init (st : store) : store_ok st -> grouped [] (windows st).
Proof.
  intros [_ _ H3 H4]. repeat split; [exact H3| |constructor].
  eapply Forall_impl; [|exact H4]. intros e [He1 He2]. now split.
Qed.

Lemma filter_none {A : Type} (f : A -> bool) (l : list A) :
  (forall x, In x l -> f x = false) -> filter f l = [].
Proof.
  induction l as [|x l IH]; intros H; simpl; [reflexivity|].
  rewrite (H x) by now left. apply IH. intros y Hy. apply H. now right.
Qed.

(** Placing a tab keeps the window table grouped: the tab goes to the end
    of the list of its own window, made on the spot when it is missing. *)
Lemma grouped_step (done : list Tab) (ws : Dict.t) (t : Tab) :
  grouped done ws -> grouped (done ++ [t]) (place_in_windows ws t).
Proof.
  intros [Hnd [Hws Hdone]]. unfold place_in_windows.
  set (k := tab_win t).
  set (ws1 := Dict.setdefault Z.eqb k (new_Window k) ws).
  assert (Hnd1 : NoDup (Dict.keys ws1))
    by now apply (dict_setdefault_NoDup Z.eqb Z_eqb_spec).
  assert (Hws1 : Forall (fun e => win_id (snd e) = fst e
                           /\ win_tabs (snd e)
                              = filter (fun t => tab_win t =? fst e) done) ws1).
  { unfold ws1, Dict.setdefault.
    destruct (Dict.mem Z.eqb k ws) eqn:E; [exact Hws|].
    apply Forall_app. split; [exact Hws|]. constructor; [|constructor].
    split; [reflexivity|]. simpl. symmetry. apply filter_none.
    intros x Hx. apply Z.eqb_neq. intros Heq.
    rewrite Forall_forall in Hdone. specialize (Hdone x Hx).
    apply (dict_mem_false Z.eqb Z_eqb_spec) in E. rewrite Heq in Hdone.
    contradiction. }
  split; [|split].
  - now rewrite (dict_keys_update Z.eqb).
  - apply (dict_update_Forall Z.eqb Z_eqb_spec
             (fun e => win_id (snd e) = fst e
                       /\ win_tabs (snd e)
                          = filter (fun t => tab_win t =? fst e) done));
      try assumption.
    + intros w [Hw1 Hw2]. simpl in *. split; [exact Hw1|].
      rewrite Hw2, filter_app. simpl. fold k. now rewrite Z.eqb_refl.
    + intros e Hne [He1 He2]. split; [exact He1|].
      rewrite He2, filter_app. simpl. fold k.
      destruct (k =? fst e) eqn:E; [apply Z.eqb_eq in E; congruence|].
      now rewrite app_nil_r.
  - rewrite (dict_keys_update Z.eqb). apply Forall_app. split.
    + eapply Forall_impl; [|exact Hdone]. intros x Hx.
      now apply dict_setdefault_keeps.
    + constructor; [|constructor]. apply (dict_setdefault_key Z.eqb Z_eqb_spec).
Qed.

Lemma grouped_fold (ts : list Tab) :
  forall done ws,
    grouped done ws -> grouped (done ++ ts) (fold_left place_in_windows ts ws).
Proof.
  induction ts as [|t ts IH]; intros done ws H; simpl.
  - now rewrite app_nil_r.
  - replace (done ++ t :: ts) with ((done ++ [t]) ++ ts)
      by now rewrite <- app_assoc.
    apply IH. now apply grouped_step.
Qed.

(** After "sort and organize", the tab list of a window is the stable
    sort by position of the tabs of the table that name this window, taken
    in the order of the table, each with its history sorted. *)
Lemma organize_window_tabs (st : store) (w : Window) :
  store_ok st ->
  In w (Dict.values (windows (organize st))) ->
  win_tabs w
  = sort_by tab_idx
      (filter (fun t => tab_win t =? win_id w)
              (map sorted_history_tab (Dict.values (tabs st)))).
Proof.
  intros Hok Hin. unfold organize in Hin. simpl in Hin.
  rewrite windows_fold_place_tab in Hin.
  pose proof (grouped_fold (map sorted_history_tab (Dict.values (tabs st)))
                [] (windows st) (grouped_init st Hok)) as [_ [Hws _]].
  simpl in Hws. unfold Dict.values in Hin.
  apply in_map_iff in Hin. destruct Hin as [e [<- He]].
  apply in_map_iff in He. destruct He as [e0 [<- He0]].
  rewrite Forall_forall in Hws. destruct (Hws e0 He0) as [Hid Htabs].
  unfold sort_window. simpl. now rewrite Htabs, Hid.
Qed.

(** ** The result loops *)

Lemma history_loop_fields (cur : Z) (h : list HistoryItem) :
  forall rt,
    rt_active (history_loop cur h rt) = rt_active rt
    /\ rt_deleted (history_loop cur h rt) = rt_deleted rt
    /\ rt_group (history_loop cur h rt) = rt_group rt.
Proof.
  induction h as [|x h IH]; intros rt; simpl; [now repeat split|].
  destruct (hist_idx x =? cur); [now repeat split|].
  destruct (IH (append_history
                  (mkResultHistoryItem (hist_url x) (hist_title x)) rt))
    as [-> [-> ->]].
  now repeat split.
Qed.

(** The loop stops at the first item whose idx is the current one. *)
Lemma history_loop_match (cur : Z) (pre : list HistoryItem) :
  forall e post rt,
    (forall x, In x pre -> hist_idx x <> cur) ->
    hist_idx e = cur ->
    let rt' := history_loop cur (pre ++ e :: post) rt in
    rt_history rt' = rt_history rt ++ map result_item (pre ++ [e])
    /\ rt_url rt' = hist_url e /\ rt_title rt' = hist_title e.
Proof.
  induction pre as [|x pre IH]; intros e post rt Hpre He; simpl.
  - apply Z.eqb_eq in He. rewrite He. now repeat split.
  - destruct (hist_idx x =? cur) eqn:E.
    + apply Z.eqb_eq in E. elim (Hpre x); [now left|exact E].
    + destruct (IH e post
                  (append_history
                     (mkResultHistoryItem (hist_url x) (hist_title x)) rt))
        as [H1 [H2 H3]]; [intros y Hy; apply Hpre; now right | exact He |].
      rewrite H1, H2, H3. simpl. rewrite <- app_assoc. now repeat split.
Qed.

Lemma history_loop_no_match (cur : Z) (h : list HistoryItem) :
  forall rt,
    (forall x, In x h -> hist_idx x <> cur) ->
    let rt' := history_loop cur h rt in
    rt_history rt' = rt_history rt ++ map result_item h
    /\ rt_url rt' = rt_url rt /\ rt_title rt' = rt_title rt.
Proof.
  induction h as [|x h IH]; intros rt Hh; simpl.
  - rewrite app_nil_r. now repeat split.
  - destruct (hist_idx x =? cur) eqn:E.
    + apply Z.eqb_eq in E. elim (Hh x); [now left|exact E].
    + destruct (IH (append_history
                      (mkResultHistoryItem (hist_url x) (hist_title x)) rt))
        as [H1 [H2 H3]]; [intros y Hy; apply Hh; now right|].
      rewrite H1, H2, H3. simpl. rewrite <- app_assoc. now repeat split.
Qed.

(** In a history with distinct indices in ascending order, nothing before
    an item has the idx of that item. *)
Lemma sorted_prefix_differs (pre : list HistoryItem) (e : HistoryItem)
  (post : list HistoryItem) :
  StronglySorted Z.lt (map hist_idx (pre ++ e :: post)) ->
  forall x, In x pre -> hist_idx x <> hist_idx e.
Proof.
  induction pre as [|y pre IH]; intros Hs x Hx; [destruct Hx|].
  simpl in Hs. apply StronglySorted_inv in Hs. destruct Hs as [Hs Hall].
  destruct Hx as [<-|Hx]; [|now apply IH].
  rewrite Forall_forall in Hall.
  assert (hist_idx y < hist_idx e); [|lia].
  apply Hall. rewrite map_app. apply in_or_app. right. now left.
Qed.

Lemma build_tab_history (st : store) (w : Window) (idx : Z) (tab : Tab) :
  StronglySorted Z.lt (map hist_idx (tab_history tab)) ->
  history_emitted tab (build_tab st w idx tab).
Proof.
  intros Hs. unfold history_emitted, build_tab. split; [exact Hs|]. split.
  - intros pre e post Hh He. rewrite Hh in *.
    apply (history_loop_match (tab_current_history_idx tab) pre e post);
      [|exact He].
    rewrite <- He. now apply (sorted_prefix_differs pre e post).
  - intros Hno.
    apply (history_loop_no_match (tab_current_history_idx tab)
             (tab_history tab)); exact Hno.
Qed.

Lemma tabs_loop_acc (st : store) (w : Window) (ts : list Tab) :
  forall idx acc,
    tabs_loop st w idx ts acc = acc ++ tabs_loop st w idx ts [].
Proof.
  induction ts as [|t ts IH]; intros idx acc; simpl.
  - now rewrite app_nil_r.
  - rewrite IH. rewrite (IH _ [_]). now rewrite <- app_assoc.
Qed.

Lemma tabs_loop_cons (st : store) (w : Window) (idx : Z) (t : Tab)
  (ts : list Tab) :
  tabs_loop st w idx (t :: ts) []
  = build_tab st w idx t
    :: tabs_loop st w (if negb (tab_deleted t) then idx + 1 else idx) ts [].
Proof. simpl. now rewrite tabs_loop_acc. Qed.

Lemma tabs_loop_length (st : store) (w : Window) (ts : list Tab) :
  forall idx, List.length (tabs_loop st w idx ts []) = List.length ts.
Proof.
  induction ts as [|t ts IH]; intros idx; [reflexivity|].
  rewrite tabs_loop_cons. simpl. now rewrite IH.
Qed.

Lemma visible_counter_cons (x : Tab) (ts : list Tab) :
  visible_counter (x :: ts)
  = (if tab_deleted x then 0 else 1) + visible_counter ts.
Proof.
  unfold visible_counter. cbn [filter].
  destruct (tab_deleted x); cbn [negb List.length];
    [lia | rewrite Nat2Z.inj_succ; lia].
Qed.

(** The counter at the k-th tab is the start value plus the number of
    tabs before it that are not deleted. *)
Lemma tabs_loop_nth (st : store) (w : Window) (ts : list Tab) :
  forall idx k tab,
    nth_error ts k = Some tab ->
    nth_error (tabs_loop st w idx ts []) k
    = Some (build_tab st w (idx + visible_counter (firstn k ts)) tab).
Proof.
  induction ts as [|t ts IH]; intros idx k tab Hk.
  - destruct k; discriminate.
  - rewrite tabs_loop_cons. destruct k as [|k]; simpl in *.
    + injection Hk as ->. unfold visible_counter. simpl. now rewrite Z.add_0_r.
    + rewrite (IH _ k tab Hk). do 2 f_equal.
      rewrite visible_counter_cons. destruct (tab_deleted t); cbn [negb]; lia.
Qed.

Lemma tabs_loop_Forall2 (P : Tab -> ResultTab -> Prop) (st : store)
  (w : Window) (ts : list Tab) :
  (forall idx t, In t ts -> P t (build_tab st w idx t)) ->
  forall idx, Forall2 P ts (tabs_loop st w idx ts []).
Proof.
  induction ts as [|t ts IH]; intros H idx.
  - constructor.
  - rewrite tabs_loop_cons. constructor; [apply H; now left|].
    apply IH. intros i x Hx. apply H. now right.
Qed.

Lemma build_tab_flags (st : store) (w : Window) (idx : Z) (tab : Tab) :
  rt_active (build_tab st w idx tab) = (idx =? win_active_tab_idx w)
  /\ rt_deleted (build_tab st w idx tab) = tab_deleted tab.
Proof.
  unfold build_tab.
  destruct (history_loop_fields (tab_current_history_idx tab) (tab_history tab)
              (mkResultTab (idx =? win_active_tab_idx w) [] [] []
                           (tab_deleted tab) (group_name_of st tab)))
    as [-> [-> _]].
  now split.
Qed.

Lemma visible_counter_step (ts : list Tab) (k : nat) (t : Tab) :
  nth_error ts k = Some t ->
  visible_counter (firstn (S k) ts)
  = visible_counter (firstn k ts) + (if tab_deleted t then 0 else 1).
Proof.
  revert k. induction ts as [|x ts IH]; intros k Hk.
  - destruct k; discriminate.
  - destruct k as [|k]; simpl in Hk.
    + injection Hk as ->. rewrite firstn_0.
      change (firstn 1 (t :: ts)) with [t].
      rewrite visible_counter_cons. unfold visible_counter. simpl. lia.
    + specialize (IH k Hk).
      change (firstn (S (S k)) (x :: ts)) with (x :: firstn (S k) ts).
      change (firstn (S k) (x :: ts)) with (x :: firstn k ts).
      rewrite !visible_counter_cons, IH. lia.
Qed.

Lemma visible_counter_mono (ts : list Tab) (i j : nat) :
  (i <= j)%nat ->
  visible_counter (firstn i ts) <= visible_counter (firstn j ts).
Proof.
  revert i j. induction ts as [|x ts IH]; intros i j Hij.
  - rewrite !firstn_nil. lia.
  - destruct i as [|i].
    + unfold visible_counter. simpl. lia.
    + destruct j as [|j]; [lia|].
      specialize (IH i j ltac:(lia)).
      change (firstn (S i) (x :: ts)) with (x :: firstn i ts).
      change (firstn (S j) (x :: ts)) with (x :: firstn j ts).
      rewrite !visible_counter_cons. lia.
Qed.

Lemma parse_inv (file : list byte) (r : Result) :
  parse file = Ok r ->
  exists st,
    replay file = Ok st
    /\ res_windows r
       = map (build_window (organize st)) (Dict.values (windows (organize st))).
Proof.
  unfold parse. destruct (replay file) as [st|e]; [|discriminate].
  intros H. injection H as <-. now exists st.
Qed.

(** Flags of the k-th ResultTab of a window. *)
Lemma build_window_nth (st : store) (w : Window) (k : nat) (tab : Tab) :
  nth_error (win_tabs w) k = Some tab ->
  exists rt,
    nth_error (rw_tabs (build_window st w)) k = Some rt
    /\ rt_deleted rt = tab_deleted tab
    /\ rt_active rt
       = (visible_counter (firstn k (win_tabs w)) =? win_active_tab_idx w).
Proof.
  intros Hk. simpl. rewrite (tabs_loop_nth st w (win_tabs w) 0 k tab Hk).
  eexists. split; [reflexivity|].
  destruct (build_tab_flags st w (0 + visible_counter (firstn k (win_tabs w)))
                            tab) as [-> ->].
  now split.
Qed.

(** ** C1: the active flag *)

(** C1, as the claim states it, fails: in scenario S3 the closed tab is
    emitted with [active = true]. *)
Lemma deleted_tab_active_counterexample :
  ~ (forall (file : list byte) (r : Result) (rw : ResultWindow)
            (rt : ResultTab),
        parse file = Ok r ->
        In rw (res_windows r) ->
        In rt (rw_tabs rw) ->
        rt_deleted rt = true ->
        rt_active rt = false).
Proof.
  intros H.
  assert (Hp : parse S3_log
               = Ok (mkResult
                       [mkResultWindow
                          [mkResultTab false [] [] [] false [];
                           mkResultTab true [] [] [] true [];
                           mkResultTab true [] [] [] false []]
                          false false]))
    by (vm_compute; reflexivity).
  specialize (H S3_log _ _ (mkResultTab true [] [] [] true []) Hp
                (or_introl eq_refl) (or_intror (or_introl eq_refl)) eq_refl).
  discriminate H.
Qed.

(** C1, amended.  In each materialized ResultWindow there is one ResultTab
    per tab of the window, in order; its deleted flag is the tab's, and its
    active flag equals (visible counter == window.active_tab_idx) for
    every tab, deleted or not, where the visible counter is the number of
    tabs before it in the window that are not deleted. *)
Theorem active_flag_is_counter_test (file : list byte) (r : Result) :
  parse file = Ok r ->
  exists st,
    replay file = Ok st
    /\ res_windows r
       = map (build_window (organize st)) (Dict.values (windows (organize st)))
    /\ forall w,
         In w (Dict.values (windows (organize st))) ->
         List.length (rw_tabs (build_window (organize st) w))
         = List.length (win_tabs w)
         /\ forall k tab,
              nth_error (win_tabs w) k = Some tab ->
              exists rt,
                nth_error (rw_tabs (build_window (organize st) w)) k = Some rt
                /\ rt_deleted rt = tab_deleted tab
                /\ rt_active rt
                   = (visible_counter (firstn k (win_tabs w))
                      =? win_active_tab_idx w).
Proof.
  intros Hp. destruct (parse_inv file r Hp) as [st [Hr Hw]].
  exists st. split; [exact Hr|]. split; [exact Hw|].
  intros w _. split.
  - simpl. apply tabs_loop_length.
  - intros k tab Hk. now apply build_window_nth.
Qed.

Lemma active_flag_is_counter_test_witness :
  exists st,
    replay S3_log = Ok st
    /\ forall w,
         In w (Dict.values (windows (organize st))) ->
         forall k tab,
           nth_error (win_tabs w) k = Some tab ->
           exists rt,
             nth_error (rw_tabs (build_window (organize st) w)) k = Some rt
             /\ rt_deleted rt = tab_deleted tab
             /\ rt_active rt
                = (visible_counter (firstn k (win_tabs w))
                   =? win_active_tab_idx w).
Proof.
  destruct (active_flag_is_counter_test S3_log
              (mkResult
                 [mkResultWindow
                    [mkResultTab false [] [] [] false [];
                     mkResultTab true [] [] [] true [];
                     mkResultTab true [] [] [] false []]
                    false false]))
    as [st [Hr [_ Hw]]]; [vm_compute; reflexivity|].
  exists st. split; [exact Hr|]. intros w Hin. exact (proj2 (Hw w Hin)).
Defined.

(** ** C2: at most one active tab *)

(** C2, as the claim states it, fails: with a closed tab in front and the
    selected position 0, the closed tab and the tab after it are both
    emitted with [active = true]. *)
Lemma two_active_tabs_counterexample :
  ~ (forall (file : list byte) (r : Result) (rw : ResultWindow)
            (i j : nat) (rti rtj : ResultTab),
        parse file = Ok r ->
        In rw (res_windows r) ->
        nth_error (rw_tabs rw) i = Some rti ->
        nth_error (rw_tabs rw) j = Some rtj ->
        rt_active rti = true ->
        rt_active rtj = true ->
        i = j).
Proof.
  intros H.
  assert (Hp : parse closed_first_log
               = Ok (mkResult
                       [mkResultWindow
                          [mkResultTab true [] [] [] true [];
                           mkResultTab true [] [] [] false []]
                          false false]))
    by (vm_compute; reflexivity).
  specialize (H closed_first_log _ _ 0%nat 1%nat _ _ Hp (or_introl eq_refl)
                eq_refl eq_refl eq_refl eq_refl).
  discriminate H.
Qed.

(** Two tabs of a window that are not deleted do not see the same value
    of the visible counter. *)
Lemma live_active_unique (st : store) (w : Window) (i j : nat)
  (rti rtj : ResultTab) :
  nth_error (rw_tabs (build_window st w)) i = Some rti ->
  nth_error (rw_tabs (build_window st w)) j = Some rtj ->
  rt_deleted rti = false -> rt_deleted rtj = false ->
  rt_active rti = true -> rt_active rtj = true ->
  i = j.
Proof.
  assert (Hlt : forall i j rti rtj,
             nth_error (rw_tabs (build_window st w)) i = Some rti ->
             nth_error (rw_tabs (build_window st w)) j = Some rtj ->
             rt_deleted rti = false ->
             rt_active rti = true -> rt_active rtj = true ->
             (i < j)%nat -> False).
  { clear. intros i j rti rtj Hi Hj Hdi Hai Haj Hij.
    assert (Hlen : List.length (rw_tabs (build_window st w))
                   = List.length (win_tabs w)) by apply tabs_loop_length.
    destruct (nth_error (win_tabs w) i) as [ti|] eqn:Eti.
    2:{ apply nth_error_None in Eti.
        assert (nth_error (rw_tabs (build_window st w)) i <> None) by congruence.
        apply nth_error_Some in H. lia. }
    destruct (nth_error (win_tabs w) j) as [tj|] eqn:Etj.
    2:{ apply nth_error_None in Etj.
        assert (nth_error (rw_tabs (build_window st w)) j <> None) by congruence.
        apply nth_error_Some in H. lia. }
    destruct (build_window_nth st w i ti Eti) as [rti' [Hi' [Hdi' Hai']]].
    destruct (build_window_nth st w j tj Etj) as [rtj' [Hj' [_ Haj']]].
    rewrite Hi in Hi'. injection Hi' as <-.
    rewrite Hj in Hj'. injection Hj' as <-.
    rewrite Hai in Hai'. rewrite Haj in Haj'.
    symmetry in Hai', Haj'. apply Z.eqb_eq in Hai', Haj'.
    pose proof (visible_counter_step (win_tabs w) i ti Eti) as Hstep.
    rewrite <- Hdi', Hdi in Hstep.
    pose proof (visible_counter_mono (win_tabs w) (S i) j ltac:(lia)).
    lia. }
  intros Hi Hj Hdi Hdj Hai Haj.
  destruct (Nat.lt_trichotomy i j) as [Hij|[Hij|Hij]]; [|exact Hij|].
  - elim (Hlt i j rti rtj); assumption.
  - elim (Hlt j i rtj rti); assumption.
Qed.

Lemma filter_at_most_one {A : Type} (f : A -> bool) (l : list A) :
  (forall i j x y,
      nth_error l i = Some x -> nth_error l j = Some y ->
      f x = true -> f y = true -> i = j) ->
  (List.length (filter f l) <= 1)%nat.
Proof.
  induction l as [|a l IH]; intros H; simpl; [lia|].
  destruct (f a) eqn:E.
  - rewrite filter_none; [simpl; lia|].
    intros x Hx. destruct (f x) eqn:Ex; [|reflexivity].
    apply In_nth_error in Hx. destruct Hx as [n Hn].
    specialize (H 0%nat (S n) a x eq_refl Hn E Ex). discriminate H.
  - apply IH. intros i j x y Hi Hj Hx Hy.
    specialize (H (S i) (S j) x y Hi Hj Hx Hy). lia.
Qed.

(** C2, amended.  In every ResultWindow of a parsed log, at most one
    ResultTab that is not deleted has [active = true]. *)
Theorem at_most_one_live_active (file : list byte) (r : Result)
  (rw : ResultWindow) :
  parse file = Ok r ->
  In rw (res_windows r) ->
  (List.length (live_active rw) <= 1)%nat.
Proof.
  intros Hp Hin. destruct (parse_inv file r Hp) as [st [_ Hw]].
  rewrite Hw in Hin. apply in_map_iff in Hin. destruct Hin as [w [<- _]].
  apply filter_at_most_one. intros i j x y Hi Hj Hx Hy.
  apply andb_prop in Hx, Hy. destruct Hx as [Hxa Hxd], Hy as [Hya Hyd].
  apply negb_true_iff in Hxd, Hyd.
  now apply (live_active_unique (organize st) w i j x y).
Qed.

Lemma at_most_one_live_active_witness :
  (List.length
     (live_active
        (mkResultWindow
           [mkResultTab false [] [] [] false [];
            mkResultTab true [] [] [] true [];
            mkResultTab true [] [] [] false []]
           false false)) <= 1)%nat.
Proof.
  apply (at_most_one_live_active S3_log
           (mkResult
              [mkResultWindow
                 [mkResultTab false [] [] [] false [];
                  mkResultTab true [] [] [] true [];
                  mkResultTab true [] [] [] false []]
                 false false])).
  - vm_compute. reflexivity.
  - left. reflexivity.
Defined.

(** ** The order of the tab table *)

Lemma get_tab_keys (id : Z) (st : store) :
  exists l, Dict.keys (tabs (get_tab id st)) = Dict.keys (tabs st) ++ l.
Proof.
  simpl. rewrite dict_keys_setdefault.
  destruct (Dict.mem Z.eqb id (tabs st)).
  - exists []. now rewrite app_nil_r.
  - now exists [id].
Qed.

(** A command leaves the tabs of the table in their order and puts a tab
    it meets for the first time at the end: the order of the table is the
    order of the first references in the log. *)
Lemma dispatch_keeps_tab_order (c : Z) (data : list byte) (st st' : store) :
  dispatch c data st = Ok st' ->
  exists l, Dict.keys (tabs st') = Dict.keys (tabs st) ++ l.
Proof.
  unfold dispatch.
  repeat match goal with
         | |- (if ?b then _ else _) = _ -> _ => destruct b
         end;
    try (intros H; injection H as <-; exists []; now rewrite app_nil_r);
    unfold update_tab_navigation, set_selected_tab_in_index,
      set_tab_group_metadata2, set_tab_group, set_tab_window, window_closed,
      tab_closed, set_tab_index_in_window, set_active_window_cmd,
      set_selected_navigation_index, handle;
    match goal with
    | |- match ?m with _ => _ end = _ -> _ =>
      destruct m as [[a s]|e]; [|discriminate]
    end;
    intros H; injection H as <-;
    repeat match goal with
           | x : (_ * _)%type |- _ => destruct x
           end;
    try (exists []; now rewrite app_nil_r);
    unfold modify_tab; cbn [tabs set_tabs]; rewrite dict_keys_update;
    try apply get_tab_keys.
  apply (get_tab_keys _ (get_group _ _ st)).
Qed.

(** ** C5: the order of a window's tabs *)





(** ** The histories of the tabs of a window *)

Lemma window_tab_history_sorted (st : store) (w : Window) (t : Tab) :
  store_ok st ->
  In w (Dict.values (windows (organize st))) ->
  In t (win_tabs w) ->
  StronglySorted Z.lt (map hist_idx (tab_history t)).
Proof.
  intros Hok Hin Ht. rewrite (organize_window_tabs st w Hok Hin) in Ht.
  apply (Permutation_in _ (sort_by_perm tab_idx _)) in Ht.
  apply filter_In in Ht. destruct Ht as [Ht _].
  apply in_map_iff in Ht. destruct Ht as [t0 [<- Ht0]].
  unfold Dict.values in Ht0. apply in_map_iff in Ht0.
  destruct Ht0 as [e [<- He]].
  destruct Hok as [_ Htabs _ _]. rewrite Forall_forall in Htabs.
  destruct (Htabs e He) as [_ Hnd].
  simpl. apply strongly_sorted_map. now apply sort_by_strict.
Qed.

(** ** Group references *)

Lemma dict_update_Forall_all {K V : Type} (eqb : K -> K -> bool)
  (P : K * V -> Prop) (k : K) (f : V -> V) (d : Dict.t) :
  Forall P d ->
  (forall e, P e -> P (fst e, f (snd e))) ->
  Forall P (Dict.update eqb k f d).
Proof.
  intros Hd Hf. induction Hd as [|[k' v] d Hp Hd IH]; simpl; [constructor|].
  destruct (eqb k' k); constructor; try assumption.
  apply (Hf (k', v) Hp).
Qed.

Lemma dict_mem_setdefault_keeps {V : Type} (k k' : string) (v : V)
  (d : Dict.t) :
  Dict.mem String.eqb k' d = true ->
  Dict.mem String.eqb k' (Dict.setdefault String.eqb k v d) = true.
Proof.
  intros H. apply (dict_mem_true String.eqb string_eqb_spec).
  apply dict_setdefault_keeps.
  now apply (dict_mem_true String.eqb string_eqb_spec).
Qed.

Lemma dict_mem_update {V : Type} (k k' : string) (f : V -> V) (d : Dict.t) :
  Dict.mem String.eqb k' (Dict.update String.eqb k f d)
  = Dict.mem String.eqb k' d.
Proof.
  destruct (Dict.mem String.eqb k' d) eqn:E.
  - apply (dict_mem_true String.eqb string_eqb_spec).
    rewrite dict_keys_update.
    now apply (dict_mem_true String.eqb string_eqb_spec).
  - apply (dict_mem_false String.eqb string_eqb_spec).
    rewrite dict_keys_update.
    now apply (dict_mem_false String.eqb string_eqb_spec).
Qed.

Lemma groups_ok_get_tab (id : Z) (st : store) :
  groups_ok st -> groups_ok (get_tab id st).
Proof.
  unfold groups_ok. simpl. intros H.
  apply dict_setdefault_Forall; [exact H|]. intros key Hk. discriminate Hk.
Qed.

Lemma groups_ok_modify_tab (id : Z) (f : Tab -> Tab) (st : store) :
  (forall t, tab_group (f t) = tab_group t) ->
  groups_ok st -> groups_ok (modify_tab id f st).
Proof.
  unfold groups_ok. simpl. intros Hf H.
  apply dict_update_Forall_all; [exact H|].
  intros e He key. simpl. rewrite Hf. apply He.
Qed.

Lemma groups_ok_get_group (high low : Z) (st : store) :
  groups_ok st -> groups_ok (get_group high low st).
Proof.
  unfold groups_ok. simpl. intros H.
  eapply Forall_impl; [|exact H]. intros e He key Hk.
  apply dict_mem_setdefault_keeps. now apply He.
Qed.

Lemma groups_ok_modify_group (key : string) (f : Group -> Group) (st : store) :
  groups_ok st -> groups_ok (modify_group key f st).
Proof.
  unfold groups_ok. simpl. intros H.
  eapply Forall_impl; [|exact H]. intros e He k Hk.
  rewrite dict_mem_update. now apply He.
Qed.

Lemma groups_ok_get_window (id : Z) (st : store) :
  groups_ok st -> groups_ok (get_window id st).
Proof. exact (fun H => H). Qed.

Lemma groups_ok_modify_window (id : Z) (f : Window -> Window) (st : store) :
  groups_ok st -> groups_ok (modify_window id f st).
Proof. exact (fun H => H). Qed.

Lemma groups_ok_set_active_window (a : option Z) (st : store) :
  groups_ok st -> groups_ok (set_active_window a st).
Proof. exact (fun H => H). Qed.

(** Binding a tab to a group: the group is in the table before the tab
    gets its key. *)
Lemma groups_ok_bind (id high low : Z) (st : store) :
  groups_ok st ->
  groups_ok (modify_tab id (with_group (group_key high low))
                        (get_tab id (get_group high low st))).
Proof.
  intros H.
  pose proof (groups_ok_get_tab id _ (groups_ok_get_group high low st H)) as H1.
  unfold groups_ok in *. simpl in *.
  apply dict_update_Forall_all; [exact H1|].
  intros e He key. simpl. intros Hk. injection Hk as <-.
  apply (dict_mem_true String.eqb string_eqb_spec).
  apply (dict_setdefault_key String.eqb string_eqb_spec).
Qed.

Create HintDb groups_ok.
#[local] Hint Resolve groups_ok_get_tab groups_ok_modify_tab
  groups_ok_get_group groups_ok_modify_group groups_ok_get_window
  groups_ok_modify_window groups_ok_set_active_window groups_ok_bind
  : groups_ok.

Lemma dispatch_groups_ok (c : Z) (data : list byte) (st st' : store) :
  groups_ok st -> dispatch c data st = Ok st' -> groups_ok st'.
Proof.
  intros Hok. unfold dispatch.
  repeat match goal with
         | |- (if ?b then _ else _) = _ -> _ => destruct b
         end;
    try (intros H; injection H as <-; exact Hok);
    unfold update_tab_navigation, set_selected_tab_in_index,
      set_tab_group_metadata2, set_tab_group, set_tab_window, window_closed,
      tab_closed, set_tab_index_in_window, set_active_window_cmd,
      set_selected_navigation_index, handle;
    match goal with
    | |- match ?m with _ => _ end = _ -> _ =>
      destruct m as [[a s]|e]; [|discriminate]
    end;
    intros H; injection H as <-;
    repeat match goal with
           | x : (_ * _)%type |- _ => destruct x
           end;
    auto 6 with groups_ok.
Qed.

Lemma command_loop_groups_ok (fuel : nat) :
  forall fh st st',
    groups_ok st -> command_loop fuel fh st = Ok st' -> groups_ok st'.
Proof.
  induction fuel as [|fuel IH]; intros fh st st' Hok; simpl.
  - intros H. now injection H as <-.
  - destruct (next_frame fh) as [[|c data fh']|e]; try discriminate.
    + intros H. now injection H as <-.
    + destruct (dispatch c data st) as [st1|e] eqn:E; [|discriminate].
      apply IH. now apply (dispatch_groups_ok c data st).
Qed.

Lemma replay_groups_ok (file : list byte) (st : store) :
  replay file = Ok st -> groups_ok st.
Proof.
  unfold replay.
  destruct (read 4 file) as [[magic fh]|e]; [|discriminate].
  destruct (list_eq_dec Byte.byte_eq_dec magic SNSS) as [_|_]; [|discriminate].
  destruct (read_uint32 fh) as [[version fh']|e]; [|discriminate].
  destruct ((version =? 1) || (version =? 3)); [|discriminate].
  apply command_loop_groups_ok. constructor.
Qed.

(** At materialization the group of a bound tab is found in the table:
    [group_name_of] always reads the name of the shared Group object. *)
Lemma group_name_of_bound (file : list byte) (st : store) (w : Window)
  (t : Tab) (key : string) :
  replay file = Ok st ->
  In w (Dict.values (windows (organize st))) ->
  In t (win_tabs w) ->
  tab_group t = Some key ->
  exists g,
    Dict.get String.eqb key (groups st) = Some g
    /\ group_name_of (organize st) t = group_name g.
Proof.
  intros Hr Hin Ht Hk.
  pose proof (replay_ok file st Hr) as Hok.
  pose proof (replay_groups_ok file st Hr) as Hg.
  rewrite (organize_window_tabs st w Hok Hin) in Ht.
  apply (Permutation_in _ (sort_by_perm tab_idx _)) in Ht.
  apply filter_In in Ht. destruct Ht as [Ht _].
  apply in_map_iff in Ht. destruct Ht as [t0 [<- Ht0]].
  unfold Dict.values in Ht0. apply in_map_iff in Ht0.
  destruct Ht0 as [e [<- He]].
  unfold groups_ok in Hg. rewrite Forall_forall in Hg.
  specialize (Hg e He key Hk). unfold Dict.mem in Hg.
  destruct (Dict.get String.eqb key (groups st)) as [g|] eqn:E;
    [|discriminate].
  exists g. split; [reflexivity|].
  unfold group_name_of. simpl in Hk |- *. rewrite Hk.
  unfold organize. cbn [groups set_windows].
  destruct (groups_fold_place_tab (tabs st) st) as [-> _].
  now rewrite E.
Qed.

(** ** The scenarios of the specification that the code meets *)

Example scenario_S1 : parse (header 1) = Ok (mkResult []).
Proof. vm_compute. reflexivity. Qed.

Example scenario_S2 :
  parse S2_log
  = Ok (mkResult
          [mkResultWindow
             [mkResultTab true
                [mkResultHistoryItem (text "https://a") (text "A")]
                (text "https://a") (text "A") false []]
             false false]).
Proof. vm_compute. reflexivity. Qed.

Example scenario_S4 :
  parse (header 3 ++ encode_records
           [ (x19, u32 5 ++ u32 0 ++ u64 43690 ++ u64 48059);
             (x1b, u32 0 ++ u64 43690 ++ u64 48059
                   ++ u32 4 ++ [x57; x00; x6f; x00; x72; x00; x6b; x00]) ])
  = Ok (mkResult
          [mkResultWindow [mkResultTab true [] [] [] false (text "Work")]
                          false false]).
Proof. vm_compute. reflexivity. Qed.

Example scenario_S5 :
  read_string16 (u32 5 ++ [x68; x00; xe9; x00; x6c; x00; x6c; x00;
                           x6f; x00; x00; x00])
  = Ok ([104; 233; 108; 108; 111], []).
Proof. vm_compute. reflexivity. Qed.

Example scenario_S6 :
  parse ([x58; x58; x58; x58] ++ u32 1) = Raise ValueError.
Proof. vm_compute. reflexivity. Qed.

(** * Further properties of the decoder *)

(** ** The integer readers *)

Lemma le_value_range (bs : list byte) :
  0 <= le_value bs < 256 ^ Z.of_nat (List.length bs).
Proof.
  induction bs as [|b bs IH].
  - simpl. lia.
  - cbn [le_value List.length]. rewrite Nat2Z.inj_succ, Z.pow_succ_r by lia.
    pose proof (byte_val_range b).
    set (p := 256 ^ Z.of_nat (List.length bs)) in *. lia.
Qed.

(** [read_uint8], [read_uint16], [read_uint32] and [read_uint64] (the
    widths 1, 2, 4 and 8) read back a value written little-endian in
    their width and leave the stream right after it. *)
Theorem read_uint_roundtrip (width : nat) (z : Z) (rest : list byte) :
  0 <= z < 256 ^ Z.of_nat width ->
  read_uint width (le_bytes width z ++ rest) = Ok (z, rest).
Proof.
  intros Hz. rewrite read_uint_app by apply le_bytes_length.
  now rewrite le_value_le_bytes.
Qed.

Lemma read_uint_roundtrip_witness :
  read_uint32 (le_bytes 4 3735928559 ++ [x01]) = Ok (3735928559, [x01]).
Proof.
  apply (read_uint_roundtrip 4 3735928559 [x01]). simpl. lia.
Defined.

Lemma read_uint_inv (width : nat) (buf : list byte) (v : Z)
  (rest : list byte) :
  read_uint width buf = Ok (v, rest) ->
  v = le_value (firstn width buf) /\ rest = skipn width buf
  /\ List.length (firstn width buf) = width.
Proof.
  unfold read_uint, bind, read.
  destruct (Z.of_nat width <? 0) eqn:E; [apply Z.ltb_lt in E; lia|].
  rewrite Nat2Z.id. unfold unpack.
  destruct (Nat.eqb (List.length (firstn width buf)) width) eqn:El;
    [|discriminate].
  apply Nat.eqb_eq in El. intros H. injection H as <- <-. now repeat split.
Qed.

Lemma read_uint_short (width : nat) (buf : list byte) :
  (List.length buf < width)%nat -> read_uint width buf = Raise StructError.
Proof.
  intros Hshort. unfold read_uint, bind, read.
  destruct (Z.of_nat width <? 0) eqn:E; [apply Z.ltb_lt in E; lia|].
  rewrite Nat2Z.id. unfold unpack.
  rewrite firstn_all2 by lia.
  destruct (Nat.eqb (List.length buf) width) eqn:El; [|reflexivity].
  apply Nat.eqb_eq in El. lia.
Qed.

(** The integer readers fail with struct.error exactly on a buffer
    shorter than their width; a value they return is in the range of the
    width, and the bytes read and the bytes left make up the buffer. *)
Theorem read_uint_outcome (width : nat) (buf : list byte) :
  ((List.length buf < width)%nat -> read_uint width buf = Raise StructError)
  /\ ((width <= List.length buf)%nat ->
      exists v rest,
        read_uint width buf = Ok (v, rest)
        /\ 0 <= v < 256 ^ Z.of_nat width
        /\ buf = firstn width buf ++ rest
        /\ List.length rest = (List.length buf - width)%nat).
Proof.
  split.
  - apply read_uint_short.
  - intros Hlong. exists (le_value (firstn width buf)), (skipn width buf).
    assert (Hl : List.length (firstn width buf) = width)
      by (rewrite length_firstn; lia).
    split; [|split; [|split]].
    + rewrite <- (firstn_skipn width buf) at 1.
      now apply read_uint_app.
    + pose proof (le_value_range (firstn width buf)) as Hr.
      now rewrite Hl in Hr.
    + symmetry. apply firstn_skipn.
    + apply length_skipn.
Qed.

Lemma read_uint_outcome_witness :
  read_uint64 [x01; x02; x03] = Raise StructError
  /\ exists v rest,
       read_uint16 [x34; x12; xff] = Ok (v, rest)
       /\ 0 <= v < 256 ^ 2.
Proof.
  split.
  - apply (proj1 (read_uint_outcome 8 [x01; x02; x03])). simpl. lia.
  - destruct (proj2 (read_uint_outcome 2 [x34; x12; xff]))
      as [v [rest [H1 [H2 _]]]]; [simpl; lia|].
    exists v, rest. now split.
Defined.

(** ** The alignment *)

Lemma align4_bounds (n : Z) :
  0 <= n ->
  n <= align4 n < n + 4 /\ align4 n mod 4 = 0.
Proof.
  intros Hn. unfold align4.
  pose proof (Z.mod_pos_bound n 4 ltac:(lia)) as Hm.
  pose proof (Z.div_mod n 4 ltac:(lia)) as Hd.
  destruct (n mod 4 =? 0) eqn:E; cbn [negb].
  - apply Z.eqb_eq in E. split; lia.
  - apply Z.eqb_neq in E. split; [lia|].
    replace (n + (4 - n mod 4)) with ((n / 4 + 1) * 4) by lia.
    apply Z.mod_mul. lia.
Qed.

(** The aligned size of a non-negative size is the least multiple of 4
    that is not below it; a multiple of 4 is its own aligned size. *)
Theorem align4_spec (n : Z) :
  0 <= n ->
  n <= align4 n < n + 4
  /\ align4 n mod 4 = 0
  /\ (forall m, n <= m -> m mod 4 = 0 -> align4 n <= m)
  /\ (n mod 4 = 0 -> align4 n = n).
Proof.
  intros Hn. destruct (align4_bounds n Hn) as [Hb Hm].
  split; [exact Hb|]. split; [exact Hm|]. split.
  - intros m Hnm Hm4.
    pose proof (Z.div_mod m 4 ltac:(lia)) as Dm.
    pose proof (Z.div_mod (align4 n) 4 ltac:(lia)) as Da.
    rewrite Hm4 in Dm. rewrite Hm in Da.
    assert (align4 n / 4 <= m / 4); [|lia].
    destruct (Z.le_gt_cases (align4 n / 4) (m / 4)) as [Hle|Hgt];
      [exact Hle|lia].
  - intros H0. unfold align4. apply Z.eqb_eq in H0. now rewrite H0.
Qed.

Lemma align4_spec_witness :
  5 <= align4 5 < 5 + 4 /\ align4 5 mod 4 = 0.
Proof.
  destruct (align4_spec 5) as [H1 [H2 _]]; [lia|]. now split.
Defined.

(** ** The string readers *)

Lemma option_map_cons_inv (cp : Z) (o : option str) (s : str) :
  option_map (cons cp) o = Some s ->
  exists s', s = cp :: s' /\ o = Some s'.
Proof.
  destruct o as [s'|]; simpl; [|discriminate].
  intros H. injection H as <-. now exists s'.
Qed.

Lemma lor_upper (a b : Z) : 0 <= a -> 0 <= b -> 0 <= Z.lor a b <= a + b.
Proof.
  intros Ha Hb. pose proof (Z.add_lor_land a b) as H.
  assert (0 <= Z.land a b) by (apply Z.land_nonneg; now left).
  assert (0 <= Z.lor a b) by (apply Z.lor_nonneg; now split).
  lia.
Qed.

Lemma cont_bits_range (b : byte) : 0 <= cont_bits b < 64.
Proof.
  unfold cont_bits. change 63 with (Z.ones 6).
  rewrite Z.land_ones by lia. apply Z.mod_pos_bound. lia.
Qed.

(** One step of the decoder: the first code point is a scalar value and
    what is left to decode is shorter. *)
Lemma decode_utf8_step (b0 : byte) (r0 : list byte) (s : str) :
  decode_utf8 (b0 :: r0) = Some s ->
  exists cp r s',
    s = cp :: s' /\ decode_utf8 r = Some s' /\ scalar_value cp
    /\ (List.length r <= List.length r0)%nat.
Proof.
  cbn [decode_utf8]. cbv zeta.
  destruct (byte_val b0 <? 128) eqn:E1.
  { intros H. apply option_map_cons_inv in H. destruct H as [s' [-> Hs']].
    exists (byte_val b0), r0, s'.
    split; [reflexivity|]. split; [exact Hs'|]. split; [|lia].
    pose proof (byte_val_range b0). apply Z.ltb_lt in E1.
    unfold scalar_value. lia. }
  destruct (byte_val b0 <? 194) eqn:E2; [discriminate|].
  destruct (byte_val b0 <? 224) eqn:E3.
  { destruct r0 as [|b1 r1]; [discriminate|].
    destruct (is_cont b1); [|discriminate].
    intros H. apply option_map_cons_inv in H. destruct H as [s' [-> Hs']].
    eexists _, r1, s'. split; [reflexivity|]. split; [exact Hs'|].
    split; [|simpl; lia].
    pose proof (cont_bits_range b1) as Hc.
    assert (Hh : 0 <= Z.shiftl (Z.land (byte_val b0) 31) 6 <= 1984).
    { rewrite Z.shiftl_mul_pow2 by lia. change 31 with (Z.ones 5).
      rewrite Z.land_ones by lia.
      pose proof (Z.mod_pos_bound (byte_val b0) (2 ^ 5) ltac:(lia)).
      change (2 ^ 5) with 32 in *. change (2 ^ 6) with 64. lia. }
    pose proof (lor_upper _ _ (proj1 Hh) (proj1 Hc)) as Hl.
    unfold scalar_value. lia. }
  destruct (byte_val b0 <? 240) eqn:E4.
  { destruct r0 as [|b1 [|b2 r2]]; try discriminate.
    match goal with
    | |- (if ?c then _ else _) = _ -> _ => destruct c eqn:Ec; [|discriminate]
    end.
    intros H. apply option_map_cons_inv in H. destruct H as [s' [-> Hs']].
    eexists _, r2, s'. split; [reflexivity|]. split; [exact Hs'|].
    split; [|simpl; lia].
    apply andb_prop in Ec. destruct Ec as [Ec Hsur].
    apply andb_prop in Ec. destruct Ec as [_ Hlow].
    apply Z.leb_le in Hlow. apply negb_true_iff in Hsur.
    pose proof (cont_bits_range b1) as Hc1.
    pose proof (cont_bits_range b2) as Hc2.
    assert (Hh : 0 <= Z.shiftl (Z.land (byte_val b0) 15) 12 <= 61440).
    { rewrite Z.shiftl_mul_pow2 by lia. change 15 with (Z.ones 4).
      rewrite Z.land_ones by lia.
      pose proof (Z.mod_pos_bound (byte_val b0) (2 ^ 4) ltac:(lia)).
      change (2 ^ 4) with 16 in *. change (2 ^ 12) with 4096. lia. }
    assert (Hm : 0 <= Z.shiftl (cont_bits b1) 6 <= 4032).
    { rewrite Z.shiftl_mul_pow2 by lia. change (2 ^ 6) with 64. lia. }
    pose proof (lor_upper _ _ (proj1 Hm) (proj1 Hc2)) as Hl1.
    pose proof (lor_upper _ _ (proj1 Hh) (proj1 Hl1)) as Hl2.
    unfold scalar_value. split; [lia|].
    intros [Ha Hb]. apply Z.leb_le in Ha, Hb. rewrite Ha, Hb in Hsur.
    discriminate Hsur. }
  destruct (byte_val b0 <? 245) eqn:E5; [|discriminate].
  destruct r0 as [|b1 [|b2 [|b3 r3]]]; try discriminate.
  match goal with
  | |- (if ?c then _ else _) = _ -> _ => destruct c eqn:Ec; [|discriminate]
  end.
  intros H. apply option_map_cons_inv in H. destruct H as [s' [-> Hs']].
  eexists _, r3, s'. split; [reflexivity|]. split; [exact Hs'|].
  split; [|simpl; lia].
  apply andb_prop in Ec. destruct Ec as [Ec Hhigh].
  apply andb_prop in Ec. destruct Ec as [_ Hlow].
  apply Z.leb_le in Hlow, Hhigh.
  unfold scalar_value. lia.
Qed.

Lemma decode_utf8_sound (n : nat) :
  forall data s,
    (List.length data <= n)%nat ->
    decode_utf8 data = Some s ->
    Forall scalar_value s /\ (List.length s <= List.length data)%nat.
Proof.
  induction n as [|n IH]; intros data s Hn Hd.
  - destruct data; [|simpl in Hn; lia]. simpl in Hd. injection Hd as <-.
    split; [constructor|simpl; lia].
  - destruct data as [|b0 r0].
    + simpl in Hd. injection Hd as <-. split; [constructor|simpl; lia].
    + apply decode_utf8_step in Hd.
      destruct Hd as [cp [r [s' [-> [Hr [Hcp Hlen]]]]]].
      simpl in Hn. destruct (IH r s' ltac:(lia) Hr) as [Hs Hl].
      split; [now constructor|simpl; lia].
Qed.

Lemma decode_utf8_ascii (bs : list byte) :
  Forall (fun b => byte_val b < 128) bs ->
  decode_utf8 bs = Some (map byte_val bs).
Proof.
  induction 1 as [|b bs Hb Hbs IH]; [reflexivity|].
  cbn [decode_utf8]. cbv zeta.
  apply Z.ltb_lt in Hb. rewrite Hb, IH. reflexivity.
Qed.

(** [read_string] reads back an ASCII text written with its length and
    padded to a multiple of 4: it consumes the length, the text and the
    padding, whatever the padding bytes are, and nothing more. *)
Theorem read_string_ascii_roundtrip (bs pad rest : list byte) :
  Forall (fun b => byte_val b < 128) bs ->
  Z.of_nat (List.length bs) < 2 ^ 32 ->
  Z.of_nat (List.length pad)
  = align4 (Z.of_nat (List.length bs)) - Z.of_nat (List.length bs) ->
  read_string (u32 (Z.of_nat (List.length bs)) ++ bs ++ pad ++ rest)
  = Ok (map byte_val bs, rest).
Proof.
  intros Hascii Hlen Hpad. unfold read_string, bind, read_uint32, u32.
  rewrite read_uint_app by apply le_bytes_length.
  rewrite le_value_le_bytes by (simpl; lia).
  replace (align4 (Z.of_nat (List.length bs)))
    with (Z.of_nat (List.length (bs ++ pad)))
    by (rewrite length_app; lia).
  rewrite app_assoc, read_app by reflexivity.
  rewrite Nat2Z.id, firstn_app, firstn_all, Nat.sub_diag, firstn_0, app_nil_r.
  now rewrite decode_utf8_ascii.
Qed.

Lemma read_string_ascii_roundtrip_witness :
  read_string (u32 5 ++ ascii_bytes "hello" ++ [xff; xff; xff] ++ [x2a])
  = Ok (text "hello", [x2a]).
Proof.
  apply (read_string_ascii_roundtrip (ascii_bytes "hello") [xff; xff; xff]
           [x2a]).
  - repeat constructor.
  - vm_compute. reflexivity.
  - vm_compute. reflexivity.
Defined.

(** A text that [read_string] returns consists of Unicode scalar values
    (no surrogate, nothing above 0x10FFFF) and has at most as many code
    points as the size field says. *)
Theorem read_string_scalar_values (buf : list byte) (s : str)
  (rest : list byte) :
  read_string buf = Ok (s, rest) ->
  Forall scalar_value s
  /\ Z.of_nat (List.length s) <= le_value (firstn 4 buf).
Proof.
  unfold read_string, bind.
  destruct (read_uint32 buf) as [[size r1]|e] eqn:E1; [|discriminate].
  apply read_uint_inv in E1. destruct E1 as [-> [-> _]].
  set (size := le_value (firstn 4 buf)).
  destruct (read (align4 size) (skipn 4 buf)) as [[data r2]|e]; [|discriminate].
  destruct (decode_utf8 (firstn (Z.to_nat size) data)) as [s0|] eqn:Ed;
    [|discriminate].
  unfold ret. intros H. injection H as <- <-.
  destruct (decode_utf8_sound _ _ _ (le_n _) Ed) as [Hs Hl].
  split; [exact Hs|].
  pose proof (le_value_range (firstn 4 buf)). fold size in H.
  rewrite length_firstn in Hl. lia.
Qed.

Lemma read_string_scalar_values_witness :
  Forall scalar_value [8364]
  /\ Z.of_nat (List.length [8364]) <= le_value (firstn 4 (u32 3 ++ [xe2; x82; xac; x00])).
Proof.
  apply (read_string_scalar_values (u32 3 ++ [xe2; x82; xac; x00]) [8364] []).
  vm_compute. reflexivity.
Defined.

Lemma lor_shift_byte (hi lo : Z) :
  0 <= hi -> 0 <= lo < 256 -> Z.lor (Z.shiftl hi 8) lo = hi * 256 + lo.
Proof.
  intros Hhi Hlo.
  assert (Hland : Z.land (Z.shiftl hi 8) lo = 0).
  { apply Z.bits_inj'. intros n Hn.
    rewrite Z.land_spec, Z.bits_0.
    destruct (Z.ltb_spec n 8) as [Hlt|Hge].
    - rewrite Z.shiftl_spec_low by lia. reflexivity.
    - rewrite andb_comm.
      destruct (Z.eq_dec lo 0) as [->|Hnz]; [now rewrite Z.bits_0|].
      rewrite Z.bits_above_log2; [reflexivity|lia|].
      assert (Z.log2 lo < 8); [|lia].
      apply Z.log2_lt_pow2; lia. }
  pose proof (Z.add_lor_land (Z.shiftl hi 8) lo) as H.
  pose proof (Z.shiftl_mul_pow2 hi 8 ltac:(lia)) as Hs.
  change (2 ^ 8) with 256 in Hs. lia.
Qed.

Lemma utf16le_length (us : list Z) :
  List.length (utf16le us) = (2 * List.length us)%nat.
Proof.
  induction us as [|u us IH]; [reflexivity|].
  unfold utf16le in *. cbn [flat_map List.length app]. rewrite IH. lia.
Qed.

Lemma code_units_utf16le (us : list Z) (tail : list byte) :
  Forall code_unit us ->
  code_units (List.length us) (utf16le us ++ tail) = us.
Proof.
  induction 1 as [|u us Hu Hus IH]; [reflexivity|].
  unfold utf16le in *. cbn [flat_map List.length app code_units].
  rewrite IH. f_equal.
  rewrite !byte_val_byte_of. unfold code_unit in Hu.
  rewrite lor_shift_byte.
  - rewrite (Z.mod_small (u / 256)).
    + pose proof (Z.div_mod u 256 ltac:(lia)). lia.
    + split; [apply Z.div_pos; lia | apply Z.div_lt_upper_bound; lia].
  - apply Z.mod_pos_bound. lia.
  - apply Z.mod_pos_bound. lia.
Qed.

(** [read_string16] reads back a list of 16-bit code units written low
    byte first after their count and padded to a multiple of 4; surrogate
    units come back as they are. *)
Theorem read_string16_roundtrip (us : list Z) (pad rest : list byte) :
  Forall code_unit us ->
  Z.of_nat (List.length us) < 2 ^ 32 ->
  Z.of_nat (List.length pad)
  = align4 (Z.of_nat (List.length us) * 2) - Z.of_nat (List.length us) * 2 ->
  read_string16 (u32 (Z.of_nat (List.length us)) ++ utf16le us ++ pad ++ rest)
  = Ok (us, rest).
Proof.
  intros Hus Hlen Hpad. unfold read_string16, bind, read_uint32, u32.
  rewrite read_uint_app by apply le_bytes_length.
  rewrite le_value_le_bytes by (simpl; lia).
  assert (Hl : Z.of_nat (List.length (utf16le us ++ pad))
               = align4 (Z.of_nat (List.length us) * 2)).
  { rewrite length_app, utf16le_length. lia. }
  rewrite <- Hl, app_assoc, read_app by reflexivity.
  rewrite Z.eqb_refl. cbn [negb]. unfold ret.
  now rewrite Nat2Z.id, code_units_utf16le.
Qed.

Lemma read_string16_roundtrip_witness :
  read_string16 (u32 3 ++ utf16le [104; 233; 55357] ++ [x00; x00] ++ [x2a])
  = Ok ([104; 233; 55357], [x2a]).
Proof.
  apply (read_string16_roundtrip [104; 233; 55357] [x00; x00] [x2a]).
  - repeat constructor; unfold code_unit; lia.
  - vm_compute. reflexivity.
  - vm_compute. reflexivity.
Defined.

(** [read_string16] raises when the buffer holds the count but fewer
    bytes than the aligned size of the units. *)
Theorem read_string16_short_buffer (size : Z) (data : list byte) :
  0 <= size < 2 ^ 32 ->
  Z.of_nat (List.length data) < align4 (size * 2) ->
  read_string16 (u32 size ++ data) = Raise ReadStringFailure.
Proof.
  intros Hs Hshort. unfold read_string16, bind, read_uint32, u32.
  rewrite read_uint_app by apply le_bytes_length.
  rewrite le_value_le_bytes by (simpl; lia).
  rewrite read_short by (left; lia).
  destruct (Z.of_nat (List.length data) =? align4 (size * 2)) eqn:E;
    [apply Z.eqb_eq in E; lia|].
  reflexivity.
Qed.

Lemma read_string16_short_buffer_witness :
  read_string16 (u32 3 ++ [x68; x00; xe9; x00; x6c; x00])
  = Raise ReadStringFailure.
Proof.
  apply (read_string16_short_buffer 3 [x68; x00; xe9; x00; x6c; x00]).
  - lia.
  - vm_compute. reflexivity.
Defined.

Lemma code_units_spec (n : nat) :
  forall data,
    (2 * n <= List.length data)%nat ->
    List.length (code_units n data) = n
    /\ Forall code_unit (code_units n data).
Proof.
  induction n as [|n IH]; intros data Hlen; [split; constructor|].
  destruct data as [|lo [|hi r]]; try (simpl in Hlen; lia).
  cbn [code_units]. simpl in Hlen.
  destruct (IH r ltac:(lia)) as [Hl Hf].
  split; [simpl; now rewrite Hl|]. constructor; [|exact Hf].
  pose proof (byte_val_range hi). pose proof (byte_val_range lo).
  rewrite lor_shift_byte by lia. unfold code_unit. lia.
Qed.

(** A text that [read_string16] returns has exactly as many code units as
    the count says, each below 65536, and the read has taken the count and
    the aligned size of the units from the buffer, no more and no less. *)
Theorem read_string16_outcome (buf : list byte) (s : str)
  (rest : list byte) :
  read_string16 buf = Ok (s, rest) ->
  let size := le_value (firstn 4 buf) in
  Z.of_nat (List.length s) = size
  /\ Forall code_unit s
  /\ Z.of_nat (List.length buf)
     = 4 + align4 (size * 2) + Z.of_nat (List.length rest).
Proof.
  unfold read_string16, bind.
  destruct (read_uint32 buf) as [[size r1]|e] eqn:E1; [|discriminate].
  apply read_uint_inv in E1. destruct E1 as [-> [Hr1 Hl4]].
  assert (Hlr : List.length buf = (4 + List.length r1)%nat).
  { rewrite Hr1, length_skipn. rewrite length_firstn in Hl4. lia. }
  clear Hr1.
  set (size := le_value (firstn 4 buf)).
  pose proof (le_value_range (firstn 4 buf)) as Hsize. fold size in Hsize.
  pose proof (align4_bounds (size * 2) ltac:(lia)) as [Ha _].
  unfold read.
  destruct (align4 (size * 2) <? 0) eqn:En; [apply Z.ltb_lt in En; lia|].
  set (n := Z.to_nat (align4 (size * 2))).
  destruct (Z.of_nat (List.length (firstn n r1))
            =? align4 (size * 2)) eqn:El; [|discriminate].
  apply Z.eqb_eq in El. cbn [negb]. unfold ret.
  intros H. injection H as <- <-.
  destruct (code_units_spec (Z.to_nat size) (firstn n r1) ltac:(lia))
    as [Hlen Hunits].
  split; [lia|]. split; [exact Hunits|].
  rewrite length_skipn. rewrite length_firstn in El. lia.
Qed.

Lemma read_string16_outcome_witness :
  Z.of_nat (List.length [104; 233; 108])
  = le_value (firstn 4 (u32 3 ++ utf16le [104; 233; 108] ++ [x00; x00; x2a])).
Proof.
  apply (read_string16_outcome
           (u32 3 ++ utf16le [104; 233; 108] ++ [x00; x00; x2a])
           [104; 233; 108] [x2a]).
  vm_compute. reflexivity.
Defined.

(** ** The header *)

(** A file whose first four bytes are not "SNSS" (a file of fewer than
    four bytes among them) is refused with ValueError, whatever follows. *)
Theorem parse_bad_magic (file : list byte) :
  firstn 4 file <> SNSS -> parse file = Raise ValueError.
Proof.
  intros Hm. unfold parse, replay, read.
  change (4 <? 0) with false. cbv iota. change (Z.to_nat 4) with 4%nat.
  destruct (list_eq_dec Byte.byte_eq_dec (firstn 4 file) SNSS) as [Heq|_];
    [contradiction|reflexivity].
Qed.

Lemma parse_bad_magic_witness :
  parse (ascii_bytes "SNS") = Raise ValueError
  /\ parse (ascii_bytes "snss" ++ u32 1) = Raise ValueError.
Proof.
  split.
  - apply (parse_bad_magic (ascii_bytes "SNS")). discriminate.
  - apply (parse_bad_magic (ascii_bytes "snss" ++ u32 1)). discriminate.
Defined.

(** After the magic, a version other than 1 and 3 is refused with
    ValueError whatever the records are, and a version field cut short
    raises struct.error. *)
Theorem parse_bad_version (version : Z) (body : list byte) :
  0 <= version < 2 ^ 32 ->
  version <> 1 -> version <> 3 ->
  parse (SNSS ++ u32 version ++ body) = Raise ValueError
  /\ forall cut : list byte,
       (List.length cut < 4)%nat -> parse (SNSS ++ cut) = Raise StructError.
Proof.
  intros Hr H1 H3. split.
  - unfold parse, replay. change 4 with (Z.of_nat 4) at 1.
    rewrite (read_app 4 SNSS) by reflexivity.
    destruct (list_eq_dec Byte.byte_eq_dec SNSS SNSS) as [_|N]; [|now elim N].
    unfold read_uint32, u32. rewrite read_uint_app by apply le_bytes_length.
    rewrite le_value_le_bytes by (simpl; lia).
    destruct (version =? 1) eqn:E1; [apply Z.eqb_eq in E1; contradiction|].
    destruct (version =? 3) eqn:E3; [apply Z.eqb_eq in E3; contradiction|].
    reflexivity.
  - intros cut Hcut. unfold parse, replay. change 4 with (Z.of_nat 4) at 1.
    rewrite (read_app 4 SNSS) by reflexivity.
    destruct (list_eq_dec Byte.byte_eq_dec SNSS SNSS) as [_|N]; [|now elim N].
    unfold read_uint32.
    now rewrite (read_uint_short 4 cut Hcut).
Qed.

Lemma parse_bad_version_witness :
  parse (SNSS ++ u32 2 ++ encode_records [(x10, u32 1)]) = Raise ValueError.
Proof.
  apply (parse_bad_version 2 (encode_records [(x10, u32 1)])); lia.
Defined.

(** ** The frame splitter, continued *)

(** The splitter loses nothing: the stream is the size field, the type
    byte, the payload and the stream that is left.  The payload is never
    longer than the size field declares, unless the field is 0, which
    makes the payload all the rest; and when bytes are left after the
    payload, the payload has exactly the declared length. *)
Theorem next_frame_split (fh : list byte) (c : Z) (data fh' : list byte) :
  next_frame fh = Ok (Command c data fh') ->
  exists size_field b,
    fh = size_field ++ b :: data ++ fh'
    /\ List.length size_field = 2%nat
    /\ c = byte_val b
    /\ ((payload_size size_field = -1 /\ fh' = [])
        \/ (Z.of_nat (List.length data) <= payload_size size_field <= 65534
            /\ (fh' <> [] ->
                Z.of_nat (List.length data) = payload_size size_field))).
Proof.
  destruct fh as [|b0 [|b1 [|b r]]];
    try (unfold next_frame, read; simpl; discriminate).
  change (b0 :: b1 :: b :: r) with ([b0; b1] ++ b :: r).
  rewrite next_frame_eq by reflexivity.
  pose proof (le_value_range [b0; b1]) as Hsz.
  change (256 ^ Z.of_nat (List.length [b0; b1])) with 65536 in Hsz.
  unfold read. unfold payload_size at 1.
  destruct (le_value [b0; b1] - 1 <? 0) eqn:E; intros H;
    injection H as <- <- <-; exists [b0; b1], b.
  - apply Z.ltb_lt in E.
    split; [now rewrite app_nil_r|]. split; [reflexivity|].
    split; [reflexivity|]. left. unfold payload_size. split; [lia|reflexivity].
  - apply Z.ltb_ge in E.
    split; [now rewrite firstn_skipn|]. split; [reflexivity|].
    split; [reflexivity|]. right. unfold payload_size.
    rewrite length_firstn. split; [lia|].
    intros Hne.
    destruct (Nat.le_gt_cases (Z.to_nat (le_value [b0; b1] - 1))
                              (List.length r)) as [Hle|Hgt]; [lia|].
    rewrite skipn_all2 in Hne by lia. now elim Hne.
Qed.

Lemma next_frame_split_witness :
  exists size_field b,
    [x05; x00; x10; x07; x00; x00; x00; x2a]
    = size_field ++ b :: [x07; x00; x00; x00] ++ [x2a]
    /\ List.length size_field = 2%nat.
Proof.
  destruct (next_frame_split [x05; x00; x10; x07; x00; x00; x00; x2a]
              16 [x07; x00; x00; x00] [x2a])
    as [sf [b [H1 [H2 _]]]]; [vm_compute; reflexivity|].
  now exists sf, b.
Defined.

(** A log that ends right after a complete size field, with no type byte,
    does not end cleanly: once the records before it are applied, the
    parse raises struct.error. *)
Theorem lone_size_field_raises (version : Z)
  (before : list (byte * list byte)) (size_field : list byte) :
  version = 1 \/ version = 3 ->
  Forall record_fits before ->
  List.length size_field = 2%nat ->
  parse (header version ++ encode_records before ++ size_field)
  = match apply_records before empty_store with
    | Raise e => Raise e
    | Ok _ => Raise StructError
    end.
Proof.
  intros Hv Hb H2. unfold parse. rewrite replay_records by assumption.
  destruct (apply_records before empty_store) as [st|e]; [|reflexivity].
  rewrite run_commands_unfold.
  destruct size_field as [|b0 [|b1 [|b2 r]]]; try discriminate H2.
  reflexivity.
Qed.

Lemma lone_size_field_raises_witness :
  parse (header 1 ++ encode_records [(x10, u32 1)] ++ [x05; x00])
  = Raise StructError.
Proof.
  apply (lone_size_field_raises 1 [(x10, u32 1)] [x05; x00]).
  - now left.
  - fits.
  - reflexivity.
Defined.

(** The parse of a log made of a valid header and records written in full
    is the materialization of the store that the handlers leave when they
    are applied to the records in the order of the file; the first handler
    that fails makes the parse fail with its exception. *)
Theorem parse_is_fold_of_records (version : Z)
  (rs : list (byte * list byte)) :
  version = 1 \/ version = 3 ->
  Forall record_fits rs ->
  parse (header version ++ encode_records rs)
  = match apply_records rs empty_store with
    | Raise e => Raise e
    | Ok st => Ok (build_result (organize st))
    end.
Proof.
  intros Hv Hfit. unfold parse.
  rewrite <- (app_nil_r (encode_records rs)).
  rewrite replay_records by assumption.
  destruct (apply_records rs empty_store) as [st|e]; [|reflexivity].
  rewrite run_commands_cut by (simpl; lia). reflexivity.
Qed.

Lemma parse_is_fold_of_records_witness :
  parse (header 3 ++ encode_records [(x10, u32 1); (x11, u32 0)])
  = match apply_records [(x10, u32 1); (x11, u32 0)] empty_store with
    | Raise e => Raise e
    | Ok st => Ok (build_result (organize st))
    end.
Proof.
  apply (parse_is_fold_of_records 3 [(x10, u32 1); (x11, u32 0)]).
  - now right.
  - fits.
Defined.

(** ** Lookups in the tables *)

Section DictLookup.
Context {K V : Type}.
Variable eqb : K -> K -> bool.
Hypothesis eqb_spec : forall a b, eqb a b = true <-> a = b.

Lemma eqb_refl_from_spec (k : K) : eqb k k = true.
Proof. now apply eqb_spec. Qed.

Lemma eqb_neq_from_spec (a b : K) : a <> b -> eqb a b = false.
Proof.
  intros H. destruct (eqb a b) eqn:E; [|reflexivity].
  apply eqb_spec in E. contradiction.
Qed.

Lemma dict_get_app (k : K) (d d' : Dict.t (V := V)) :
  Dict.get eqb k (d ++ d')
  = match Dict.get eqb k d with
    | Some v => Some v
    | None => Dict.get eqb k d'
    end.
Proof.
  induction d as [|[k' v] d IH]; simpl; [reflexivity|].
  destruct (eqb k' k); [reflexivity|exact IH].
Qed.

(** Lookup after the creation on first use. *)
Lemma dict_get_setdefault_eq (k k' : K) (v : V) (d : Dict.t) :
  Dict.get eqb k' (Dict.setdefault eqb k v d)
  = if eqb k k'
    then Some (match Dict.get eqb k d with Some x => x | None => v end)
    else Dict.get eqb k' d.
Proof.
  unfold Dict.setdefault, Dict.mem.
  destruct (eqb k k') eqn:E.
  - apply eqb_spec in E. subst k'.
    destruct (Dict.get eqb k d) as [x|] eqn:G; [exact G|].
    rewrite dict_get_app, G. simpl. now rewrite eqb_refl_from_spec.
  - destruct (Dict.get eqb k d) as [x|] eqn:G; [reflexivity|].
    rewrite dict_get_app. simpl. rewrite E.
    now destruct (Dict.get eqb k' d).
Qed.

(** Lookup after a mutation under a key. *)
Lemma dict_get_update_eq (k k' : K) (f : V -> V) (d : Dict.t) :
  Dict.get eqb k' (Dict.update eqb k f d)
  = if eqb k k' then option_map f (Dict.get eqb k d)
    else Dict.get eqb k' d.
Proof.
  induction d as [|[k0 v] d IH]; simpl.
  - now destruct (eqb k k').
  - destruct (eqb k0 k) eqn:E0.
    + apply eqb_spec in E0. subst k0. simpl.
      destruct (eqb k k'); reflexivity.
    + simpl. destruct (eqb k0 k') eqn:E1.
      * apply eqb_spec in E1. subst k0.
        rewrite eqb_neq_from_spec; [reflexivity|].
        intros Heq. subst k'. rewrite eqb_refl_from_spec in E0. discriminate.
      * exact IH.
Qed.
End DictLookup.

(** The three accessors create on first use and find afterwards: a lookup
    of the key gives the entity that was there, or the default entity when
    there was none; the lookup of any other key is as before. *)
Theorem accessors_upsert (st : store) :
  (forall id id',
      Dict.get Z.eqb id' (tabs (get_tab id st))
      = if id =? id'
        then Some (match Dict.get Z.eqb id (tabs st) with
                   | Some t => t
                   | None => new_Tab id
                   end)
        else Dict.get Z.eqb id' (tabs st))
  /\ (forall id id',
         Dict.get Z.eqb id' (windows (get_window id st))
         = if id =? id'
           then Some (match Dict.get Z.eqb id (windows st) with
                      | Some w => w
                      | None => new_Window id
                      end)
           else Dict.get Z.eqb id' (windows st))
  /\ (forall high low key,
         Dict.get String.eqb key (groups (get_group high low st))
         = if String.eqb (group_key high low) key
           then Some (match Dict.get String.eqb (group_key high low)
                                     (groups st) with
                      | Some g => g
                      | None => new_Group high low
                      end)
           else Dict.get String.eqb key (groups st)).
Proof.
  split; [|split]; intros; simpl.
  - apply (dict_get_setdefault_eq Z.eqb Z_eqb_spec).
  - apply (dict_get_setdefault_eq Z.eqb Z_eqb_spec).
  - apply (dict_get_setdefault_eq String.eqb string_eqb_spec).
Qed.

(** ** What every command keeps *)

Section HandlerInduction.
Variable R : store -> store -> Prop.
Variable Pt : (Tab -> Tab) -> Prop.
Variable Pw : (Window -> Window) -> Prop.
Hypothesis R_refl : forall st, R st st.
Hypothesis R_trans : forall a b c, R a b -> R b c -> R a c.
Hypothesis R_get_tab : forall id st, R st (get_tab id st).
Hypothesis R_get_window : forall id st, R st (get_window id st).
Hypothesis R_get_group : forall high low st, R st (get_group high low st).
Hypothesis R_modify_tab : forall id f st, Pt f -> R st (modify_tab id f st).
Hypothesis R_modify_window :
  forall id f st, Pw f -> R st (modify_window id f st).
Hypothesis R_modify_group : forall key f st, R st (modify_group key f st).
Hypothesis R_set_active_window :
  forall a st, R st (set_active_window a st).
Hypothesis Pt_history :
  forall idx url title,
    Pt (fun t => with_history (upsert_history idx url title (tab_history t)) t).
Hypothesis Pt_win : forall w, Pt (with_win w).
Hypothesis Pt_idx : forall i, Pt (with_idx i).
Hypothesis Pt_deleted : Pt with_deleted.
Hypothesis Pt_current : forall i, Pt (with_current_history_idx i).
Hypothesis Pt_group : forall key, Pt (with_group key).
Hypothesis Pw_active : forall i, Pw (with_active_tab_idx i).
Hypothesis Pw_deleted : Pw with_win_deleted.

(** A relation between stores that holds across each accessor and each
    mutation holds across every command. *)
Lemma dispatch_rel (c : Z) (data : list byte) (st st' : store) :
  dispatch c data st = Ok st' -> R st st'.
Proof.
  unfold dispatch.
  repeat match goal with
         | |- (if ?b then _ else _) = _ -> _ => destruct b
         end;
    try (intros H; injection H as <-; apply R_refl);
    unfold update_tab_navigation, set_selected_tab_in_index,
      set_tab_group_metadata2, set_tab_group, set_tab_window, window_closed,
      tab_closed, set_tab_index_in_window, set_active_window_cmd,
      set_selected_navigation_index, handle;
    match goal with
    | |- match ?m with _ => _ end = _ -> _ =>
      destruct m as [[a s]|e]; [|discriminate]
    end;
    intros H; injection H as <-;
    repeat match goal with
           | x : (_ * _)%type |- _ => destruct x
           end;
    eauto 6.
Qed.

Lemma command_loop_rel (fuel : nat) :
  forall fh st st', command_loop fuel fh st = Ok st' -> R st st'.
Proof.
  induction fuel as [|fuel IH]; intros fh st st'; simpl.
  - intros H. injection H as <-. apply R_refl.
  - destruct (next_frame fh) as [[|c data fh']|e]; try discriminate.
    + intros H. injection H as <-. apply R_refl.
    + destruct (dispatch c data st) as [st1|e] eqn:E; [|discriminate].
      intros H. apply (R_trans st st1 st').
      * now apply (dispatch_rel c data).
      * now apply (IH fh').
Qed.

Lemma replay_rel (file : list byte) (st : store) :
  replay file = Ok st -> R empty_store st.
Proof.
  unfold replay.
  destruct (read 4 file) as [[magic fh]|e]; [|discriminate].
  destruct (list_eq_dec Byte.byte_eq_dec magic SNSS) as [_|_]; [|discriminate].
  destruct (read_uint32 fh) as [[version fh']|e]; [|discriminate].
  destruct ((version =? 1) || (version =? 3)); [|discriminate].
  apply command_loop_rel.
Qed.
End HandlerInduction.

Lemma persists_refl (st : store) : persists st st.
Proof. repeat split; intros; eauto. Qed.

Lemma persists_trans (a b c : store) :
  persists a b -> persists b c -> persists a c.
Proof.
  intros [Ht [Hw Hg]] [Ht' [Hw' Hg']]. repeat split.
  - intros id t H. destruct (Ht id t H) as [t1 [H1 D1]].
    destruct (Ht' id t1 H1) as [t2 [H2 D2]]. exists t2. auto.
  - intros id w H. destruct (Hw id w H) as [w1 [H1 D1]].
    destruct (Hw' id w1 H1) as [w2 [H2 D2]]. exists w2. auto.
  - intros key g H. destruct (Hg key g H) as [g1 H1]. now apply (Hg' key g1).
Qed.

Lemma persists_get_tab (id : Z) (st : store) : persists st (get_tab id st).
Proof.
  repeat split; intros; simpl; eauto.
  rewrite (dict_get_setdefault_eq Z.eqb Z_eqb_spec).
  destruct (id =? id0) eqn:E; [|eauto].
  apply Z.eqb_eq in E. subst id0. rewrite H. eauto.
Qed.

Lemma persists_get_window (id : Z) (st : store) :
  persists st (get_window id st).
Proof.
  repeat split; intros; simpl; eauto.
  rewrite (dict_get_setdefault_eq Z.eqb Z_eqb_spec).
  destruct (id =? id0) eqn:E; [|eauto].
  apply Z.eqb_eq in E. subst id0. rewrite H. eauto.
Qed.

Lemma persists_get_group (high low : Z) (st : store) :
  persists st (get_group high low st).
Proof.
  repeat split; intros; simpl; eauto.
  rewrite (dict_get_setdefault_eq String.eqb string_eqb_spec).
  destruct (String.eqb (group_key high low) key) eqn:E; [|eauto].
  apply String.eqb_eq in E. subst key. rewrite H. eauto.
Qed.

Lemma persists_modify_tab (id : Z) (f : Tab -> Tab) (st : store) :
  (forall t, tab_deleted t = true -> tab_deleted (f t) = true) ->
  persists st (modify_tab id f st).
Proof.
  intros Hf. repeat split; intros; simpl; eauto.
  rewrite (dict_get_update_eq Z.eqb Z_eqb_spec).
  destruct (id =? id0) eqn:E; [|eauto].
  apply Z.eqb_eq in E. subst id0. rewrite H. simpl. eauto.
Qed.

Lemma persists_modify_window (id : Z) (f : Window -> Window) (st : store) :
  (forall w, win_deleted w = true -> win_deleted (f w) = true) ->
  persists st (modify_window id f st).
Proof.
  intros Hf. repeat split; intros; simpl; eauto.
  rewrite (dict_get_update_eq Z.eqb Z_eqb_spec).
  destruct (id =? id0) eqn:E; [|eauto].
  apply Z.eqb_eq in E. subst id0. rewrite H. simpl. eauto.
Qed.

Lemma persists_modify_group (key : string) (f : Group -> Group) (st : store) :
  persists st (modify_group key f st).
Proof.
  repeat split; intros; simpl; eauto.
  rewrite (dict_get_update_eq String.eqb string_eqb_spec).
  destruct (String.eqb key key0) eqn:E; [|eauto].
  apply String.eqb_eq in E. subst key0. rewrite H. simpl. eauto.
Qed.

Lemma dispatch_persists (c : Z) (data : list byte) (st st' : store) :
  dispatch c data st = Ok st' -> persists st st'.
Proof.
  apply (dispatch_rel persists
           (fun f => forall t, tab_deleted t = true -> tab_deleted (f t) = true)
           (fun f => forall w, win_deleted w = true -> win_deleted (f w) = true)
           persists_refl persists_trans persists_get_tab persists_get_window
           persists_get_group persists_modify_tab persists_modify_window
           persists_modify_group (fun a st0 => persists_refl st0));
    intros; simpl; auto.
Qed.

Lemma apply_records_persists (rs : list (byte * list byte)) :
  forall st st', apply_records rs st = Ok st' -> persists st st'.
Proof.
  induction rs as [|r rs IH]; intros st st'; simpl.
  - intros H. injection H as <-. apply persists_refl.
  - destruct (dispatch (byte_val (fst r)) (snd r) st) as [st1|e] eqn:E;
      [|discriminate].
    intros H. apply (persists_trans st st1 st').
    + now apply (dispatch_persists _ _ _ _ E).
    + now apply IH.
Qed.

Lemma apply_records_app (rs1 rs2 : list (byte * list byte)) (st : store) :
  apply_records (rs1 ++ rs2) st
  = match apply_records rs1 st with
    | Raise e => Raise e
    | Ok st1 => apply_records rs2 st1
    end.
Proof.
  revert st. induction rs1 as [|r rs1 IH]; intros st; simpl; [reflexivity|].
  destruct (dispatch (byte_val (fst r)) (snd r) st) as [st1|e]; [|reflexivity].
  apply IH.
Qed.

Lemma replay_complete_log (version : Z) (rs : list (byte * list byte)) :
  version = 1 \/ version = 3 ->
  Forall record_fits rs ->
  replay (header version ++ encode_records rs) = apply_records rs empty_store.
Proof.
  intros Hv Hfit. rewrite <- (app_nil_r (encode_records rs)).
  rewrite replay_records by assumption.
  destruct (apply_records rs empty_store) as [st|e]; [|reflexivity].
  apply run_commands_cut. simpl. lia.
Qed.

Lemma dispatch_tab_closed (id : Z) (st : store) :
  0 <= id < 2 ^ 32 ->
  dispatch 16 (u32 id) st = Ok (modify_tab id with_deleted (get_tab id st)).
Proof.
  intros Hid. unfold dispatch. simpl. unfold tab_closed, handle, read_uint32, u32.
  rewrite <- (app_nil_r (le_bytes 4 id)).
  rewrite read_uint_app by apply le_bytes_length.
  now rewrite le_value_le_bytes by (simpl; lia).
Qed.

Lemma dispatch_window_closed (id : Z) (st : store) :
  0 <= id < 2 ^ 32 ->
  dispatch 17 (u32 id) st
  = Ok (modify_window id with_win_deleted (get_window id st)).
Proof.
  intros Hid. unfold dispatch. simpl.
  unfold window_closed, handle, read_uint32, u32.
  rewrite <- (app_nil_r (le_bytes 4 id)).
  rewrite read_uint_app by apply le_bytes_length.
  now rewrite le_value_le_bytes by (simpl; lia).
Qed.

(** No command removes a tab, a window or a group from the store, and no
    command clears a deleted flag: across the whole command loop every
    entity stays, and a tab or window that is deleted stays deleted. *)
Theorem deleted_is_permanent (fh : list byte) (st st' : store) :
  run_commands fh st = Ok st' -> persists st st'.
Proof.
  apply (command_loop_rel persists
           (fun f => forall t, tab_deleted t = true -> tab_deleted (f t) = true)
           (fun f => forall w, win_deleted w = true -> win_deleted (f w) = true)
           persists_refl persists_trans persists_get_tab persists_get_window
           persists_get_group persists_modify_tab persists_modify_window
           persists_modify_group (fun a st0 => persists_refl st0));
    intros; simpl; auto.
Qed.

Lemma deleted_is_permanent_witness :
  persists (store_of closed_first_log)
           (store_of (closed_first_log ++ encode_records [(x02, u32 1 ++ u32 7)])).
Proof.
  apply (deleted_is_permanent (encode_records [(x02, u32 1 ++ u32 7)])).
  vm_compute. reflexivity.
Defined.

(** A tab closed by a TabClosed record, and a window closed by a
    WindowClosed record, are deleted in the store at the end of the
    replay, whatever records come before and after. *)
Theorem closed_stays_closed (version : Z)
  (before after : list (byte * list byte)) (id : Z) (st : store) :
  version = 1 \/ version = 3 ->
  Forall record_fits before -> Forall record_fits after ->
  0 <= id < 2 ^ 32 ->
  (replay (header version
           ++ encode_records (before ++ (x10, u32 id) :: after)) = Ok st ->
   exists t, Dict.get Z.eqb id (tabs st) = Some t /\ tab_deleted t = true)
  /\ (replay (header version
              ++ encode_records (before ++ (x11, u32 id) :: after)) = Ok st ->
      exists w, Dict.get Z.eqb id (windows st) = Some w
                /\ win_deleted w = true).
Proof.
  intros Hv Hb Ha Hid.
  assert (Hfit : forall c, Forall record_fits (before ++ (c, u32 id) :: after)).
  { intros c. apply Forall_app. split; [exact Hb|].
    constructor; [unfold record_fits; simpl; lia | exact Ha]. }
  split; intros Hr; rewrite replay_complete_log in Hr by auto;
    rewrite apply_records_app in Hr;
    destruct (apply_records before empty_store) as [st1|e]; try discriminate;
    cbn [apply_records fst snd] in Hr.
  - change (byte_val x10) with 16 in Hr.
    rewrite dispatch_tab_closed in Hr by exact Hid.
    apply apply_records_persists in Hr. destruct Hr as [Ht _].
    destruct (Ht id (with_deleted
                       (match Dict.get Z.eqb id (tabs st1) with
                        | Some t => t
                        | None => new_Tab id
                        end))) as [t' [Hg Hd]].
    + simpl. rewrite (dict_get_update_eq Z.eqb Z_eqb_spec), Z.eqb_refl.
      rewrite (dict_get_setdefault_eq Z.eqb Z_eqb_spec), Z.eqb_refl.
      reflexivity.
    + exists t'. split; [exact Hg|]. now apply Hd.
  - change (byte_val x11) with 17 in Hr.
    rewrite dispatch_window_closed in Hr by exact Hid.
    apply apply_records_persists in Hr. destruct Hr as [_ [Hw _]].
    destruct (Hw id (with_win_deleted
                       (match Dict.get Z.eqb id (windows st1) with
                        | Some w => w
                        | None => new_Window id
                        end))) as [w' [Hg Hd]].
    + simpl. rewrite (dict_get_update_eq Z.eqb Z_eqb_spec), Z.eqb_refl.
      rewrite (dict_get_setdefault_eq Z.eqb Z_eqb_spec), Z.eqb_refl.
      reflexivity.
    + exists w'. split; [exact Hg|]. now apply Hd.
Qed.

Lemma closed_stays_closed_witness :
  exists t,
    Dict.get Z.eqb 11 (tabs (store_of S3_log)) = Some t
    /\ tab_deleted t = true.
Proof.
  apply (proj1 (closed_stays_closed 1
           [ (x00, u32 1 ++ u32 10); (x00, u32 1 ++ u32 11);
             (x00, u32 1 ++ u32 12); (x02, u32 10 ++ u32 0);
             (x02, u32 11 ++ u32 1); (x02, u32 12 ++ u32 2) ]
           [ (x08, u32 1 ++ u32 1) ] 11 (store_of S3_log)
           (or_introl eq_refl) ltac:(fits) ltac:(fits) ltac:(lia))).
  vm_compute. reflexivity.
Defined.

Lemma extends_refl (st : store) : extends st st.
Proof. repeat split; exists []; now rewrite app_nil_r. Qed.

Lemma extends_trans (a b c : store) :
  extends a b -> extends b c -> extends a c.
Proof.
  intros [[l1 H1] [[l2 H2] [l3 H3]]] [[m1 G1] [[m2 G2] [m3 G3]]].
  repeat split.
  - exists (l1 ++ m1). now rewrite G1, H1, app_assoc.
  - exists (l2 ++ m2). now rewrite G2, H2, app_assoc.
  - exists (l3 ++ m3). now rewrite G3, H3, app_assoc.
Qed.

Lemma keys_setdefault_grow {K V : Type} (eqb : K -> K -> bool) (k : K)
  (v : V) (d : Dict.t) :
  exists l, Dict.keys (Dict.setdefault eqb k v d) = Dict.keys d ++ l.
Proof.
  rewrite dict_keys_setdefault. destruct (Dict.mem eqb k d).
  - exists []. now rewrite app_nil_r.
  - now exists [k].
Qed.

Lemma extends_get_tab (id : Z) (st : store) : extends st (get_tab id st).
Proof.
  destruct (extends_refl st) as [_ [Hw Hg]].
  split; [|now split]. apply keys_setdefault_grow.
Qed.

Lemma extends_get_window (id : Z) (st : store) :
  extends st (get_window id st).
Proof.
  destruct (extends_refl st) as [Ht [_ Hg]].
  split; [exact Ht|]. split; [|exact Hg]. apply keys_setdefault_grow.
Qed.

Lemma extends_get_group (high low : Z) (st : store) :
  extends st (get_group high low st).
Proof.
  destruct (extends_refl st) as [Ht [Hw _]].
  split; [exact Ht|]. split; [exact Hw|]. apply keys_setdefault_grow.
Qed.

Lemma extends_modify_tab (id : Z) (f : Tab -> Tab) (st : store) :
  True -> extends st (modify_tab id f st).
Proof.
  intros _. destruct (extends_refl st) as [_ [Hw Hg]].
  split; [|now split]. simpl. rewrite dict_keys_update.
  exists []. now rewrite app_nil_r.
Qed.

Lemma extends_modify_window (id : Z) (f : Window -> Window) (st : store) :
  True -> extends st (modify_window id f st).
Proof.
  intros _. destruct (extends_refl st) as [Ht [_ Hg]].
  split; [exact Ht|]. split; [|exact Hg]. simpl. rewrite dict_keys_update.
  exists []. now rewrite app_nil_r.
Qed.

Lemma extends_modify_group (key : string) (f : Group -> Group) (st : store) :
  extends st (modify_group key f st).
Proof.
  destruct (extends_refl st) as [Ht [Hw _]].
  split; [exact Ht|]. split; [exact Hw|]. simpl. rewrite dict_keys_update.
  exists []. now rewrite app_nil_r.
Qed.

(** The tables keep the order of first use: across the whole command loop
    the keys of the tabs, of the windows and of the groups that were there
    stay in front, in their order, and new keys come after them. *)
Theorem tables_grow_in_order (fh : list byte) (st st' : store) :
  run_commands fh st = Ok st' -> extends st st'.
Proof.
  apply (command_loop_rel extends (fun _ => True) (fun _ => True)
           extends_refl extends_trans extends_get_tab extends_get_window
           extends_get_group extends_modify_tab extends_modify_window
           extends_modify_group (fun a st0 => extends_refl st0));
    intros; exact I.
Qed.

Lemma tables_grow_in_order_witness :
  extends (store_of closed_first_log)
          (store_of (closed_first_log ++ encode_records [(x02, u32 9 ++ u32 7)])).
Proof.
  apply (tables_grow_in_order (encode_records [(x02, u32 9 ++ u32 7)])).
  vm_compute. reflexivity.
Defined.

(** ** The history of a tab *)

Lemma NoDup_map_eq {A B : Type} (f : A -> B) (l : list A) (x y : A) :
  NoDup (map f l) -> In x l -> In y l -> f x = f y -> x = y.
Proof.
  induction l as [|a l IH]; intros Hnd Hx Hy Hf; [destruct Hx|].
  simpl in Hnd. inversion Hnd as [|? ? Hnotin Hnd']; subst.
  destruct Hx as [->|Hx], Hy as [->|Hy]; try reflexivity.
  - elim Hnotin. rewrite Hf. now apply in_map.
  - elim Hnotin. rewrite <- Hf. now apply in_map.
  - now apply IH.
Qed.

Lemma upsert_history_In_new (idx : Z) (url title : str)
  (h : list HistoryItem) :
  In (mkHistoryItem idx url title) (upsert_history idx url title h).
Proof.
  induction h as [|x h IH]; simpl; [now left|].
  destruct (hist_idx x =? idx) eqn:E.
  - apply Z.eqb_eq in E. rewrite E. now left.
  - now right.
Qed.

Lemma upsert_history_In_other (idx : Z) (url title : str)
  (h : list HistoryItem) (x : HistoryItem) :
  hist_idx x <> idx ->
  (In x (upsert_history idx url title h) <-> In x h).
Proof.
  intros Hx. induction h as [|y h IH]; simpl.
  - split; [|tauto]. intros [<-|[]]. now elim Hx.
  - destruct (hist_idx y =? idx) eqn:E; simpl.
    + apply Z.eqb_eq in E. split.
      * intros [<-|H]; [now elim Hx | now right].
      * intros [<-|H]; [now elim Hx | now right].
    + rewrite IH. tauto.
Qed.

(** The history upsert of UpdateTabNavigation: in a history with distinct
    indices, afterwards exactly one item has the given idx and it carries
    the given url and title; the items of the other indices are the ones
    that were there; the history grows by one item exactly when the idx is
    new, and its indices are still distinct. *)
Theorem upsert_history_spec (idx : Z) (url title : str)
  (h : list HistoryItem) :
  NoDup (map hist_idx h) ->
  let h' := upsert_history idx url title h in
  NoDup (map hist_idx h')
  /\ (forall x, In x h' -> hist_idx x = idx -> x = mkHistoryItem idx url title)
  /\ In (mkHistoryItem idx url title) h'
  /\ (forall x, hist_idx x <> idx -> (In x h' <-> In x h))
  /\ List.length h'
     = if existsb (fun x => hist_idx x =? idx) h then List.length h
       else S (List.length h).
Proof.
  intros Hnd h'.
  assert (Hnd' : NoDup (map hist_idx h')) by now apply upsert_history_NoDup.
  split; [exact Hnd'|]. split; [|split; [|split]].
  - intros x Hx Hi.
    apply (NoDup_map_eq hist_idx h' x (mkHistoryItem idx url title) Hnd' Hx);
      [apply upsert_history_In_new | exact Hi].
  - apply upsert_history_In_new.
  - intros x Hx. now apply upsert_history_In_other.
  - rewrite <- (length_map hist_idx h'), <- (length_map hist_idx h).
    unfold h'. rewrite upsert_history_idx.
    destruct (existsb (fun x => hist_idx x =? idx) h); [reflexivity|].
    rewrite length_app. simpl. lia.
Qed.

Lemma upsert_history_spec_witness :
  List.length (upsert_history 0 (text "u") (text "t")
                              [mkHistoryItem 1 [] []; mkHistoryItem 0 [] []])
  = 2%nat.
Proof.
  apply (upsert_history_spec 0 (text "u") (text "t")
           [mkHistoryItem 1 [] []; mkHistoryItem 0 [] []]).
  repeat constructor; simpl; intuition discriminate.
Defined.

(** ** Payloads that are too short *)

Lemma read_uint_len (w : nat) (buf : list byte) (v : Z) (rest : list byte) :
  read_uint w buf = Ok (v, rest) ->
  List.length buf = (w + List.length rest)%nat.
Proof.
  intros H. apply read_uint_inv in H. destruct H as [_ [-> Hl]].
  rewrite length_skipn. rewrite length_firstn in Hl. lia.
Qed.

Lemma read_string_len (buf : list byte) (s : str) (rest : list byte) :
  read_string buf = Ok (s, rest) ->
  (4 + List.length rest <= List.length buf)%nat.
Proof.
  unfold read_string, bind.
  destruct (read_uint32 buf) as [[size r1]|e] eqn:E1; [|discriminate].
  apply read_uint_len in E1. unfold read.
  destruct (align4 size <? 0).
  - destruct (decode_utf8 (firstn (Z.to_nat size) r1)); [|discriminate].
    unfold ret. intros H. injection H as _ <-. simpl. lia.
  - destruct (decode_utf8 _); [|discriminate].
    unfold ret. intros H. injection H as _ <-. rewrite length_skipn. lia.
Qed.

Lemma read_string16_len (buf : list byte) (s : str) (rest : list byte) :
  read_string16 buf = Ok (s, rest) ->
  (4 + List.length rest <= List.length buf)%nat.
Proof.
  unfold read_string16, bind.
  destruct (read_uint32 buf) as [[size r1]|e] eqn:E1; [|discriminate].
  apply read_uint_len in E1. unfold read.
  destruct (align4 (size * 2) <? 0).
  - destruct (negb _); [discriminate|].
    unfold ret. intros H. injection H as _ <-. simpl. lia.
  - destruct (negb _); [discriminate|].
    unfold ret. intros H. injection H as _ <-. rewrite length_skipn. lia.
Qed.

Ltac read_step :=
  match goal with
  | |- context [read_uint ?w ?b] =>
    destruct (read_uint w b) as [[? ?]|?] eqn:?;
    [|eexists; reflexivity]
  | |- context [read_string ?b] =>
    destruct (read_string b) as [[? ?]|?] eqn:?;
    [|eexists; reflexivity]
  | |- context [read_string16 ?b] =>
    destruct (read_string16 b) as [[? ?]|?] eqn:?;
    [|eexists; reflexivity]
  end.

Ltac read_lengths :=
  repeat match goal with
         | H : read_uint _ _ = Ok _ |- _ => apply read_uint_len in H
         | H : read_string _ = Ok _ |- _ => apply read_string_len in H
         | H : read_string16 _ = Ok _ |- _ => apply read_string16_len in H
         end.

Ltac under_read :=
  intros _ Hlen; unfold min_payload in Hlen; simpl in Hlen;
  unfold handle, bind, read_uint32, read_uint64;
  repeat read_step; read_lengths; exfalso; lia.

(** A record of a known opcode whose payload is shorter than the fields
    of its handler makes the parse fail: the handler raises, and the store
    is not handed on. *)
Theorem under_read_fails (c : Z) (data : list byte) (st : store) :
  handled c = true ->
  Z.of_nat (List.length data) < min_payload c ->
  exists e, dispatch c data st = Raise e.
Proof.
  destruct (c =? COMMAND_UPDATE_TAB_NAVIGATION) eqn:E1.
  { apply Z.eqb_eq in E1. subst c.
    change (dispatch _ data st) with (update_tab_navigation data st).
    unfold update_tab_navigation. under_read. }
  destruct (c =? COMMAND_SET_SELECTED_TAB_IN_INDEX) eqn:E2.
  { apply Z.eqb_eq in E2. subst c.
    change (dispatch _ data st) with (set_selected_tab_in_index data st).
    unfold set_selected_tab_in_index. under_read. }
  destruct (c =? COMMAND_SET_TAB_GROUP_METADATA2) eqn:E3.
  { apply Z.eqb_eq in E3. subst c.
    change (dispatch _ data st) with (set_tab_group_metadata2 data st).
    unfold set_tab_group_metadata2. under_read. }
  destruct (c =? COMMAND_SET_TAB_GROUP) eqn:E4.
  { apply Z.eqb_eq in E4. subst c.
    change (dispatch _ data st) with (set_tab_group data st).
    unfold set_tab_group. under_read. }
  destruct (c =? COMMAND_SET_TAB_WINDOW) eqn:E5.
  { apply Z.eqb_eq in E5. subst c.
    change (dispatch _ data st) with (set_tab_window data st).
    unfold set_tab_window. under_read. }
  destruct (c =? COMMAND_WINDOW_CLOSED) eqn:E6.
  { apply Z.eqb_eq in E6. subst c.
    change (dispatch _ data st) with (window_closed data st).
    unfold window_closed. under_read. }
  destruct (c =? COMMAND_TAB_CLOSED) eqn:E7.
  { apply Z.eqb_eq in E7. subst c.
    change (dispatch _ data st) with (tab_closed data st).
    unfold tab_closed. under_read. }
  destruct (c =? COMMAND_SET_TAB_INDEX_IN_WINDOW) eqn:E8.
  { apply Z.eqb_eq in E8. subst c.
    change (dispatch _ data st) with (set_tab_index_in_window data st).
    unfold set_tab_index_in_window. under_read. }
  destruct (c =? COMMAND_SET_ACTIVE_WINDOW) eqn:E9.
  { apply Z.eqb_eq in E9. subst c.
    change (dispatch _ data st) with (set_active_window_cmd data st).
    unfold set_active_window_cmd. under_read. }
  destruct (c =? COMMAND_SET_SELECTED_NAVIGATION_INDEX) eqn:E10.
  { apply Z.eqb_eq in E10. subst c.
    change (dispatch _ data st) with (set_selected_navigation_index data st).
    unfold set_selected_navigation_index. under_read. }
  intros Hh. unfold handled, handled_opcodes in Hh. cbn [existsb] in Hh.
  rewrite E1, E2, E3, E4, E5, E6, E7, E8, E9, E10 in Hh. discriminate Hh.
Qed.

Lemma under_read_fails_witness :
  exists e, dispatch 25 (u32 5 ++ u32 0 ++ u64 1) empty_store = Raise e.
Proof.
  apply (under_read_fails 25 (u32 5 ++ u32 0 ++ u64 1) empty_store).
  - reflexivity.
  - vm_compute. reflexivity.
Defined.

(** ** Payloads that are too long *)

Lemma stable_ret {A : Type} (a : A) : stable (ret a).
Proof. intros buf a' rest extra H. injection H as <- <-. reflexivity. Qed.

Lemma stable_bind {A B : Type} (m : reader A) (k : A -> reader B) :
  stable m -> (forall a, stable (k a)) -> stable (bind m k).
Proof.
  intros Hm Hk buf b rest extra. unfold bind.
  destruct (m buf) as [[a s']|e] eqn:E; [|discriminate].
  intros H. rewrite (Hm buf a s' extra E). now apply Hk.
Qed.

Lemma stable_read_uint (w : nat) : stable (read_uint w).
Proof.
  intros buf v rest extra H. apply read_uint_inv in H.
  destruct H as [-> [-> Hl]].
  rewrite <- (firstn_skipn w buf) at 1. rewrite <- app_assoc.
  now apply read_uint_app.
Qed.

Lemma stable_read_string16 : stable read_string16.
Proof.
  intros buf s rest extra. unfold read_string16, bind, read_uint32.
  destruct (read_uint 4 buf) as [[size r1]|e] eqn:E1; [|discriminate].
  rewrite (stable_read_uint 4 buf size r1 extra E1).
  unfold read. destruct (align4 (size * 2) <? 0) eqn:En.
  - destruct (Z.of_nat (List.length r1) =? align4 (size * 2)) eqn:El;
      [|discriminate].
    apply Z.eqb_eq in El. apply Z.ltb_lt in En. lia.
  - set (n := Z.to_nat (align4 (size * 2))).
    destruct (Z.of_nat (List.length (firstn n r1)) =? align4 (size * 2))
      eqn:El; [|discriminate].
    apply Z.eqb_eq in El. apply Z.ltb_ge in En. cbn [negb]. unfold ret.
    intros H. injection H as <- <-.
    assert (Hn : (n <= List.length r1)%nat).
    { rewrite length_firstn in El. lia. }
    rewrite firstn_app, skipn_app.
    replace (n - List.length r1)%nat with 0%nat by lia.
    rewrite firstn_0, skipn_0, app_nil_r.
    rewrite El, Z.eqb_refl. reflexivity.
Qed.

(** [read_string] does not check the length of what it read, so it is
    stable only when bytes are left after the string. *)
Lemma read_string_stable (buf : list byte) (s : str) (rest extra : list byte) :
  read_string buf = Ok (s, rest) ->
  rest <> [] ->
  read_string (buf ++ extra) = Ok (s, rest ++ extra).
Proof.
  unfold read_string, bind, read_uint32.
  destruct (read_uint 4 buf) as [[size r1]|e] eqn:E1; [|discriminate].
  rewrite (stable_read_uint 4 buf size r1 extra E1).
  unfold read. destruct (align4 size <? 0) eqn:En.
  - destruct (decode_utf8 (firstn (Z.to_nat size) r1)); [|discriminate].
    unfold ret. intros H. injection H as _ <-. intros Hne. now elim Hne.
  - set (n := Z.to_nat (align4 size)).
    destruct (decode_utf8 (firstn (Z.to_nat size) (firstn n r1))) as [s0|]
      eqn:Ed; [|discriminate].
    unfold ret. intros H. injection H as <- <-. intros Hne.
    assert (Hn : (n < List.length r1)%nat).
    { destruct (Nat.lt_ge_cases n (List.length r1)) as [Hlt|Hge];
        [exact Hlt|].
      rewrite skipn_all2 in Hne by lia. now elim Hne. }
    rewrite firstn_app, skipn_app.
    replace (n - List.length r1)%nat with 0%nat by lia.
    rewrite firstn_0, skipn_0, app_nil_r, Ed. reflexivity.
Qed.

Lemma stable_bind_read_string {B : Type} (k : str -> reader B) :
  (forall a, stable (k a)) ->
  (forall a b r, k a [] <> Ok (b, r)) ->
  stable (bind read_string k).
Proof.
  intros Hk Hnil buf b rest extra. unfold bind.
  destruct (read_string buf) as [[a s']|e] eqn:E; [|discriminate].
  intros H.
  assert (Hne : s' <> []).
  { intros ->. now apply (Hnil a b rest). }
  rewrite (read_string_stable buf a s' extra E Hne). now apply Hk.
Qed.

Lemma handle_stable {A : Type} (fields : reader A)
  (effect : A -> store -> store) (data extra : list byte) (st st' : store) :
  stable fields ->
  handle fields effect data st = Ok st' ->
  handle fields effect (data ++ extra) st = Ok st'.
Proof.
  intros Hs. unfold handle.
  destruct (fields data) as [[a r]|e] eqn:E; [|discriminate].
  now rewrite (Hs data a r extra E).
Qed.

Ltac stable_fields :=
  repeat first
         [ apply stable_ret
         | apply stable_read_uint
         | apply stable_read_string16
         | apply stable_bind_read_string;
           [intros | intros ? ? ?; discriminate]
         | apply stable_bind; [|intros] ].

(** Bytes of a payload beyond the fields of the handler are ignored: a
    record that is accepted is accepted with the same effect when its
    payload is made longer. *)
Theorem trailing_bytes_ignored (c : Z) (data extra : list byte)
  (st st' : store) :
  dispatch c data st = Ok st' -> dispatch c (data ++ extra) st = Ok st'.
Proof.
  unfold dispatch.
  repeat match goal with
         | |- (if ?b then _ else _) = _ -> _ => destruct b
         end;
    try exact (fun H => H);
    apply handle_stable; unfold read_uint32, read_uint64; stable_fields.
Qed.

Lemma trailing_bytes_ignored_witness :
  dispatch 16 (u32 7 ++ [xff; xff]) empty_store
  = Ok (modify_tab 7 with_deleted (get_tab 7 empty_store)).
Proof.
  apply (trailing_bytes_ignored 16 (u32 7) [xff; xff] empty_store).
  vm_compute. reflexivity.
Defined.

(** ** Groups and their names *)

Lemma dispatch_group_metadata (inner high low : Z) (name : str)
  (pad : list byte) (st : store) :
  0 <= inner < 2 ^ 32 -> 0 <= high < 2 ^ 64 -> 0 <= low < 2 ^ 64 ->
  Forall code_unit name ->
  Z.of_nat (List.length name) < 2 ^ 32 ->
  Z.of_nat (List.length pad)
  = align4 (Z.of_nat (List.length name) * 2)
    - Z.of_nat (List.length name) * 2 ->
  dispatch 27 (u32 inner ++ u64 high ++ u64 low
               ++ u32 (Z.of_nat (List.length name)) ++ utf16le name ++ pad) st
  = Ok (modify_group (group_key high low) (with_name name)
                     (get_group high low st)).
Proof.
  intros Hi Hh Hl Hn Hlen Hpad.
  change (dispatch 27 ?d st) with (set_tab_group_metadata2 d st).
  unfold set_tab_group_metadata2, handle, bind, read_uint32, read_uint64,
    u32, u64.
  rewrite (read_uint_app 4) by apply le_bytes_length.
  rewrite (read_uint_app 8) by apply le_bytes_length.
  rewrite (read_uint_app 8) by apply le_bytes_length.
  rewrite !le_value_le_bytes by (simpl; lia).
  unfold read_string16, bind, read_uint32.
  rewrite (read_uint_app 4) by apply le_bytes_length.
  rewrite le_value_le_bytes by (simpl; lia).
  assert (Hl2 : Z.of_nat (List.length (utf16le name ++ pad))
                = align4 (Z.of_nat (List.length name) * 2)).
  { rewrite length_app, utf16le_length. lia. }
  rewrite read_short by (left; lia).
  rewrite Hl2, Z.eqb_refl. cbn [negb]. unfold ret.
  now rewrite Nat2Z.id, code_units_utf16le.
Qed.

(** A SetTabGroupMetadata2 record names the group for every tab that
    holds a reference to it, bound before the record or not, and leaves
    the name seen by a tab bound to another key as it was. *)
Theorem group_name_reaches_bound_tabs (inner high low : Z) (name : str)
  (pad : list byte) (st : store) :
  0 <= inner < 2 ^ 32 -> 0 <= high < 2 ^ 64 -> 0 <= low < 2 ^ 64 ->
  Forall code_unit name ->
  Z.of_nat (List.length name) < 2 ^ 32 ->
  Z.of_nat (List.length pad)
  = align4 (Z.of_nat (List.length name) * 2)
    - Z.of_nat (List.length name) * 2 ->
  exists st',
    dispatch 27 (u32 inner ++ u64 high ++ u64 low
                 ++ u32 (Z.of_nat (List.length name)) ++ utf16le name ++ pad)
             st = Ok st'
    /\ (forall t, tab_group t = Some (group_key high low) ->
                  group_name_of st' t = name)
    /\ (forall t key, tab_group t = Some key -> key <> group_key high low ->
                      group_name_of st' t = group_name_of st t).
Proof.
  intros Hi Hh Hl Hn Hlen Hpad.
  rewrite dispatch_group_metadata by assumption.
  eexists. split; [reflexivity|]. split.
  - intros t Ht. unfold group_name_of. rewrite Ht. simpl.
    rewrite (dict_get_update_eq String.eqb string_eqb_spec), String.eqb_refl.
    rewrite (dict_get_setdefault_eq String.eqb string_eqb_spec),
      String.eqb_refl.
    reflexivity.
  - intros t key Ht Hne. unfold group_name_of. rewrite Ht. simpl.
    assert (E : String.eqb (group_key high low) key = false).
    { apply String.eqb_neq. congruence. }
    rewrite (dict_get_update_eq String.eqb string_eqb_spec), E.
    rewrite (dict_get_setdefault_eq String.eqb string_eqb_spec), E.
    reflexivity.
Qed.

Lemma group_name_reaches_bound_tabs_witness :
  exists st',
    dispatch 27 (u32 0 ++ u64 43690 ++ u64 48059
                 ++ u32 (Z.of_nat (List.length [87; 111; 114; 107]))
                 ++ utf16le [87; 111; 114; 107] ++ [])
             (store_of (header 3 ++ encode_records
                          [(x19, u32 5 ++ u32 0 ++ u64 43690 ++ u64 48059)]))
    = Ok st'
    /\ (forall t, tab_group t = Some (group_key 43690 48059) ->
                  group_name_of st' t = [87; 111; 114; 107]).
Proof.
  destruct (group_name_reaches_bound_tabs 0 43690 48059 [87; 111; 114; 107] []
              (store_of (header 3 ++ encode_records
                           [(x19, u32 5 ++ u32 0 ++ u64 43690 ++ u64 48059)])))
    as [st' [H1 [H2 _]]]; try lia.
  - repeat constructor; unfold code_unit; lia.
  - vm_compute. reflexivity.
  - vm_compute. reflexivity.
  - exists st'. now split.
Defined.

(** ** The windows of the result *)

Lemma place_in_windows_keys (ws : Dict.t) (t : Tab) :
  Dict.keys (place_in_windows ws t)
  = if Dict.mem Z.eqb (tab_win t) ws then Dict.keys ws
    else Dict.keys ws ++ [tab_win t].
Proof.
  unfold place_in_windows. now rewrite dict_keys_update, dict_keys_setdefault.
Qed.

Lemma fold_place_keys (ts : list Tab) :
  forall ws,
    (exists l, Dict.keys (fold_left place_in_windows ts ws) = Dict.keys ws ++ l)
    /\ (forall k,
           In k (Dict.keys (fold_left place_in_windows ts ws))
           <-> In k (Dict.keys ws) \/ exists t, In t ts /\ tab_win t = k).
Proof.
  induction ts as [|t ts IH]; intros ws; simpl.
  - split; [exists []; now rewrite app_nil_r|].
    intros k. split; [now left|]. intros [H|[t [[] _]]]. exact H.
  - destruct (IH (place_in_windows ws t)) as [[l Hl] Hin].
    assert (Hk : forall k, In k (Dict.keys (place_in_windows ws t))
                           <-> In k (Dict.keys ws) \/ tab_win t = k).
    { intros k. rewrite place_in_windows_keys.
      destruct (Dict.mem Z.eqb (tab_win t) ws) eqn:E.
      - apply (dict_mem_true Z.eqb Z_eqb_spec) in E.
        split; [now left|]. intros [H|<-]; assumption.
      - rewrite in_app_iff. simpl. tauto. }
    split.
    + rewrite Hl, place_in_windows_keys.
      destruct (Dict.mem Z.eqb (tab_win t) ws).
      * now exists l.
      * exists ([tab_win t] ++ l). now rewrite app_assoc.
    + intros k. rewrite Hin, Hk. split.
      * intros [[H|H]|[t' [Ht' Hw]]]; [now left| |].
        -- right. exists t. split; [now left|exact H].
        -- right. exists t'. split; [now right|exact Hw].
      * intros [H|[t' [[<-|Ht'] Hw]]]; [now left; left| |].
        -- left. now right.
        -- right. now exists t'.
Qed.

Lemma organize_windows_eq (st : store) :
  windows (organize st)
  = map sort_window
        (fold_left place_in_windows
                   (map sorted_history_tab (Dict.values (tabs st)))
                   (windows st)).
Proof.
  unfold organize. simpl. now rewrite windows_fold_place_tab.
Qed.

Lemma keys_map_sort_window (ws : Dict.t) :
  Dict.keys (map sort_window ws) = Dict.keys ws.
Proof.
  unfold Dict.keys. rewrite map_map. reflexivity.
Qed.

Lemma organize_grouped (st : store) :
  store_ok st ->
  grouped (map sorted_history_tab (Dict.values (tabs st)))
          (fold_left place_in_windows
                     (map sorted_history_tab (Dict.values (tabs st)))
                     (windows st)).
Proof.
  intros Hok.
  exact (grouped_fold (map sorted_history_tab (Dict.values (tabs st)))
                      [] (windows st) (grouped_init st Hok)).
Qed.

Lemma materialized_windows_keys (st : store) :
  store_ok st ->
  NoDup (Dict.keys (windows (organize st)))
  /\ (forall k,
         In k (Dict.keys (windows (organize st)))
         <-> In k (Dict.keys (windows st))
             \/ exists t, In t (Dict.values (tabs st)) /\ tab_win t = k).
Proof.
  intros Hok. rewrite organize_windows_eq, keys_map_sort_window.
  destruct (fold_place_keys (map sorted_history_tab (Dict.values (tabs st)))
                            (windows st)) as [_ Hin].
  destruct (organize_grouped st Hok) as [Hnd _].
  split; [exact Hnd|].
  intros k. rewrite Hin. split; (intros [H|[t [Ht Hw]]]; [now left|right]).
  - apply in_map_iff in Ht. destruct Ht as [t0 [<- Ht0]]. now exists t0.
  - exists (sorted_history_tab t). split; [now apply in_map|exact Hw].
Qed.

(** The windows at materialization, in terms of the store [st] that the
    replay leaves: the window table of [organize st] starts with the
    window table of [st], in its order, and the first loop appends to it;
    no id occurs twice; an id is a key of the table of [organize st]
    exactly when it is a key of the window table of [st] or the final
    [win] field of some tab of the tab table of [st] (a window id that a
    record gave to a tab which a later record moved elsewhere is neither);
    and the Result holds one ResultWindow for each key. *)
Theorem materialized_windows (file : list byte) (st : store) :
  replay file = Ok st ->
  NoDup (Dict.keys (windows (organize st)))
  /\ (exists l,
         Dict.keys (windows (organize st)) = Dict.keys (windows st) ++ l)
  /\ (forall k,
         In k (Dict.keys (windows (organize st)))
         <-> In k (Dict.keys (windows st))
             \/ exists t, In t (Dict.values (tabs st)) /\ tab_win t = k)
  /\ List.length (res_windows (build_result (organize st)))
     = List.length (Dict.keys (windows (organize st))).
Proof.
  intros Hr. pose proof (replay_ok file st Hr) as Hok.
  rewrite organize_windows_eq, keys_map_sort_window.
  destruct (fold_place_keys (map sorted_history_tab (Dict.values (tabs st)))
                            (windows st)) as [Hl Hin].
  destruct (organize_grouped st Hok) as [Hnd _].
  split; [exact Hnd|]. split; [exact Hl|]. split.
  - intros k. rewrite Hin. split; (intros [H|[t [Ht Hw]]]; [now left|right]).
    + apply in_map_iff in Ht. destruct Ht as [t0 [<- Ht0]]. now exists t0.
    + exists (sorted_history_tab t). split; [now apply in_map|exact Hw].
  - unfold build_result. cbn [res_windows]. rewrite organize_windows_eq.
    unfold Dict.values, Dict.keys. now rewrite !length_map.
Qed.

Lemma materialized_windows_witness :
  NoDup (Dict.keys (windows (organize (store_of closed_first_log))))
  /\ exists l,
       Dict.keys (windows (organize (store_of closed_first_log)))
       = Dict.keys (windows (store_of closed_first_log)) ++ l.
Proof.
  destruct (materialized_windows closed_first_log (store_of closed_first_log))
    as [H1 [H2 _]]; [vm_compute; reflexivity|].
  now split.
Defined.

Lemma active_ok_get_tab (id : Z) (st : store) :
  active_ok st -> active_ok (get_tab id st).
Proof. exact (fun H => H). Qed.

Lemma active_ok_modify_tab (id : Z) (f : Tab -> Tab) (st : store) :
  active_ok st -> active_ok (modify_tab id f st).
Proof. exact (fun H => H). Qed.

Lemma active_ok_get_group (high low : Z) (st : store) :
  active_ok st -> active_ok (get_group high low st).
Proof. exact (fun H => H). Qed.

Lemma active_ok_modify_group (key : string) (f : Group -> Group) (st : store) :
  active_ok st -> active_ok (modify_group key f st).
Proof. exact (fun H => H). Qed.

Lemma active_ok_get_window (id : Z) (st : store) :
  active_ok st -> active_ok (get_window id st).
Proof.
  intros H a Ha. simpl. apply dict_setdefault_keeps. now apply H.
Qed.

Lemma active_ok_modify_window (id : Z) (f : Window -> Window) (st : store) :
  active_ok st -> active_ok (modify_window id f st).
Proof.
  intros H a Ha. simpl. rewrite dict_keys_update. now apply H.
Qed.

Lemma active_ok_set (id : Z) (st : store) :
  active_ok (set_active_window (Some id) (get_window id st)).
Proof.
  intros a Ha. simpl in *. injection Ha as <-.
  apply (dict_setdefault_key Z.eqb Z_eqb_spec).
Qed.

Create HintDb active_ok.
#[local] Hint Resolve active_ok_get_tab active_ok_modify_tab
  active_ok_get_group active_ok_modify_group active_ok_get_window
  active_ok_modify_window active_ok_set : active_ok.

Lemma dispatch_active_ok (c : Z) (data : list byte) (st st' : store) :
  active_ok st -> dispatch c data st = Ok st' -> active_ok st'.
Proof.
  intros Hok. unfold dispatch.
  repeat match goal with
         | |- (if ?b then _ else _) = _ -> _ => destruct b
         end;
    try (intros H; injection H as <-; exact Hok);
    unfold update_tab_navigation, set_selected_tab_in_index,
      set_tab_group_metadata2, set_tab_group, set_tab_window, window_closed,
      tab_closed, set_tab_index_in_window, set_active_window_cmd,
      set_selected_navigation_index, handle;
    match goal with
    | |- match ?m with _ => _ end = _ -> _ =>
      destruct m as [[a s]|e]; [|discriminate]
    end;
    intros H; injection H as <-;
    repeat match goal with
           | x : (_ * _)%type |- _ => destruct x
           end;
    auto 6 with active_ok.
Qed.

Lemma command_loop_active_ok (fuel : nat) :
  forall fh st st',
    active_ok st -> command_loop fuel fh st = Ok st' -> active_ok st'.
Proof.
  induction fuel as [|fuel IH]; intros fh st st' Hok; simpl.
  - intros H. now injection H as <-.
  - destruct (next_frame fh) as [[|c data fh']|e]; try discriminate.
    + intros H. now injection H as <-.
    + destruct (dispatch c data st) as [st1|e] eqn:E; [|discriminate].
      apply IH. now apply (dispatch_active_ok c data st).
Qed.

Lemma replay_active_ok (file : list byte) (st : store) :
  replay file = Ok st -> active_ok st.
Proof.
  unfold replay.
  destruct (read 4 file) as [[magic fh]|e]; [|discriminate].
  destruct (list_eq_dec Byte.byte_eq_dec magic SNSS) as [_|_]; [|discriminate].
  destruct (read_uint32 fh) as [[version fh']|e]; [|discriminate].
  destruct ((version =? 1) || (version =? 3)); [|discriminate].
  apply command_loop_active_ok. intros id H. discriminate H.
Qed.

Lemma filter_map_length {A B : Type} (p : B -> bool) (g : A -> B)
  (l : list A) :
  List.length (filter p (map g l))
  = List.length (filter (fun x => p (g x)) l).
Proof.
  induction l as [|x l IH]; simpl; [reflexivity|].
  destruct (p (g x)); simpl; now rewrite IH.
Qed.

Lemma filter_key_unique {A : Type} (f : A -> Z) (k : Z) (l : list A) :
  NoDup (map f l) -> In k (map f l) ->
  List.length (filter (fun x => f x =? k) l) = 1%nat.
Proof.
  induction l as [|x l IH]; intros Hnd Hin; [destruct Hin|].
  simpl in Hnd. inversion Hnd as [|? ? Hnotin Hnd']; subst. simpl.
  destruct (f x =? k) eqn:E.
  - apply Z.eqb_eq in E. simpl. f_equal.
    rewrite filter_none; [reflexivity|].
    intros y Hy. apply Z.eqb_neq. intros Heq. apply Hnotin.
    rewrite E, <- Heq. now apply in_map.
  - apply IH; [exact Hnd'|].
    destruct Hin as [Heq|Hin]; [|exact Hin].
    apply Z.eqb_neq in E. contradiction.
Qed.

Lemma organized_window_ids (st : store) :
  store_ok st ->
  map win_id (Dict.values (windows (organize st)))
  = Dict.keys (windows (organize st)).
Proof.
  intros Hok. rewrite organize_windows_eq.
  destruct (organize_grouped st Hok) as [_ [Hws _]].
  set (F := fold_left place_in_windows _ _) in *.
  unfold Dict.values, Dict.keys. rewrite !map_map.
  apply map_ext_in. intros e He. rewrite Forall_forall in Hws.
  destruct (Hws e He) as [Hid _]. exact Hid.
Qed.

(** Exactly one ResultWindow is marked active once a SetActiveWindow
    record was applied, and none is before. *)
Theorem one_active_window (file : list byte) (st : store) (r : Result) :
  replay file = Ok st ->
  parse file = Ok r ->
  List.length (filter rw_active (res_windows r))
  = match active_window st with
    | Some _ => 1%nat
    | None => 0%nat
    end.
Proof.
  intros Hr Hp. unfold parse in Hp. rewrite Hr in Hp. injection Hp as <-.
  pose proof (replay_ok file st Hr) as Hok.
  pose proof (replay_active_ok file st Hr) as Hact.
  unfold build_result. cbn [res_windows]. rewrite filter_map_length.
  cbn [build_window rw_active]. unfold is_active_window.
  assert (Ha : active_window (organize st) = active_window st).
  { unfold organize. cbn [active_window set_windows].
    now destruct (groups_fold_place_tab (tabs st) st) as [_ ->]. }
  rewrite Ha. destruct (active_window st) as [id|] eqn:E.
  - apply filter_key_unique.
    + rewrite organized_window_ids by exact Hok.
      rewrite organize_windows_eq, keys_map_sort_window.
      now destruct (organize_grouped st Hok) as [Hnd _].
    + rewrite organized_window_ids by exact Hok.
      rewrite organize_windows_eq, keys_map_sort_window.
      apply (proj2 (fold_place_keys _ (windows st))). left. now apply Hact.
  - now rewrite filter_false.
Qed.

Lemma one_active_window_witness :
  List.length
    (filter rw_active
       [mkResultWindow [] false true; mkResultWindow [] true false])
  = 1%nat.
Proof.
  apply (one_active_window
           (header 1 ++ encode_records [(x11, u32 3); (x14, u32 4)])
           (store_of (header 1 ++ encode_records [(x11, u32 3); (x14, u32 4)]))
           (mkResult [mkResultWindow [] false true;
                      mkResultWindow [] true false])).
  - vm_compute. reflexivity.
  - vm_compute. reflexivity.
Defined.

(** ** Tabs and their windows *)

Section Counting.
Variable p : Tab -> bool.
Variable c : Z -> bool.

Lemma list_sum_zero {A : Type} (l : list A) :
  list_sum (map (fun _ => 0%nat) l) = 0%nat.
Proof. induction l as [|x l IH]; simpl; [reflexivity|exact IH]. Qed.

Lemma list_sum_map_add {A : Type} (f g : A -> nat) (l : list A) :
  list_sum (map (fun x => (f x + g x)%nat) l)
  = (list_sum (map f l) + list_sum (map g l))%nat.
Proof.
  induction l as [|x l IH]; simpl; [reflexivity|]. rewrite IH. lia.
Qed.

Lemma list_sum_one_key (b : bool) (x : Z) (ks : list Z) :
  NoDup ks -> In x ks ->
  list_sum (map (fun k => if c k && b && (x =? k) then 1%nat else 0%nat) ks)
  = if c x && b then 1%nat else 0%nat.
Proof.
  induction ks as [|k ks IH]; intros Hnd Hin; [destruct Hin|].
  inversion Hnd as [|? ? Hnotin Hnd']; subst. simpl.
  destruct (x =? k) eqn:E.
  - apply Z.eqb_eq in E. subst k.
    rewrite andb_true_r.
    rewrite (map_ext_in _ (fun _ => 0%nat)).
    + rewrite list_sum_zero. lia.
    + intros k Hk. destruct (x =? k) eqn:E'.
      * apply Z.eqb_eq in E'. subst k. contradiction.
      * now rewrite andb_false_r.
  - rewrite andb_false_r. simpl. apply IH; [exact Hnd'|].
    destruct Hin as [Heq|Hin]; [|exact Hin].
    apply Z.eqb_neq in E. congruence.
Qed.

(** Counting the tabs window by window counts every tab once, when the
    window ids are distinct and every tab has its window. *)
Lemma count_by_key (ks : list Z) (ts : list Tab) :
  NoDup ks ->
  (forall t, In t ts -> In (tab_win t) ks) ->
  list_sum
    (map (fun k =>
            if c k
            then List.length
                   (filter (fun t => p t && (tab_win t =? k)) ts)
            else 0%nat) ks)
  = List.length (filter (fun t => p t && c (tab_win t)) ts).
Proof.
  intros Hnd. induction ts as [|t ts IH]; intros Hcov.
  - simpl. rewrite (map_ext _ (fun _ => 0%nat)); [apply list_sum_zero|].
    intros k. now destruct (c k).
  - rewrite (map_ext _ (fun k =>
               Nat.add
                 (if c k && p t && (tab_win t =? k) then 1%nat else 0%nat)
                 (if c k
                  then List.length
                         (filter (fun t => p t && (tab_win t =? k)) ts)
                  else 0%nat))).
    + rewrite list_sum_map_add, IH by (intros x Hx; apply Hcov; now right).
      rewrite list_sum_one_key by (try exact Hnd; apply Hcov; now left).
      cbn [filter]. rewrite (andb_comm (c (tab_win t))).
      destruct (p t && c (tab_win t)); simpl; lia.
    + intros k. cbn [filter].
      destruct (c k), (p t), (tab_win t =? k); reflexivity.
Qed.
End Counting.

Lemma dict_get_In {V : Type} (k : Z) (v : V) (d : Dict.t) :
  NoDup (Dict.keys d) -> In (k, v) d -> Dict.get Z.eqb k d = Some v.
Proof.
  induction d as [|[k' v'] d IH]; intros Hnd Hin; [destruct Hin|].
  simpl in Hnd. inversion Hnd as [|? ? Hnotin Hnd']; subst. simpl.
  destruct Hin as [Heq|Hin].
  - injection Heq as -> ->. now rewrite Z.eqb_refl.
  - destruct (k' =? k) eqn:E.
    + apply Z.eqb_eq in E. subst k'. elim Hnotin.
      change k with (fst (k, v)). now apply in_map.
    + now apply IH.
Qed.

Lemma filter_perm_length {A : Type} (q : A -> bool) (l l' : list A) :
  Permutation l l' ->
  List.length (filter q l) = List.length (filter q l').
Proof.
  induction 1 as [|x l l' Hp IH|x y l|l l' l'' H1 IH1 H2 IH2]; simpl.
  - reflexivity.
  - destruct (q x); simpl; now rewrite IH.
  - destruct (q x), (q y); reflexivity.
  - now rewrite IH1.
Qed.

Lemma filter_filter_and {A : Type} (q r : A -> bool) (l : list A) :
  filter q (filter r l) = filter (fun x => q x && r x) l.
Proof.
  induction l as [|x l IH]; cbn [filter]; [reflexivity|].
  destruct (r x) eqn:Er; cbn [filter]; destruct (q x) eqn:Eq;
    cbn [andb]; rewrite IH; reflexivity.
Qed.

(** The windows partition the tabs: every tab of the table is in the tab
    list of the window that its win field names and in no other, a tab
    list holds tabs of the table only, and the tab lists together have as
    many tabs as the table. *)
Theorem tabs_partitioned (file : list byte) (st : store) :
  replay file = Ok st ->
  (forall t,
      In t (Dict.values (tabs st)) ->
      exists w,
        In w (Dict.values (windows (organize st)))
        /\ win_id w = tab_win t
        /\ In (sorted_history_tab t) (win_tabs w))
  /\ (forall w t,
         In w (Dict.values (windows (organize st))) ->
         In t (win_tabs w) ->
         tab_win t = win_id w
         /\ exists t0, In t0 (Dict.values (tabs st))
                       /\ t = sorted_history_tab t0)
  /\ list_sum (map (fun w => List.length (win_tabs w))
                   (Dict.values (windows (organize st))))
     = List.length (tabs st).
Proof.
  intros Hr. pose proof (replay_ok file st Hr) as Hok.
  set (T := map sorted_history_tab (Dict.values (tabs st))).
  assert (Htabs : forall w,
             In w (Dict.values (windows (organize st))) ->
             win_tabs w
             = sort_by tab_idx (filter (fun t => tab_win t =? win_id w) T))
    by (intros w Hw; now apply organize_window_tabs).
  destruct (materialized_windows_keys st Hok) as [Hnd Hcov].
  split; [|split].
  - intros t Ht.
    assert (Hk : In (tab_win t) (Dict.keys (windows (organize st)))).
    { apply Hcov. right. now exists t. }
    rewrite <- organized_window_ids in Hk by exact Hok.
    apply in_map_iff in Hk. destruct Hk as [w [Hid Hw]].
    exists w. split; [exact Hw|]. split; [exact Hid|].
    rewrite (Htabs w Hw).
    apply (Permutation_in _ (Permutation_sym (sort_by_perm tab_idx _))).
    apply filter_In. split; [now apply in_map|].
    simpl. rewrite Hid. apply Z.eqb_refl.
  - intros w t Hw Ht. rewrite (Htabs w Hw) in Ht.
    apply (Permutation_in _ (sort_by_perm tab_idx _)) in Ht.
    apply filter_In in Ht. destruct Ht as [Ht Hwin].
    apply Z.eqb_eq in Hwin. split; [exact Hwin|].
    apply in_map_iff in Ht. destruct Ht as [t0 [<- Ht0]]. now exists t0.
  - assert (HcovT : forall t, In t T ->
                               In (tab_win t) (Dict.keys (windows (organize st)))).
    { intros t Ht. apply Hcov. right.
      apply in_map_iff in Ht. destruct Ht as [t0 [<- Ht0]]. now exists t0. }
    pose proof (count_by_key (fun _ => true) (fun _ => true)
                  (Dict.keys (windows (organize st))) T Hnd HcovT) as Hc.
    cbv beta iota in Hc. cbn [andb] in Hc.
    rewrite forallb_filter_id in Hc by (apply forallb_forall; reflexivity).
    transitivity
      (list_sum
         (map (fun k => List.length (filter (fun t => tab_win t =? k) T))
              (map win_id (Dict.values (windows (organize st)))))).
    + rewrite map_map. f_equal. apply map_ext_in. intros w Hw.
      rewrite (Htabs w Hw). apply Permutation_length, sort_by_perm.
    + rewrite organized_window_ids by exact Hok. rewrite Hc.
      unfold T, Dict.values. now rewrite !length_map.
Qed.

Lemma tabs_partitioned_witness :
  list_sum (map (fun w => List.length (win_tabs w))
                (Dict.values (windows (organize (store_of S3_log)))))
  = List.length (tabs (store_of S3_log)).
Proof.
  destruct (tabs_partitioned S3_log (store_of S3_log)) as [_ [_ H]];
    [vm_compute; reflexivity|exact H].
Defined.

(** ** The tab count, end to end *)

Lemma window_deleted_in_place (ws : Dict.t) (t : Tab) (k : Z) :
  window_deleted_in (place_in_windows ws t) k = window_deleted_in ws k.
Proof.
  unfold window_deleted_in, place_in_windows.
  rewrite (dict_get_update_eq Z.eqb Z_eqb_spec).
  rewrite !(dict_get_setdefault_eq Z.eqb Z_eqb_spec).
  destruct (tab_win t =? k) eqn:E; [|reflexivity].
  apply Z.eqb_eq in E. subst k. rewrite Z.eqb_refl.
  now destruct (Dict.get Z.eqb (tab_win t) ws).
Qed.

Lemma window_deleted_in_fold (ts : list Tab) :
  forall ws k,
    window_deleted_in (fold_left place_in_windows ts ws) k
    = window_deleted_in ws k.
Proof.
  induction ts as [|t ts IH]; intros ws k; simpl; [reflexivity|].
  now rewrite IH, window_deleted_in_place.
Qed.

Lemma live_tabs_build_window (st : store) (w : Window) :
  List.length (filter (fun t => negb (rt_deleted t))
                      (rw_tabs (build_window st w)))
  = List.length (filter (fun t => negb (tab_deleted t)) (win_tabs w)).
Proof.
  simpl. generalize 0. induction (win_tabs w) as [|t ts IH]; intros idx.
  - reflexivity.
  - rewrite tabs_loop_cons. cbn [filter].
    destruct (build_tab_flags st w idx t) as [_ ->].
    destruct (tab_deleted t); simpl; now rewrite IH.
Qed.

Lemma live_total_build_result (st : store) (ws : list Window) :
  fold_right Z.add 0
    (map live_tabs
         (filter (fun w => negb (rw_deleted w)) (map (build_window st) ws)))
  = Z.of_nat
      (list_sum
         (map (fun w =>
                 if negb (win_deleted w)
                 then List.length
                        (filter (fun t => negb (tab_deleted t)) (win_tabs w))
                 else 0%nat) ws)).
Proof.
  induction ws as [|w ws IH]; [reflexivity|].
  cbn [map filter build_window rw_deleted].
  match goal with
  | |- _ = Z.of_nat (list_sum (?a :: ?l)) =>
    change (list_sum (a :: l)) with (a + list_sum l)%nat
  end.
  rewrite Nat2Z.inj_add, <- IH.
  destruct (win_deleted w); cbn [negb map fold_right].
  - lia.
  - unfold live_tabs at 1. rewrite (live_tabs_build_window st w). lia.
Qed.

(** The count of the downstream consumer is the number of tabs of the
    replayed store that are not closed and whose window is not closed: for
    a session file that is found, opened and replayed, [get_tab_count]
    returns the number of open tabs. *)
Theorem tab_count_is_open_tabs (fs : filesystem) (path : string)
  (file : list byte) (st : store) :
  get_chrome_session_file fs = Ok path ->
  open_rb fs path = Ok file ->
  replay file = Ok st ->
  get_tab_count fs = Z.of_nat (List.length (open_tabs st)).
Proof.
  intros Hpath Hopen Hr.
  pose proof (replay_ok file st Hr) as Hok.
  unfold get_tab_count, read_session, parse_path, parse.
  rewrite Hpath, Hopen, Hr. rewrite count_windows_spec.
  unfold build_result. cbn [res_windows]. rewrite live_total_build_result.
  rewrite Z.add_0_l. f_equal.
  set (T := map sorted_history_tab (Dict.values (tabs st))).
  set (F := fold_left place_in_windows T (windows st)).
  destruct (materialized_windows_keys st Hok) as [Hnd Hcov].
  assert (HcovT : forall t, In t T ->
                             In (tab_win t) (Dict.keys (windows (organize st)))).
  { intros t Ht. apply Hcov. right.
    apply in_map_iff in Ht. destruct Ht as [t0 [<- Ht0]]. now exists t0. }
  pose proof (count_by_key (fun t => negb (tab_deleted t))
                (fun k => negb (window_deleted_in (windows st) k))
                (Dict.keys (windows (organize st))) T Hnd HcovT) as Hc.
  cbv beta in Hc.
  transitivity
    (list_sum
       (map (fun k =>
               if negb (window_deleted_in (windows st) k)
               then List.length
                      (filter (fun t => negb (tab_deleted t)
                                        && (tab_win t =? k)) T)
               else 0%nat)
            (map win_id (Dict.values (windows (organize st)))))).
  - rewrite map_map. f_equal. apply map_ext_in. intros w Hw.
    assert (Hdel : win_deleted w
                   = window_deleted_in (windows st) (win_id w)).
    { rewrite <- (window_deleted_in_fold T (windows st)). fold F.
      unfold Dict.values in Hw. rewrite organize_windows_eq in Hw.
      fold T in Hw. fold F in Hw.
      apply in_map_iff in Hw. destruct Hw as [e [<- He]].
      apply in_map_iff in He. destruct He as [[k w0] [<- He0]].
      destruct (organize_grouped st Hok) as [HndF [HwsF _]].
      fold T in HndF, HwsF. fold F in HndF, HwsF.
      rewrite Forall_forall in HwsF. destruct (HwsF _ He0) as [Hid _].
      simpl in Hid |- *. unfold window_deleted_in.
      rewrite Hid, (dict_get_In k w0 F HndF He0). reflexivity. }
    rewrite Hdel.
    destruct (negb (window_deleted_in (windows st) (win_id w)));
      [|reflexivity].
    rewrite (organize_window_tabs st w Hok Hw). fold T.
    rewrite (filter_perm_length _ _ _ (sort_by_perm tab_idx _)).
    now rewrite filter_filter_and.
  - rewrite organized_window_ids by exact Hok. rewrite Hc.
    unfold open_tabs, T. rewrite filter_map_length. reflexivity.
Qed.

Lemma tab_count_is_open_tabs_witness :
  get_tab_count (fs_session S3_log)
  = Z.of_nat (List.length (open_tabs (store_of S3_log))).
Proof.
  apply (tab_count_is_open_tabs (fs_session S3_log)
           "$HOME/.config/chromium"%string S3_log (store_of S3_log));
    vm_compute; reflexivity.
Defined.

(** ** The search for the session file *)

Section FindSessionFacts.
Variable mtime : Type.
Variable zero : mtime.
Variable gt : mtime -> mtime -> bool.
Variable stat_mtime : string -> option mtime.
(** The comparison of time stamps is a strict order in which a stamp that
    is not above another is not above anything above that one. *)
Hypothesis gt_irrefl : forall a, gt a a = false.
Hypothesis gt_trans : forall a b c, gt a b = true -> gt b c = true -> gt a c = true.
Hypothesis gt_chain :
  forall a b c, gt b a = true -> gt c a = false -> gt c b = false.

Local Notation files_loop := (Discovery.files_loop mtime gt stat_mtime).
Local Notation walk_loop := (Discovery.walk_loop mtime gt stat_mtime).
Local Notation newest_of := (Discovery.newest_of mtime zero gt stat_mtime).

Lemma newest_of_more (seen : list string) (s : Discovery.search mtime)
  (p : string) (m : mtime) :
  newest_of seen s ->
  stat_mtime p = Some m ->
  newest_of (seen ++ [p]) (if gt m (snd s) then (p, m) else s).
Proof.
  intros [Hmax Hcand] Hp. destruct (gt m (snd s)) eqn:E.
  - split.
    + intros q mq Hq Hsq. simpl. apply in_app_iff in Hq.
      destruct Hq as [Hq|[<-|[]]].
      * apply (gt_chain (snd s) m mq E). now apply (Hmax q).
      * rewrite Hp in Hsq. injection Hsq as <-. apply gt_irrefl.
    + right. simpl. split; [apply in_app_iff; right; now left|].
      split; [exact Hp|].
      destruct Hcand as [[_ Hz]|[_ [_ Hz]]].
      * now rewrite <- Hz.
      * now apply (gt_trans m (snd s) zero).
  - split.
    + intros q mq Hq Hsq. apply in_app_iff in Hq.
      destruct Hq as [Hq|[<-|[]]].
      * now apply (Hmax q).
      * rewrite Hp in Hsq. injection Hsq as <-. exact E.
    + destruct Hcand as [Hc|[Hin Hc]]; [now left|].
      right. split; [apply in_app_iff; now left|exact Hc].
Qed.

Lemma files_loop_newest (root : string) (files : list string) :
  forall seen s,
    newest_of seen s ->
    (forall p, In p (Discovery.session_files root files) ->
               stat_mtime p <> None) ->
    exists s',
      files_loop root files s = Some s'
      /\ newest_of (seen ++ Discovery.session_files root files) s'.
Proof.
  unfold Discovery.session_files.
  induction files as [|file files IH]; intros seen s Hs Hstat; simpl.
  - exists s. now rewrite app_nil_r.
  - revert Hstat. simpl.
    destruct (String.prefix "Session_" file) eqn:E; intros Hstat; simpl in *.
    + destruct (stat_mtime (Discovery.join root file)) as [m|] eqn:Em.
      * destruct (IH (seen ++ [Discovery.join root file])
                     (if gt m (snd s) then (Discovery.join root file, m) else s))
          as [s' [H1 H2]].
        -- now apply newest_of_more.
        -- intros p Hp. apply Hstat. now right.
        -- exists s'. split; [exact H1|]. now rewrite <- app_assoc in H2.
      * exfalso. apply (Hstat (Discovery.join root file)); [now left|exact Em].
    + now apply IH.
Qed.

Lemma walk_loop_newest (walk : list (string * list string)) :
  forall seen s,
    newest_of seen s ->
    (forall p, In p (Discovery.candidates walk) -> stat_mtime p <> None) ->
    exists s',
      walk_loop walk s = Some s'
      /\ newest_of (seen ++ Discovery.candidates walk) s'.
Proof.
  induction walk as [|[root files] walk IH]; intros seen s Hs Hstat; simpl.
  - exists s. now rewrite app_nil_r.
  - simpl in Hstat.
    destruct (files_loop_newest root files seen s Hs) as [s1 [H1 Hs1]].
    { intros p Hp. apply Hstat. apply in_app_iff. now left. }
    rewrite H1.
    destruct (IH _ s1 Hs1) as [s' [H2 Hs']].
    { intros p Hp. apply Hstat. apply in_app_iff. now right. }
    exists s'. split; [exact H2|]. now rewrite <- app_assoc in Hs'.
Qed.

Lemma files_loop_error (root : string) (files : list string) :
  forall s,
    (exists p, In p (Discovery.session_files root files)
               /\ stat_mtime p = None) ->
    files_loop root files s = None.
Proof.
  unfold Discovery.session_files.
  induction files as [|file files IH]; intros s [p [Hp Hnone]]; simpl in *.
  - destruct Hp.
  - revert Hp.
    destruct (String.prefix "Session_" file) eqn:E; intros Hp; simpl in *.
    + destruct Hp as [<-|Hp].
      * now rewrite Hnone.
      * destruct (stat_mtime (Discovery.join root file)); [|reflexivity].
        apply IH. now exists p.
    + apply IH. now exists p.
Qed.

Lemma walk_loop_error (walk : list (string * list string)) :
  forall s,
    (exists p, In p (Discovery.candidates walk) /\ stat_mtime p = None) ->
    walk_loop walk s = None.
Proof.
  induction walk as [|[root files] walk IH]; intros s [p [Hp Hnone]]; simpl in *.
  - destruct Hp.
  - apply in_app_iff in Hp.
    destruct (files_loop root files s) as [s1|] eqn:E; [|reflexivity].
    destruct Hp as [Hp|Hp].
    + rewrite files_loop_error in E; [discriminate|]. now exists p.
    + apply IH. now exists p.
Qed.

(** When every file named Session_... under the directory can be
    stat'ed, [find_session] returns one of them, with a time stamp above 0
    and not below the stamp of any other; it returns "" only when no such
    file has a stamp above 0.  When one of them cannot be stat'ed, the
    OSError makes the result "", whatever the other files are. *)
Theorem find_session_newest (walk : list (string * list string)) :
  ((forall p, In p (Discovery.candidates walk) -> stat_mtime p <> None) ->
   let r := Discovery.find_session mtime zero gt stat_mtime walk in
   (r = EmptyString
    /\ forall p m, In p (Discovery.candidates walk) ->
                   stat_mtime p = Some m -> gt m zero = false)
   \/ (In r (Discovery.candidates walk)
       /\ exists mr,
            stat_mtime r = Some mr /\ gt mr zero = true
            /\ forall p m, In p (Discovery.candidates walk) ->
                           stat_mtime p = Some m -> gt m mr = false))
  /\ ((exists p, In p (Discovery.candidates walk) /\ stat_mtime p = None) ->
      Discovery.find_session mtime zero gt stat_mtime walk = EmptyString).
Proof.
  split.
  - intros Hstat.
    destruct (walk_loop_newest walk [] (EmptyString, zero)) as [s [Hw Hs]].
    { split; [intros p m []|]. left. now split. }
    { exact Hstat. }
    simpl in Hs. unfold Discovery.find_session. rewrite Hw.
    destruct s as [cand latest]. destruct Hs as [Hmax Hcand]. simpl in *.
    destruct Hcand as [[-> ->]|[Hin [Hst Hz]]].
    + left. split; [reflexivity|exact Hmax].
    + right. split; [exact Hin|]. exists latest. now repeat split.
  - intros Herr. unfold Discovery.find_session.
    now rewrite walk_loop_error.
Qed.
End FindSessionFacts.

Lemma find_session_newest_witness :
  Discovery.find_session Z 0 Z.gtb example_stat example_walk
  = "/p/Session_2"%string
  /\ Discovery.find_session Z 0 Z.gtb example_stat
       (example_walk ++ [("/q"%string, ["Session_9"%string])])
     = EmptyString.
Proof.
  assert (Hirr : forall a, Z.gtb a a = false) by (intros; lia).
  assert (Htr : forall a b c, Z.gtb a b = true -> Z.gtb b c = true ->
                              Z.gtb a c = true) by (intros; lia).
  assert (Hch : forall a b c, Z.gtb b a = true -> Z.gtb c a = false ->
                              Z.gtb c b = false) by (intros; lia).
  split.
  - destruct (proj1 (find_session_newest Z 0 Z.gtb example_stat Hirr Htr Hch
                       example_walk)) as [[H _]|[H _]].
    + intros p Hp. vm_compute in Hp.
      destruct Hp as [<-|[<-|[<-|[]]]]; discriminate.
    + vm_compute in H. discriminate H.
    + vm_compute. reflexivity.
  - apply (proj2 (find_session_newest Z 0 Z.gtb example_stat Hirr Htr Hch
                    (example_walk ++ [("/q"%string, ["Session_9"%string])]))).
    exists "/q/Session_9"%string. split; [|reflexivity].
    vm_compute. tauto.
Defined.

(** ** The choice of the profile directory *)

(** [get_chrome_session_file] never returns the empty path and raises
    nothing but RuntimeError; what it returns is one of the three profile
    paths, when that is not a directory, or the session file found in it.
    The chromium profile wins over the other two when it exists. *)
Theorem session_file_outcome (fs : filesystem) :
  let chromium := expandvars fs "$HOME/.config/chromium" in
  let google := expandvars fs "$HOME/.config/google-chrome" in
  let chrome := expandvars fs "$HOME/.config/chrome" in
  (forall p,
      get_chrome_session_file fs = Ok p ->
      p <> EmptyString
      /\ exists d,
           In d [chromium; google; chrome]
           /\ ((path_isdir fs d = false /\ p = d)
               \/ (path_isdir fs d = true /\ p = find_session fs d)))
  /\ (forall e, get_chrome_session_file fs = Raise e -> e = RuntimeError)
  /\ (path_exists fs chromium = true ->
      get_chrome_session_file fs
      = if path_isdir fs chromium
        then (if String.eqb (find_session fs chromium) ""
              then Raise RuntimeError else Ok (find_session fs chromium))
        else (if String.eqb chromium ""
              then Raise RuntimeError else Ok chromium)).
Proof.
  intros chromium google chrome. unfold get_chrome_session_file.
  fold chromium google chrome.
  split; [|split].
  - intros p.
    set (t1 := if negb (path_exists fs chromium) then google else chromium).
    set (t2 := if negb (path_exists fs t1) then chrome else t1).
    assert (Ht2 : In t2 [chromium; google; chrome]).
    { unfold t2, t1. simpl.
      destruct (path_exists fs chromium); simpl;
        match goal with
        | |- context [path_exists fs ?x] => destruct (path_exists fs x)
        end; simpl; tauto. }
    destruct (path_isdir fs t2) eqn:Ed.
    + destruct (String.eqb (find_session fs t2) "") eqn:Ee; [discriminate|].
      intros H. injection H as <-. split.
      * intros Hn. rewrite Hn in Ee. discriminate Ee.
      * exists t2. split; [exact Ht2|]. right. now split.
    + destruct (String.eqb t2 "") eqn:Ee; [discriminate|].
      intros H. injection H as <-. split.
      * intros Hn. rewrite Hn in Ee. discriminate Ee.
      * exists t2. split; [exact Ht2|]. left. now split.
  - intros e.
    match goal with
    | |- (if ?b then _ else _) = _ -> _ => destruct b
    end; intros H; [now injection H as <-|discriminate H].
  - intros Hex. rewrite Hex. simpl. rewrite Hex. simpl.
    destruct (path_isdir fs chromium); reflexivity.
Qed.

Lemma session_file_outcome_witness :
  get_chrome_session_file fs_no_session = Raise RuntimeError.
Proof.
  destruct (session_file_outcome fs_no_session) as [_ [_ H]].
  rewrite H by reflexivity. reflexivity.
Defined.

(** ** Records that set a field twice *)

Lemma dict_update_update {K V : Type} (eqb : K -> K -> bool) (k : K)
  (f g : V -> V) (d : Dict.t) :
  Dict.update eqb k g (Dict.update eqb k f d)
  = Dict.update eqb k (fun v => g (f v)) d.
Proof.
  induction d as [|[k' v] d IH]; simpl; [reflexivity|].
  destruct (eqb k' k) eqn:E; simpl; rewrite E; [reflexivity|].
  now rewrite IH.
Qed.

Lemma dict_update_ext {K V : Type} (eqb : K -> K -> bool) (k : K)
  (f g : V -> V) (d : Dict.t) :
  (forall v, f v = g v) -> Dict.update eqb k f d = Dict.update eqb k g d.
Proof.
  intros H. induction d as [|[k' v] d IH]; simpl; [reflexivity|].
  destruct (eqb k' k); [now rewrite H|now rewrite IH].
Qed.

Lemma dict_setdefault_present {V : Type} (k : Z) (v : V) (d : Dict.t) :
  In k (Dict.keys d) -> Dict.setdefault Z.eqb k v d = d.
Proof.
  intros H. unfold Dict.setdefault.
  apply (dict_mem_true Z.eqb Z_eqb_spec) in H. now rewrite H.
Qed.

(** A second mutation of a tab that forgets the first one replaces it. *)
Lemma modify_tab_twice (id : Z) (f g : Tab -> Tab) (st : store) :
  (forall t, g (f t) = g t) ->
  modify_tab id g (get_tab id (modify_tab id f (get_tab id st)))
  = modify_tab id g (get_tab id st).
Proof.
  intros H. unfold modify_tab, get_tab, set_tabs. simpl. f_equal.
  rewrite dict_setdefault_present.
  - rewrite dict_update_update. now apply dict_update_ext.
  - rewrite dict_keys_update. apply (dict_setdefault_key Z.eqb Z_eqb_spec).
Qed.

Lemma modify_window_twice (id : Z) (f g : Window -> Window) (st : store) :
  (forall w, g (f w) = g w) ->
  modify_window id g (get_window id (modify_window id f (get_window id st)))
  = modify_window id g (get_window id st).
Proof.
  intros H. unfold modify_window, get_window, set_windows. simpl. f_equal.
  rewrite dict_setdefault_present.
  - rewrite dict_update_update. now apply dict_update_ext.
  - rewrite dict_keys_update. apply (dict_setdefault_key Z.eqb Z_eqb_spec).
Qed.

Lemma read_two_u32 (a b : Z) :
  0 <= a < 2 ^ 32 -> 0 <= b < 2 ^ 32 ->
  (x <- read_uint32 ;; y <- read_uint32 ;; ret (x, y)) (u32 a ++ u32 b)
  = Ok ((a, b), []).
Proof.
  intros Ha Hb. unfold bind, read_uint32, u32.
  rewrite read_uint_app by apply le_bytes_length.
  rewrite <- (app_nil_r (le_bytes 4 b)).
  rewrite read_uint_app by apply le_bytes_length.
  now rewrite !le_value_le_bytes by (simpl; lia).
Qed.

(** The last record wins: of two records that set the window of a tab,
    the position of a tab, the current history index of a tab or the
    selected tab of a window, applied one after the other, the first
    leaves no trace. *)
Theorem last_record_wins (id a b : Z) (st : store) :
  0 <= id < 2 ^ 32 -> 0 <= a < 2 ^ 32 -> 0 <= b < 2 ^ 32 ->
  apply_records [(x00, u32 a ++ u32 id); (x00, u32 b ++ u32 id)] st
  = apply_records [(x00, u32 b ++ u32 id)] st
  /\ apply_records [(x02, u32 id ++ u32 a); (x02, u32 id ++ u32 b)] st
     = apply_records [(x02, u32 id ++ u32 b)] st
  /\ apply_records [(x07, u32 id ++ u32 a); (x07, u32 id ++ u32 b)] st
     = apply_records [(x07, u32 id ++ u32 b)] st
  /\ apply_records [(x08, u32 id ++ u32 a); (x08, u32 id ++ u32 b)] st
     = apply_records [(x08, u32 id ++ u32 b)] st.
Proof.
  intros Hid Ha Hb.
  assert (H0 : forall v s, 0 <= v < 2 ^ 32 ->
               dispatch 0 (u32 v ++ u32 id) s
               = Ok (modify_tab id (with_win v) (get_tab id s))).
  { intros v s Hv. change (dispatch 0 ?d s) with (set_tab_window d s).
    unfold set_tab_window, handle. now rewrite read_two_u32. }
  assert (H2 : forall v s, 0 <= v < 2 ^ 32 ->
               dispatch 2 (u32 id ++ u32 v) s
               = Ok (modify_tab id (with_idx v) (get_tab id s))).
  { intros v s Hv. change (dispatch 2 ?d s) with (set_tab_index_in_window d s).
    unfold set_tab_index_in_window, handle. now rewrite read_two_u32. }
  assert (H7 : forall v s, 0 <= v < 2 ^ 32 ->
               dispatch 7 (u32 id ++ u32 v) s
               = Ok (modify_tab id (with_current_history_idx v)
                                (get_tab id s))).
  { intros v s Hv.
    change (dispatch 7 ?d s) with (set_selected_navigation_index d s).
    unfold set_selected_navigation_index, handle. now rewrite read_two_u32. }
  assert (H8 : forall v s, 0 <= v < 2 ^ 32 ->
               dispatch 8 (u32 id ++ u32 v) s
               = Ok (modify_window id (with_active_tab_idx v)
                                   (get_window id s))).
  { intros v s Hv.
    change (dispatch 8 ?d s) with (set_selected_tab_in_index d s).
    unfold set_selected_tab_in_index, handle. now rewrite read_two_u32. }
  cbn [apply_records fst snd].
  change (byte_val x00) with 0. change (byte_val x02) with 2.
  change (byte_val x07) with 7. change (byte_val x08) with 8.
  rewrite !H0, !H2, !H7, !H8 by assumption.
  rewrite !modify_tab_twice by reflexivity.
  rewrite modify_window_twice by reflexivity.
  repeat split.
Qed.

Lemma last_record_wins_witness :
  apply_records [(x02, u32 5 ++ u32 3); (x02, u32 5 ++ u32 1)] empty_store
  = apply_records [(x02, u32 5 ++ u32 1)] empty_store.
Proof.
  destruct (last_record_wins 5 3 1 empty_store) as [_ [H _]]; try lia.
  exact H.
Defined.

(** ** The invariants of a replayed store *)

(** At the end of every replay that succeeds: the table of tabs and the
    table of windows hold each id once, every entity carries the id it is
    stored under, no tab has two history items with the same idx, no
    window has tabs before the materialization, every group reference of a
    tab resolves in the group table, and the active window, when there is
    one, is a window of the table. *)
Theorem replay_invariants (file : list byte) (st : store) :
  replay file = Ok st ->
  store_ok st /\ groups_ok st /\ active_ok st.
Proof.
  intros Hr. split; [|split].
  - now apply (replay_ok file).
  - now apply (replay_groups_ok file).
  - now apply (replay_active_ok file).
Qed.

Lemma replay_invariants_witness :
  store_ok (store_of colliding_groups_log)
  /\ groups_ok (store_of colliding_groups_log)
  /\ active_ok (store_of colliding_groups_log).
Proof.
  apply (replay_invariants colliding_groups_log). vm_compute. reflexivity.
Defined.

(** * The history of a materialized tab *)

(** ** From the tab table to the tab lists *)

Lemma filter_map_pre {A B : Type} (p : B -> bool) (f : A -> B) (l : list A) :
  filter p (map f l) = map f (filter (fun x => p (f x)) l).
Proof.
  induction l as [|x l IH]; simpl; [reflexivity|].
  destruct (p (f x)); simpl; now rewrite IH.
Qed.

(** Sorting commutes with a change of the elements that keeps their keys. *)
Lemma insert_by_map {A : Type} (key : A -> Z) (f : A -> A) (x : A)
  (l : list A) :
  (forall y, key (f y) = key y) ->
  insert_by key (f x) (map f l) = map f (insert_by key x l).
Proof.
  intros Hk. induction l as [|y l IH]; simpl; [reflexivity|].
  rewrite !Hk. destruct (key x <=? key y); simpl; [reflexivity|].
  now rewrite IH.
Qed.

Lemma sort_by_map {A : Type} (key : A -> Z) (f : A -> A) (l : list A) :
  (forall y, key (f y) = key y) ->
  sort_by key (map f l) = map f (sort_by key l).
Proof.
  intros Hk. induction l as [|x l IH]; simpl; [reflexivity|].
  rewrite IH. now apply insert_by_map.
Qed.

Lemma tabs_of_window_In (st : store) (k : Z) (t : Tab) :
  In t (tabs_of_window st k)
  <-> In t (Dict.values (tabs st)) /\ tab_win t = k.
Proof.
  unfold tabs_of_window. split.
  - intros H. apply (Permutation_in _ (sort_by_perm tab_idx _)) in H.
    apply filter_In in H. destruct H as [H1 H2]. apply Z.eqb_eq in H2.
    now split.
  - intros [H1 H2].
    apply (Permutation_in _ (Permutation_sym (sort_by_perm tab_idx _))).
    apply filter_In. split; [exact H1|]. now apply Z.eqb_eq.
Qed.

(** The tab list of a materialized window is the list of the tabs of the
    table that name the window, each with its history sorted. *)
Lemma window_tabs_from_table (st : store) (w : Window) :
  store_ok st ->
  In w (Dict.values (windows (organize st))) ->
  win_tabs w = map sorted_history_tab (tabs_of_window st (win_id w)).
Proof.
  intros Hok Hin. rewrite (organize_window_tabs st w Hok Hin).
  unfold tabs_of_window. rewrite filter_map_pre.
  now rewrite (sort_by_map tab_idx sorted_history_tab).
Qed.

Lemma table_tab_history_NoDup (st : store) (t : Tab) :
  store_ok st ->
  In t (Dict.values (tabs st)) ->
  NoDup (map hist_idx (tab_history t)).
Proof.
  intros [_ Htabs _ _] Ht. unfold Dict.values in Ht.
  apply in_map_iff in Ht. destruct Ht as [e [<- He]].
  rewrite Forall_forall in Htabs. now destruct (Htabs e He).
Qed.

(** ** From the tab lists to the Result *)

Lemma emitted_from_build_tab (st : store) (w : Window) (idx : Z) (t : Tab) :
  NoDup (map hist_idx (tab_history t)) ->
  emitted_from t (build_tab st w idx (sorted_history_tab t)).
Proof.
  intros Hnd.
  assert (Hs : StronglySorted Z.lt
                 (map hist_idx (sort_by hist_idx (tab_history t))))
    by (apply strongly_sorted_map, sort_by_strict; exact Hnd).
  destruct (build_tab_history st w idx (sorted_history_tab t) Hs)
    as [_ [Hm Hn]].
  split; [apply sort_by_perm|]. split; [exact Hs|]. split.
  - intros pre e post Hh He. now apply (Hm pre e post).
  - intros Hno. apply Hn. intros e He. apply Hno.
    now apply (Permutation_in _ (sort_by_perm hist_idx _)).
Qed.

Lemma tabs_loop_emitted (st : store) (w : Window) (ts : list Tab) :
  (forall t, In t ts -> NoDup (map hist_idx (tab_history t))) ->
  forall idx,
    Forall2 emitted_from ts
            (tabs_loop st w idx (map sorted_history_tab ts) []).
Proof.
  induction ts as [|t ts IH]; intros H idx; [constructor|].
  cbn [map]. rewrite tabs_loop_cons. constructor.
  - apply emitted_from_build_tab, H. now left.
  - apply IH. intros x Hx. apply H. now right.
Qed.

Lemma Forall2_map_same {A B C : Type} (R : B -> C -> Prop) (f : A -> B)
  (g : A -> C) (l : list A) :
  (forall x, In x l -> R (f x) (g x)) -> Forall2 R (map f l) (map g l).
Proof.
  induction l as [|x l IH]; intros H; simpl; constructor.
  - apply H. now left.
  - apply IH. intros y Hy. apply H. now right.
Qed.

Lemma Forall2_In_l {A B : Type} (R : A -> B -> Prop) (l : list A)
  (l' : list B) (x : A) :
  Forall2 R l l' -> In x l -> exists y, In y l' /\ R x y.
Proof.
  induction 1 as [|a b l l' Hab H IH]; intros Hx; [destruct Hx|].
  destruct Hx as [<-|Hx].
  - exists b. split; [now left|exact Hab].
  - destruct (IH Hx) as [y [Hy Hxy]]. exists y. split; [now right|exact Hxy].
Qed.

Lemma Forall2_In_r {A B : Type} (R : A -> B -> Prop) (l : list A)
  (l' : list B) (y : B) :
  Forall2 R l l' -> In y l' -> exists x, In x l /\ R x y.
Proof.
  induction 1 as [|a b l l' Hab H IH]; intros Hy; [destruct Hy|].
  destruct Hy as [<-|Hy].
  - exists a. split; [now left|exact Hab].
  - destruct (IH Hy) as [x [Hx Hxy]]. exists x. split; [now right|exact Hxy].
Qed.

(** ** C7: the history of a materialized tab *)

(** C7.  When [parse] gives a Result, the log replays to a store [st],
    and the ResultWindows stand for the windows of the materialized table
    in its order; the ResultTabs of the window [k] stand, one for one and
    in order, for the tabs of the replayed tab table whose window is [k],
    sorted by position.  The ResultTab of a tab holds the items of the
    history of that tab in strictly ascending order of hist-idx, up to and
    including the one whose idx is tab.current_history_idx, where it
    stops, and has url and title of that item; when no item has that idx
    it holds the whole history in that order, and url and title are the
    empty string.  So every tab of the table is emitted with its history,
    and every ResultTab is the one of a tab of the table. *)
Theorem history_up_to_current (file : list byte) (r : Result) :
  parse file = Ok r ->
  exists st,
    replay file = Ok st
    /\ Forall2 (fun k rw =>
                  Forall2 emitted_from (tabs_of_window st k) (rw_tabs rw))
               (Dict.keys (windows (organize st))) (res_windows r)
    /\ (forall t,
           In t (Dict.values (tabs st)) ->
           exists rw rt,
             In rw (res_windows r) /\ In rt (rw_tabs rw)
             /\ emitted_from t rt)
    /\ (forall rw rt,
           In rw (res_windows r) -> In rt (rw_tabs rw) ->
           exists t, In t (Dict.values (tabs st)) /\ emitted_from t rt).
Proof.
  intros Hp. destruct (parse_inv file r Hp) as [st [Hr Hw]].
  pose proof (replay_ok file st Hr) as Hok.
  exists st. split; [exact Hr|].
  assert (Hpos : Forall2 (fun k rw =>
                            Forall2 emitted_from (tabs_of_window st k)
                                    (rw_tabs rw))
                         (Dict.keys (windows (organize st))) (res_windows r)).
  { rewrite Hw, <- organized_window_ids by exact Hok.
    apply Forall2_map_same. intros w Hin. cbn [build_window rw_tabs].
    rewrite (window_tabs_from_table st w Hok Hin).
    apply tabs_loop_emitted. intros t Ht.
    apply tabs_of_window_In in Ht. destruct Ht as [Ht _].
    now apply (table_tab_history_NoDup st). }
  split; [exact Hpos|]. split.
  - intros t Ht.
    assert (Hk : In (tab_win t) (Dict.keys (windows (organize st)))).
    { destruct (materialized_windows_keys st Hok) as [_ Hcov].
      apply Hcov. right. now exists t. }
    destruct (Forall2_In_l _ _ _ _ Hpos Hk) as [rw [Hrw Hts]].
    assert (Hin : In t (tabs_of_window st (tab_win t)))
      by now apply tabs_of_window_In.
    destruct (Forall2_In_l _ _ _ _ Hts Hin) as [rt [Hrt He]].
    now exists rw, rt.
  - intros rw rt Hrw Hrt.
    destruct (Forall2_In_r _ _ _ _ Hpos Hrw) as [k [_ Hts]].
    destruct (Forall2_In_r _ _ _ _ Hts Hrt) as [t [Ht He]].
    apply tabs_of_window_In in Ht. destruct Ht as [Ht _].
    now exists t.
Qed.

Lemma history_up_to_current_witness :
  parse history_log = Ok history_result
  /\ exists rw rt,
       In rw (res_windows history_result) /\ In rt (rw_tabs rw)
       /\ rt_history rt = [ mkResultHistoryItem (text "a") (text "A");
                            mkResultHistoryItem (text "b") (text "B") ]
       /\ rt_url rt = text "b" /\ rt_title rt = text "B".
Proof.
  assert (Hp : parse history_log = Ok history_result)
    by (vm_compute; reflexivity).
  split; [exact Hp|].
  destruct (history_up_to_current history_log history_result Hp)
    as [st [Hr [_ [Hall _]]]].
  assert (Hst : st = store_of history_log).
  { unfold store_of. now rewrite Hr. }
  destruct (Hall (mkTab 42
                    [ mkHistoryItem 2 (text "c") (text "C");
                      mkHistoryItem 0 (text "a") (text "A");
                      mkHistoryItem 1 (text "b") (text "B") ]
                    0 1 false 1 None))
    as [rw [rt [Hrw [Hrt [_ [_ [Hm _]]]]]]].
  { rewrite Hst. vm_compute. left. reflexivity. }
  exists rw, rt. split; [exact Hrw|]. split; [exact Hrt|].
  apply (Hm [mkHistoryItem 0 (text "a") (text "A")]
            (mkHistoryItem 1 (text "b") (text "B"))
            [mkHistoryItem 2 (text "c") (text "C")]).
  - vm_compute. reflexivity.
  - reflexivity.
Defined.
